(** * heif2jpeg: the memory-aware batch converter of [heif2jpeg.cpp]

    A shallow embedding of [src/heif2jpeg.cpp]: the cost estimator, the
    conversion, [process_file], the job queue, the per-thread budget, the
    worker loop and [process_all], then [change_extension], the arguments
    of [main] and [main] itself; together with the properties the
    specification states about the program, and further properties that
    the code shows.

    Conventions.
    - C++ [int] is a [Z] kept in the 32-bit two's complement range by
      [int_wrap]; [size_t] is a [Z] kept in [0, 2^64) by [to_size_t].
      Signed overflow is undefined in C++; the model takes the result the
      target machines produce (wrap-around).
    - [double] values that occur in the estimator are non-negative and
      finite; they are modelled exactly as dyadic numbers [m * 2^e] with a
      53-bit significand and round-to-nearest-even.
    - The file system is a finite map from path strings to nodes; what
      libheif reports for a file is part of the node's content.
    - Console output and the calls that the properties talk about are
      recorded, newest first, in the log of the world.
    - [std::priority_queue] is modelled by its contract, not by a heap.
    - The worker threads interleave at two kinds of steps: taking a job
      under [queue_mutex], and the rest of the loop body.  The counters are
      [std::atomic<int>], so that an increment is one step whatever the
      interleaving; the accesses of [process_file] to the file system are
      taken together with it.
    - [fs::filesystem_error], which the throwing overloads of [fs::exists]
      and [fs::is_regular_file] raise where the status of a path cannot be
      read, ends the process; the definitions of the program come twice,
      first for the case in which every status can be read, then, in
      [Module Throwing], with the exception.  [std::bad_alloc] and
      [std::system_error] (no memory, no thread) are outside the model. *)

From Stdlib Require Import ZArith QArith Qround Lia Ascii String.
From stdpp Require Import gmap strings list fin_maps sorting.

Local Open Scope Z_scope.

(** ** Machine integers *)

Module MachineInt.

Definition INT_MAX : Z := 2147483647.
Definition INT_MIN : Z := -2147483648.
Definition SIZE_MOD : Z := 2 ^ 64.

(** value of an [int] computation whose mathematical result is [z] *)
Definition int_wrap (z : Z) : Z := (z + 2 ^ 31) mod 2 ^ 32 - 2 ^ 31.

Definition int_mul (a b : Z) : Z := int_wrap (a * b).

(** conversion to [size_t], and [size_t] arithmetic *)
Definition to_size_t (z : Z) : Z := z mod SIZE_MOD.

Definition size_add (a b : Z) : Z := to_size_t (a + b).

Definition in_int (z : Z) : Prop := INT_MIN <= z <= INT_MAX.

End MachineInt.
Import MachineInt.

(** ** The [double] values of the estimator *)

Module Double.

(** a non-negative finite double: [mant * 2 ^ expo] *)
Record dbl := mk_dbl { mant : Z; expo : Z }.

(** round the exact value [m * 2^e] (with [0 <= m]) to a 53-bit significand,
    ties to even *)
Definition rne53 (m e : Z) : dbl :=
  let bits := if m =? 0 then 0 else Z.log2 m + 1 in
  if bits <=? 53 then mk_dbl m e
  else
    let sh := bits - 53 in
    let q := Z.shiftr m sh in
    let r := m mod 2 ^ sh in
    let half := 2 ^ (sh - 1) in
    let q' := if (half <? r) || ((r =? half) && Z.odd q) then q + 1 else q in
    mk_dbl q' (e + sh).

(** [static_cast<double>] of a [size_t] *)
Definition of_size_t (n : Z) : dbl := rne53 n 0.

(** [d * 1.5]; 1.5 is [3 * 2^-1] *)
Definition mul_1_5 (d : dbl) : dbl := rne53 (mant d * 3) (expo d - 1).

(** [d / (1024 * 1024)]: a division by a power of two is exact in the range
    of the estimator (no underflow) *)
Definition div_MiB (d : dbl) : dbl := mk_dbl (mant d) (expo d - 20).

(** [std::ceil] followed by [static_cast<size_t>] *)
Definition ceil_to_size_t (d : dbl) : Z :=
  if 0 <=? expo d then to_size_t (mant d * 2 ^ expo d)
  else to_size_t (- ((- mant d) / 2 ^ (- expo d))).

End Double.

(** ** The cost estimator: the arithmetic of [estimate_memory_requirement] *)

(** lines 237-253, from the [int] width and height of the primary image *)
Definition estimate_from_dimensions (width height : Z) : Z :=
  let rgb_memory := to_size_t (int_mul (int_mul width height) 3) in
  let jpeg_memory := to_size_t (int_mul (int_mul width height) 4) in
  let overhead_memory := to_size_t (10 * 1024 * 1024) in
  let sum := size_add (size_add rgb_memory jpeg_memory) overhead_memory in
  Double.ceil_to_size_t
    (Double.div_MiB (Double.mul_1_5 (Double.of_size_t sum))).

(** The formula of the specification, over the rationals. *)
Definition estimate_formula (width height : Z) : Z :=
  Qceiling ((3 # 2)
            * inject_Z (width * height * 3 + width * height * 4
                        + 10 * 1024 * 1024)
            / inject_Z (1024 * 1024))%Q.

(** ** Paths: the parts of [std::filesystem::path] the program uses *)

Module Path.

Local Open Scope string_scope.

(** the suffix after the last occurrence of [c], if [c] occurs *)
Fixpoint after_last (c : ascii) (s : string) : option string :=
  match s with
  | EmptyString => None
  | String a r =>
      match after_last c r with
      | Some t => Some t
      | None => if Ascii.eqb a c then Some r else None
      end
  end.

(** the prefix before the last occurrence of [c], if [c] occurs *)
Fixpoint before_last (c : ascii) (s : string) : option string :=
  match s with
  | EmptyString => None
  | String a r =>
      match before_last c r with
      | Some t => Some (String a t)
      | None => if Ascii.eqb a c then Some EmptyString else None
      end
  end.

Fixpoint strip_trailing_slashes (s : string) : string :=
  match s with
  | EmptyString => EmptyString
  | String a r =>
      let r' := strip_trailing_slashes r in
      if Ascii.eqb a "/" && String.eqb r' "" then EmptyString else String a r'
  end.

(** [path::filename()] *)
Definition filename (p : string) : string :=
  match after_last "/" p with
  | Some f => f
  | None => p
  end.

(** [path::extension()]: the suffix of the file name from its last period;
    empty for ".", ".." and when the only period is the leading one *)
Definition extension (p : string) : string :=
  let f := filename p in
  if String.eqb f ".." then ""
  else match f with
       | EmptyString => ""
       | String _ r =>
           match after_last "." r with
           | Some t => String "." t
           | None => ""
           end
       end.

(** [path::parent_path()] *)
Definition parent_path (p : string) : string :=
  match before_last "/" p with
  | None => ""
  | Some d =>
      let d' := strip_trailing_slashes d in
      if String.eqb d' "" then "/" else d'
  end.

(** [::tolower] in the "C" locale *)
Definition tolower (c : ascii) : ascii :=
  let n := Ascii.N_of_ascii c in
  if ((65 <=? n) && (n <=? 90))%N then Ascii.ascii_of_N (n + 32) else c.

(** [std::transform(ext.begin(), ext.end(), ext.begin(), ::tolower)] *)
Fixpoint lowercase (s : string) : string :=
  match s with
  | EmptyString => EmptyString
  | String a r => String (tolower a) (lowercase r)
  end.

(** [path::stem()]: the file name without its extension *)
Definition stem (p : string) : string :=
  let f := filename p in
  if String.eqb f ".." then f
  else match f with
       | EmptyString => ""
       | String a r =>
           match before_last "." r with
           | Some t => String a t
           | None => f
           end
       end.

Definition ends_with_slash (p : string) : bool :=
  match after_last "/" p with
  | Some EmptyString => true
  | _ => false
  end.

(** [operator/]: an absolute right-hand side replaces the path; otherwise
    it is appended, after a separator unless the path is empty or ends
    with one *)
Definition append (p q : string) : string :=
  match q with
  | String a _ =>
      if Ascii.eqb a "/" then q
      else if String.eqb p "" || ends_with_slash p then String.append p q
      else String.append p (String "/" q)
  | EmptyString =>
      if String.eqb p "" || ends_with_slash p then p
      else String.append p "/"
  end.

End Path.

(** ** Jobs *)

(** [struct ImageJob] *)
Record ImageJob := mk_job {
  input_path : string;
  output_path : string;
  estimated_memory_mb : Z
}.

(** [ImageJob::operator<]: reversed, so that the smaller estimate is the
    greater job for [std::priority_queue] *)
Definition job_lt (a other : ImageJob) : bool :=
  estimated_memory_mb other <? estimated_memory_mb a.

(** ** The world: files, what the codec libraries make of them, the log *)

Inductive file_type := regular | directory | special.

(** one metadata block of an image handle as libheif reports it: its type
    (or a null pointer), its size, and its bytes unless reading them fails *)
Record raw_block := {
  rb_type : option string;
  rb_size : Z;
  rb_data : option (list Z)
}.

(** [struct MetadataBlock] *)
Record MetadataBlock := { mb_type : string; mb_data : list Z }.

(** the result of [heif_decode_image]: dimensions, row stride and the
    interleaved plane (or a null pointer) *)
Record heif_image := {
  hi_width : Z;
  hi_height : Z;
  hi_stride : Z;
  hi_plane : option (list Z)
}.

(** the primary image handle of a HEIF file *)
Record heif_handle := {
  hh_width : Z;
  hh_height : Z;
  hh_blocks : list raw_block;
  hh_decode : option heif_image
}.

(** what libjpeg wrote *)
Record jpeg := {
  j_width : Z;
  j_height : Z;
  j_quality : Z;
  j_markers : list (Z * list Z);
  j_rows : list (list Z)
}.

Inductive content :=
| Heif (primary : option heif_handle)   (* bytes that libheif parses *)
| Jpeg (j : jpeg)                       (* a finished output file *)
| Incomplete                            (* opened for writing, not finished *)
| Other.                                (* anything else *)

Record node := { ntype : file_type; ncontent : content }.

(** the parts of the environment that decide whether a system or library
    call succeeds *)
Record Sys := {
  heif_alloc_ok : bool;                       (* heif_context_alloc *)
  can_mkdir : string -> bool;                 (* fs::create_directories *)
  can_open : string -> bool;                  (* fopen(path, "wb") *)
  jpeg_ok : string -> Z -> Z -> Z -> bool     (* no libjpeg error_exit *)
}.

Inductive message :=
| MsgConverting (heif_path jpeg_path : string)
| MsgDimensionsExceed (width height max_width max_height : Z)
| MsgMemoryExceeds (estimated_mem max_memory_mb : Z)
| MsgAllocFailed
| MsgReadFailed (heif_path : string)
| MsgNoPrimaryHandle (heif_path : string)
| MsgDecodeFailed (heif_path : string)
| MsgNoPixelData (heif_path : string)
| MsgMkdirFailed (dir : string)
| MsgCreatedDir (dir : string)
| MsgOpenFailed (jpeg_path : string)
| MsgJpegError
| MsgSaved (jpeg_path : string)
| MsgInputNotFound (input : string)
| MsgNotRegular (input : string)
| MsgSkipNotHeif (input : string)
| MsgSkipExists (output input : string)
| MsgOverLimit (input : string) (estimated limit : Z).

(** which of the three counters a job ends in *)
Inductive outcome := succeeded | failed | skipped.

Inductive event :=
| Console (m : message)                       (* thread_safe_print *)
| Counted (o : outcome)                     (* ++ on one of the counters *)
| Dequeue (j : ImageJob)                    (* job_queue.top(); pop() *)
| CallProcessFile (input output : string) (quality : Z) (force : bool)
                  (max_width max_height max_memory_mb : Z)
| CallConvert (heif_path jpeg_path : string)
              (quality max_width max_height max_memory_mb : Z)
| CallDecode (heif_path : string).          (* heif_decode_image *)

Record World := mk_world {
  w_fs : gmap string node;
  w_sys : Sys;
  w_log : list event                        (* newest first *)
}.

Definition record (e : event) (w : World) : World :=
  mk_world (w_fs w) (w_sys w) (e :: w_log w).

Definition thread_safe_print (m : message) (w : World) : World :=
  record (Console m) w.

Definition set_fs (fs : gmap string node) (w : World) : World :=
  mk_world fs (w_sys w) (w_log w).

(** *** File system queries and updates *)

(** what [fs::exists] and [fs::is_regular_file] return where the status of
    the path can be read; the calls as the program makes them, which throw
    where it cannot be read, are [Throwing.fs_exists] and
    [Throwing.is_regular_file] below *)
Definition fs_exists (w : World) (p : string) : bool :=
  match w_fs w !! p with Some _ => true | None => false end.

Definition is_regular_file (w : World) (p : string) : bool :=
  match w_fs w !! p with
  | Some {| ntype := regular |} => true
  | _ => false
  end.

Definition is_directory (fs : gmap string node) (p : string) : bool :=
  match fs !! p with
  | Some {| ntype := directory |} => true
  | _ => false
  end.

(** [fs::create_directories(p, ec)] for a path that does not exist: every
    missing ancestor is created; [None] when an ancestor is not a directory
    or a directory cannot be made *)
Fixpoint create_directories (fuel : nat) (sys : Sys)
    (fs : gmap string node) (p : string) : option (gmap string node) :=
  if String.eqb p "" || String.eqb p "/" then Some fs
  else match fs !! p with
       | Some n => match ntype n with directory => Some fs | _ => None end
       | None =>
           match fuel with
           | O => None
           | S k =>
               match create_directories k sys fs (Path.parent_path p) with
               | Some fs' =>
                   if can_mkdir sys p
                   then Some (<[p := {| ntype := directory;
                                        ncontent := Other |}]> fs')
                   else None
               | None => None
               end
           end
       end.

(** writing a file keeps the type of an existing node *)
Definition put_content (p : string) (c : content)
    (fs : gmap string node) : gmap string node :=
  let t := match fs !! p with Some n => ntype n | None => regular end in
  <[p := {| ntype := t; ncontent := c |}]> fs.

(** [fopen(p, "wb")]: needs an existing parent directory, fails on a
    directory; creates or truncates the file *)
Definition fopen_wb (sys : Sys) (fs : gmap string node) (p : string)
    : option (gmap string node) :=
  let dir := Path.parent_path p in
  if can_open sys p
     && (String.eqb dir "" || String.eqb dir "/" || is_directory fs dir)
     && negb (is_directory fs p)
  then Some (put_content p Incomplete fs)
  else None.

(** *** libheif *)

(** [heif_context_read_from_file]: the parsed file, unless it is missing or
    is not HEIF *)
Definition heif_context_read_from_file (w : World) (p : string)
    : option (option heif_handle) :=
  match w_fs w !! p with
  | Some {| ncontent := Heif primary |} => Some primary
  | _ => None
  end.

(** [extract_metadata] *)
Definition extract_metadata (handle : heif_handle) : list MetadataBlock :=
  omap (fun b =>
          match rb_type b with
          | None => None
          | Some t =>
              if rb_size b =? 0 then None
              else match rb_data b with
                   | None => None
                   | Some d => Some {| mb_type := t; mb_data := d |}
                   end
          end) (hh_blocks handle).

Definition bytes_of_string (s : string) : list Z :=
  (fun a => Z.of_N (Ascii.N_of_ascii a)) <$> list_ascii_of_string s.

Definition JPEG_APP0 : Z := 224.

(** [preserve_metadata]: the markers written, in order *)
Definition preserve_metadata (blocks : list MetadataBlock)
    : list (Z * list Z) :=
  omap (fun b =>
          if String.eqb (mb_type b) "Exif"
          then Some (JPEG_APP0 + 1,
                     bytes_of_string "Exif" ++ [0; 0] ++ mb_data b)
          else if String.eqb (mb_type b) "XMP"
          then Some (JPEG_APP0 + 1,
                     bytes_of_string "http://ns.adobe.com/xap/1.0/" ++ [0]
                     ++ mb_data b)
          else if String.eqb (mb_type b) "IPTC"
          then Some (JPEG_APP0 + 13, mb_data b)
          else None) blocks.

(** the bytes of [plane] from offset [n] on, and its first [n] bytes *)
Fixpoint bytes_from (n : Z) (plane : list Z) : list Z :=
  match plane with
  | [] => []
  | _ :: rest => if 0 <? n then bytes_from (n - 1) rest else plane
  end.

Fixpoint bytes_upto (n : Z) (plane : list Z) : list Z :=
  match plane with
  | [] => []
  | b :: rest => if 0 <? n then b :: bytes_upto (n - 1) rest else []
  end.

(** the scanlines handed to [jpeg_write_scanlines]: row [i] starts at
    [planar_data + i * stride] and has three bytes per pixel *)
Definition scanlines (width height stride : Z) (plane : list Z)
    : list (list Z) :=
  (fun i : nat =>
     bytes_upto (3 * width) (bytes_from (Z.of_nat i * stride) plane))
    <$> seq 0 (Z.to_nat height).

(** ** [estimate_memory_requirement], called without a context *)
Definition estimate_memory_requirement (w : World) (image_path : string) : Z :=
  if negb (heif_alloc_ok (w_sys w)) then 0
  else match heif_context_read_from_file w image_path with
       | None => 0
       | Some None => 0
       | Some (Some handle) =>
           estimate_from_dimensions (hh_width handle) (hh_height handle)
       end.

(** ** [get_heif_dimensions] *)
Definition get_heif_dimensions (w : World) (image_path : string)
    : option (Z * Z) :=
  if negb (heif_alloc_ok (w_sys w)) then None
  else match heif_context_read_from_file w image_path with
       | None => None
       | Some None => None
       | Some (Some handle) => Some (hh_width handle, hh_height handle)
       end.

(** ** [convert_heif_to_jpeg]

    The function leaves through [return false;] at many places; its body is
    written in a small monad of world transformers with early return. *)

Module Early.

(** [inl b]: [return b;] was executed; [inr a]: execution goes on with [a] *)
Definition M (A : Type) : Type := World -> (bool + A) * World.

Definition pure {A} (a : A) : M A := fun w => (inr a, w).

Definition bind {A B} (m : M A) (k : A -> M B) : M B :=
  fun w => match m w with
           | (inl b, w') => (inl b, w')
           | (inr a, w') => k a w'
           end.

Definition return_ {A} (b : bool) : M A := fun w => (inl b, w).

Definition ask : M World := fun w => (inr w, w).

Definition update (f : World -> World) : M unit := fun w => (inr tt, f w).

Definition say (m : message) : M unit := update (thread_safe_print m).

Definition note (e : event) : M unit := update (record e).

(** the value the function returns *)
Definition run (m : M bool) (w : World) : bool * World :=
  match m w with
  | (inl b, w') => (b, w')
  | (inr b, w') => (b, w')
  end.

End Early.

#[global] Instance early_ret : MRet Early.M := @Early.pure.
#[global] Instance early_bind : MBind Early.M :=
  fun A B k m => Early.bind m k.

Section Convert.

Import Early.

Variables (heif_path jpeg_path : string).
Variables (quality max_width max_height max_memory_mb : Z).

(** lines 289-300 *)
Definition check_dimensions : M unit :=
  w ← ask;
  if (0 <? max_width) || (0 <? max_height)
  then match get_heif_dimensions w heif_path with
       | Some (width, height) =>
           if ((0 <? max_width) && (max_width <? width))
              || ((0 <? max_height) && (max_height <? height))
           then say (MsgDimensionsExceed width height max_width max_height) ;;
                return_ false
           else pure tt
       | None => pure tt
       end
  else pure tt.

(** lines 302-310 *)
Definition check_memory : M unit :=
  w ← ask;
  if 0 <? max_memory_mb
  then let estimated_mem := estimate_memory_requirement w heif_path in
       if max_memory_mb <? estimated_mem
       then say (MsgMemoryExceeds estimated_mem max_memory_mb) ;;
            return_ false
       else pure tt
  else pure tt.

(** lines 312-360: the decoded image, the plane and the metadata *)
Definition decode : M (heif_image * list Z * list MetadataBlock) :=
  w ← ask;
  (if heif_alloc_ok (w_sys w) then pure tt
   else say MsgAllocFailed ;; return_ false) ;;
  ctx ← match heif_context_read_from_file w heif_path with
         | None => say (MsgReadFailed heif_path) ;; return_ false
         | Some ctx => pure ctx
         end;
  handle ← match ctx with
            | None => say (MsgNoPrimaryHandle heif_path) ;; return_ false
            | Some handle => pure handle
            end;
  let metadata_blocks := extract_metadata handle in
  note (CallDecode heif_path) ;;
  img ← match hh_decode handle with
         | None => say (MsgDecodeFailed heif_path) ;; return_ false
         | Some img => pure img
         end;
  planar_data ← match hi_plane img with
                 | None => say (MsgNoPixelData heif_path) ;; return_ false
                 | Some d => pure d
                 end;
  pure (img, planar_data, metadata_blocks).

(** lines 362-371 *)
Definition make_output_dir : M unit :=
  w ← ask;
  let output_dir := Path.parent_path jpeg_path in
  if negb (String.eqb output_dir "") && negb (fs_exists w output_dir)
  then match create_directories (String.length output_dir) (w_sys w)
               (w_fs w) output_dir with
       | None => say (MsgMkdirFailed output_dir) ;; return_ false
       | Some fs' => update (set_fs fs') ;; say (MsgCreatedDir output_dir)
       end
  else pure tt.

(** lines 373-436 *)
Definition encode (img : heif_image) (planar_data : list Z)
    (metadata_blocks : list MetadataBlock) : M bool :=
  w ← ask;
  match fopen_wb (w_sys w) (w_fs w) jpeg_path with
  | None => say (MsgOpenFailed jpeg_path) ;; return_ false
  | Some fs' =>
      update (set_fs fs') ;;
      let width := hi_width img in
      let height := hi_height img in
      if jpeg_ok (w_sys w) jpeg_path width height quality
      then update (set_fs
             (put_content jpeg_path
                (Jpeg {| j_width := width;
                         j_height := height;
                         j_quality := quality;
                         j_markers := preserve_metadata metadata_blocks;
                         j_rows := scanlines width height (hi_stride img)
                                     planar_data |})
                fs')) ;;
           say (MsgSaved jpeg_path) ;;
           return_ true
      else say MsgJpegError ;; return_ false
  end.

(** lines 289-436 *)
Definition convert_steps : M bool :=
  check_dimensions ;;
  check_memory ;;
  '(img, planar_data, metadata_blocks) ← decode;
  make_output_dir ;;
  encode img planar_data metadata_blocks.

Definition convert_body : M bool :=
  note (CallConvert heif_path jpeg_path quality max_width max_height
          max_memory_mb) ;;
  say (MsgConverting heif_path jpeg_path) ;;
  convert_steps.

Definition convert_heif_to_jpeg (w : World) : bool * World :=
  run convert_body w.

End Convert.

(** ** Outcome counters: three [std::atomic<int>] *)

Record Counters := mk_counters {
  success_count : Z;
  fail_count : Z;
  skip_count : Z
}.

(** [operator++] of [std::atomic<int>] *)
Definition incr (n : Z) : Z := int_wrap (n + 1).

Definition incr_success (c : Counters) : Counters :=
  mk_counters (incr (success_count c)) (fail_count c) (skip_count c).
Definition incr_fail (c : Counters) : Counters :=
  mk_counters (success_count c) (incr (fail_count c)) (skip_count c).
Definition incr_skip (c : Counters) : Counters :=
  mk_counters (success_count c) (fail_count c) (incr (skip_count c)).

(** ** [process_file] *)

Definition recognized_extension (input : string) : bool :=
  let ext := Path.lowercase (Path.extension input) in
  String.eqb ext ".heic" || String.eqb ext ".heif".

(** the increment of the counter for outcome [o] *)
Definition bump (o : outcome) (c : Counters) : Counters :=
  match o with
  | succeeded => incr_success c
  | failed => incr_fail c
  | skipped => incr_skip c
  end.

Definition count (o : outcome) (w : World) (c : Counters)
    : World * Counters :=
  (record (Counted o) w, bump o c).

Definition process_file (input output : string) (quality : Z)
    (force_overwrite : bool) (max_width max_height max_memory_mb : Z)
    (w : World) (c : Counters) : World * Counters :=
  let w := record (CallProcessFile input output quality force_overwrite
                     max_width max_height max_memory_mb) w in
  if negb (fs_exists w input)
  then count failed (thread_safe_print (MsgInputNotFound input) w) c
  else if negb (is_regular_file w input)
  then count failed (thread_safe_print (MsgNotRegular input) w) c
  else if negb (recognized_extension input)
  then count skipped (thread_safe_print (MsgSkipNotHeif input) w) c
  else if fs_exists w output && negb force_overwrite
  then count skipped (thread_safe_print (MsgSkipExists output input) w) c
  else
    let '(ok, w') := convert_heif_to_jpeg input output quality max_width
                       max_height max_memory_mb w in
    if ok then count succeeded w' c else count failed w' c.

(** ** [std::priority_queue]

    The container is modelled by its contract: it holds a multiset of
    elements, [top] is an element that is not less than any other one under
    the comparison, and [pop] removes that element.  Among equivalent
    greatest elements the model takes the one nearest to the front; the
    standard leaves that choice open. *)

Section PriorityQueue.

Context {T : Type} (less : T -> T -> bool).

(** from candidate [best] and the elements [rest]: a greatest element and
    the other elements *)
Fixpoint extract_top (best : T) (rest : list T) : T * list T :=
  match rest with
  | [] => (best, [])
  | x :: rest' =>
      if less best x
      then let '(m, r) := extract_top x rest' in (m, best :: r)
      else let '(m, r) := extract_top best rest' in (m, x :: r)
  end.

Definition pq_empty (q : list T) : bool :=
  match q with [] => true | _ => false end.

Definition pq_push (x : T) (q : list T) : list T := x :: q.

Definition pq_top (q : list T) : option T :=
  match q with
  | [] => None
  | x :: rest => Some (fst (extract_top x rest))
  end.

Definition pq_pop (q : list T) : list T :=
  match q with
  | [] => []
  | x :: rest => snd (extract_top x rest)
  end.

End PriorityQueue.

(** ** [class BatchProcessor] *)

Record BatchProcessor := mk_processor {
  job_queue : list ImageJob;        (* std::priority_queue<ImageJob> *)
  counters : Counters;              (* success_count, fail_count, skip_count *)
  quality : Z;
  force_overwrite : bool;
  max_width : Z;
  max_height : Z;
  memory_per_thread_mb : Z;
  thread_count : Z
}.

(** the constructor; dividing by a zero [thread_count] is undefined *)
Definition BatchProcessor_new (quality : Z) (force_overwrite : bool)
    (max_width max_height memory_budget_mb thread_count : Z)
    : option BatchProcessor :=
  if thread_count =? 0 then None
  else Some {| job_queue := [];
               counters := mk_counters 0 0 0;
               quality := quality;
               force_overwrite := force_overwrite;
               max_width := max_width;
               max_height := max_height;
               memory_per_thread_mb :=
                 Z.max 100 (memory_budget_mb / thread_count);
               thread_count := thread_count |}.

Definition set_queue (q : list ImageJob) (bp : BatchProcessor)
    : BatchProcessor :=
  mk_processor q (counters bp) (quality bp) (force_overwrite bp)
    (max_width bp) (max_height bp) (memory_per_thread_mb bp)
    (thread_count bp).

Definition set_counters (c : Counters) (bp : BatchProcessor)
    : BatchProcessor :=
  mk_processor (job_queue bp) c (quality bp) (force_overwrite bp)
    (max_width bp) (max_height bp) (memory_per_thread_mb bp)
    (thread_count bp).

(** [add_job] *)
Definition add_job (w : World) (input output : string)
    (bp : BatchProcessor) : BatchProcessor :=
  let mem_req := estimate_memory_requirement w input in
  let job := mk_job input output mem_req in
  set_queue (pq_push job (job_queue bp)) bp.

(** the loop of [main] that adds one job per input, here from the pairs of
    input and output path *)
Definition add_jobs (w : World) (files : list (string * string))
    (bp : BatchProcessor) : BatchProcessor :=
  foldl (fun bp f => add_job w f.1 f.2 bp) bp files.

Definition get_success_count (bp : BatchProcessor) : Z :=
  success_count (counters bp).
Definition get_fail_count (bp : BatchProcessor) : Z :=
  fail_count (counters bp).
Definition get_skip_count (bp : BatchProcessor) : Z :=
  skip_count (counters bp).

(** ** The worker threads

    A thread is at the head of its loop, holds the job it has taken from the
    queue, or has returned.  Taking a job happens under [queue_mutex] and is
    one step; the rest of the loop body, which ends with the atomic
    increment of one counter inside [process_file], is the other step.  The
    threads interleave at these steps. *)

Inductive thread_state :=
| LoopHead
| Holding (current_job : ImageJob)
| Returned.

Record Machine := mk_machine {
  processor : BatchProcessor;
  world : World;
  pool : list thread_state
}.

(** lines 532-541 *)
Definition fetch (bp : BatchProcessor) (w : World)
    : thread_state * BatchProcessor * World :=
  if pq_empty (job_queue bp) then (Returned, bp, w)
  else match pq_top job_lt (job_queue bp) with
       | None => (Returned, bp, w)
       | Some current_job =>
           (Holding current_job,
            set_queue (pq_pop job_lt (job_queue bp)) bp,
            record (Dequeue current_job) w)
       end.

(** lines 543-559 *)
Definition handle_job (current_job : ImageJob) (bp : BatchProcessor)
    (w : World) : thread_state * BatchProcessor * World :=
  if memory_per_thread_mb bp <? estimated_memory_mb current_job
  then
    let w := thread_safe_print
               (MsgOverLimit (input_path current_job)
                  (estimated_memory_mb current_job)
                  (memory_per_thread_mb bp)) w in
    let '(w', c') :=
      process_file (input_path current_job) (output_path current_job)
        (quality bp) (force_overwrite bp) (max_width bp) (max_height bp)
        (memory_per_thread_mb bp) w (counters bp) in
    (LoopHead, set_counters c' bp, w')
  else
    let '(w', c') :=
      process_file (input_path current_job) (output_path current_job)
        (quality bp) (force_overwrite bp) (max_width bp) (max_height bp)
        (memory_per_thread_mb bp) w (counters bp) in
    (LoopHead, set_counters c' bp, w').

(** one step of [worker_thread] *)
Definition worker_thread (t : thread_state) (bp : BatchProcessor)
    (w : World) : option (thread_state * BatchProcessor * World) :=
  match t with
  | LoopHead => Some (fetch bp w)
  | Holding current_job => Some (handle_job current_job bp w)
  | Returned => None
  end.

(** thread [i] takes a step *)
Definition step (i : nat) (m : Machine) : option Machine :=
  match pool m !! i with
  | None => None
  | Some t =>
      match worker_thread t (processor m) (world m) with
      | None => None
      | Some (t', bp', w') => Some (mk_machine bp' w' (<[i := t']> (pool m)))
      end
  end.

Definition step_rel (m m' : Machine) : Prop := exists i, step i m = Some m'.

(** [process_all]: the threads are started ... *)
Definition start (bp : BatchProcessor) (w : World) : Machine :=
  mk_machine bp w (replicate (Z.to_nat (thread_count bp)) LoopHead).

(** ... and [join] returns for each of them once it has returned *)
Definition joined (m : Machine) : bool :=
  forallb (fun t => match t with Returned => true | _ => false end) (pool m).

(** a run under a schedule, the list of the threads that step in turn; a
    thread that has returned does not step *)
Fixpoint run_schedule (sched : list nat) (m : Machine) : Machine :=
  match sched with
  | [] => m
  | i :: sched' =>
      match step i m with
      | Some m' => run_schedule sched' m'
      | None => run_schedule sched' m
      end
  end.

(** the threads take turns until all have returned; [fuel] rounds *)
Fixpoint round_robin (fuel : nat) (m : Machine) : Machine :=
  match fuel with
  | O => m
  | S k =>
      if joined m then m
      else round_robin k (run_schedule (seq 0 (length (pool m))) m)
  end.

(** [process_all] under the round-robin schedule *)
Definition process_all (bp : BatchProcessor) (w : World) : Machine :=
  round_robin (2 * length (job_queue bp) + Z.to_nat (thread_count bp))
    (start bp w).

(** the jobs in the order in which they were taken from the queue *)
Definition dequeue_of (e : event) : option ImageJob :=
  match e with Dequeue j => Some j | _ => None end.

Definition dequeued (w : World) : list ImageJob :=
  omap dequeue_of (reverse (w_log w)).

(** ** The end of [main]: the exit status after [process_all] *)
Definition exit_status (bp : BatchProcessor) : Z :=
  if 0 <? get_fail_count bp then 1 else 0.

(** ** [change_extension] *)
Definition change_extension (input_path new_extension : string) : string :=
  let final_extension :=
    match new_extension with
    | EmptyString => new_extension
    | String a _ =>
        if Ascii.eqb a "." then new_extension else String "." new_extension
    end in
  Path.append (Path.parent_path input_path)
    (String.append (Path.stem input_path) final_extension).

(** ** [std::stoi] and [std::stoul]

    Both go through [strtol] and [strtoul] in base 10: white space is
    skipped, a sign is optional, the longest run of digits is the number,
    and what follows it is ignored. *)

Module Number.

(** [isspace] in the "C" locale *)
Definition isspace (c : ascii) : bool :=
  let n := Ascii.N_of_ascii c in
  ((n =? 32) || ((9 <=? n) && (n <=? 13)))%N.

Definition digit (c : ascii) : option Z :=
  let n := Ascii.N_of_ascii c in
  if ((48 <=? n) && (n <=? 57))%N then Some (Z.of_N n - 48) else None.

Fixpoint skip_space (s : string) : string :=
  match s with
  | EmptyString => s
  | String c r => if isspace c then skip_space r else s
  end.

(** the number that the digits at the front of [s] continue from [acc] *)
Fixpoint digits (acc : Z) (s : string) : Z :=
  match s with
  | EmptyString => acc
  | String c r =>
      match digit c with
      | Some d => digits (acc * 10 + d) r
      | None => acc
      end
  end.

Definition starts_with_digit (s : string) : bool :=
  match s with
  | EmptyString => false
  | String c _ => match digit c with Some _ => true | None => false end
  end.

(** the subject sequence: whether it has a minus sign, and its magnitude;
    [None] when there is no digit to convert *)
Definition subject (s : string) : option (bool * Z) :=
  let s := skip_space s in
  let '(negative, s) :=
    match s with
    | String c r =>
        if Ascii.eqb c "-" then (true, r)
        else if Ascii.eqb c "+" then (false, r)
        else (false, s)
    | EmptyString => (false, s)
    end in
  if starts_with_digit s then Some (negative, digits 0 s) else None.

(** the number, or the exception thrown *)
Inductive converted :=
| invalid_argument
| out_of_range
| number (n : Z).

(** [std::stoi]: [out_of_range] outside of [int] *)
Definition stoi (s : string) : converted :=
  match subject s with
  | None => invalid_argument
  | Some (negative, magnitude) =>
      let n := if negative then - magnitude else magnitude in
      if (INT_MIN <=? n) && (n <=? INT_MAX) then number n else out_of_range
  end.

(** [std::stoul]: [out_of_range] when the magnitude does not fit
    [unsigned long]; a minus sign negates in [unsigned long] *)
Definition stoul (s : string) : converted :=
  match subject s with
  | None => invalid_argument
  | Some (negative, magnitude) =>
      if magnitude <? SIZE_MOD
      then number (if negative then to_size_t (- magnitude) else magnitude)
      else out_of_range
  end.

End Number.

(** ** The machine [main] runs on *)

(** What the platform reports.  The two [sysctlbyname] fields hold the
    [int] read when the call returns 0; a build without [__APPLE__] makes
    neither call, which is the case of both being [None], and leaves
    [4 * 1024^3] bytes in [available_memory]. *)
Record Host := {
  hardware_concurrency : Z;            (* std::thread::hardware_concurrency() *)
  perflevel0_physicalcpu : option Z;   (* "hw.perflevel0.physicalcpu" *)
  physicalcpu : option Z;              (* "hw.physicalcpu" *)
  available_memory : Z                 (* bytes, after lines 193-208 *)
}.

(** conversion to [unsigned int] *)
Definition to_unsigned (z : Z) : Z := z mod 2 ^ 32.

(** the lines [main] and [get_performance_core_count] write to the
    console, outside of the batch *)
Inductive main_line :=
| LineDetectedCores (performance_cores : Z)
| LineHalfOfPhysical (performance_cores perf_cores : Z)
| LineDefaultThreads (performance_cores : Z)
| ErrQualityRange (value : string)
| ErrQualityFormat (value : string)
| ErrQualityOutOfRange (value : string)
| ErrQualityMissing
| ErrOutdirMissing
| ErrMaxWidthNegative (value : string)
| ErrMaxWidthFormat (value : string)
| ErrMaxWidthMissing
| ErrMaxHeightNegative (value : string)
| ErrMaxHeightFormat (value : string)
| ErrMaxHeightMissing
| ErrMemoryTooSmall (value : string)
| ErrMemoryFormat (value : string)
| ErrMemoryMissing
| LineUsage (argv0 : string)
| ErrCreateOutdir (output_directory : string)
| LineCreatedOutdir (output_directory : string)
| LineAutoBudget (memory_budget_mb available_mem : Z)
| LineUserBudget (memory_budget_mb : Z)
| LineMaxDimensions (max_width max_height : Z)
| LineStarting (max_threads : Z)
| LineSummary (success skip fail max_threads memory_budget_mb : Z).

(** [get_available_memory_mb] *)
Definition get_available_memory_mb (host : Host) : Z :=
  available_memory host / (1024 * 1024).

(** [get_performance_core_count]: the count and the line printed *)
Definition get_performance_core_count (host : Host) : Z * list main_line :=
  let from_physicalcpu :=
    match physicalcpu host with
    | Some perf_cores =>
        if 0 <? perf_cores
        then let n := to_unsigned (Z.quot (int_wrap (perf_cores + 1)) 2) in
             (n, [LineHalfOfPhysical n perf_cores])
        else (0, [])
    | None => (0, [])
    end in
  let '(performance_cores, lines) :=
    match perflevel0_physicalcpu host with
    | Some perf_cores =>
        if 0 <? perf_cores
        then (to_unsigned perf_cores,
              [LineDetectedCores (to_unsigned perf_cores)])
        else from_physicalcpu
    | None => from_physicalcpu
    end in
  if performance_cores =? 0
  then let n := Z.max 2 (hardware_concurrency host / 2) in
       (n, lines ++ [LineDefaultThreads n])
  else (performance_cores, lines).

(** ** [main]: the arguments *)

Module Main.

(** the local variables of [main] that the argument loop sets *)
Record Locals := mk_locals {
  quality : Z;
  force_overwrite : bool;
  input_filenames : list string;
  output_directory : string;
  max_width : Z;
  max_height : Z;
  memory_budget_mb : Z;
  auto_memory_budget : bool;
  show_help : bool
}.

(** lines 605-615 *)
Definition initial : Locals :=
  {| quality := 95;
     force_overwrite := false;
     input_filenames := [];
     output_directory := "";
     max_width := 0;
     max_height := 0;
     memory_budget_mb := 0;
     auto_memory_budget := true;
     show_help := false |}.

Definition is_one_of (arg : string) (names : list string) : bool :=
  existsb (String.eqb arg) names.

(** lines 621-730: the loop over [argv[1]], [argv[2]], ...; [inl] is the
    line printed before [return 1;] *)
Fixpoint parse_args (args : list string) (v : Locals)
    : main_line + Locals :=
  match args with
  | [] => inr v
  | arg :: rest =>
      if is_one_of arg ["-h"; "--help"]
      then inr (mk_locals (quality v) (force_overwrite v)
                  (input_filenames v) (output_directory v) (max_width v)
                  (max_height v) (memory_budget_mb v)
                  (auto_memory_budget v) true)
      else if is_one_of arg ["-q"; "--quality"; "-quality"]
      then match rest with
           | value :: rest' =>
               match Number.stoi value with
               | Number.number parsed_quality =>
                   if (1 <=? parsed_quality) && (parsed_quality <=? 100)
                   then parse_args rest'
                          (mk_locals parsed_quality (force_overwrite v)
                             (input_filenames v) (output_directory v)
                             (max_width v) (max_height v)
                             (memory_budget_mb v) (auto_memory_budget v)
                             (show_help v))
                   else inl (ErrQualityRange value)
               | Number.invalid_argument => inl (ErrQualityFormat value)
               | Number.out_of_range => inl (ErrQualityOutOfRange value)
               end
           | [] => inl ErrQualityMissing
           end
      else if is_one_of arg ["-f"; "--force"; "-force"]
      then parse_args rest
             (mk_locals (quality v) true (input_filenames v)
                (output_directory v) (max_width v) (max_height v)
                (memory_budget_mb v) (auto_memory_budget v) (show_help v))
      else if is_one_of arg ["-o"; "--outdir"; "-outdir"]
      then match rest with
           | value :: rest' =>
               parse_args rest'
                 (mk_locals (quality v) (force_overwrite v)
                    (input_filenames v) value (max_width v) (max_height v)
                    (memory_budget_mb v) (auto_memory_budget v)
                    (show_help v))
           | [] => inl ErrOutdirMissing
           end
      else if is_one_of arg ["-w"; "--maxwidth"; "-maxwidth"]
      then match rest with
           | value :: rest' =>
               match Number.stoi value with
               | Number.number parsed =>
                   if parsed <? 0 then inl (ErrMaxWidthNegative value)
                   else parse_args rest'
                          (mk_locals (quality v) (force_overwrite v)
                             (input_filenames v) (output_directory v)
                             parsed (max_height v) (memory_budget_mb v)
                             (auto_memory_budget v) (show_help v))
               | _ => inl (ErrMaxWidthFormat value)
               end
           | [] => inl ErrMaxWidthMissing
           end
      else if is_one_of arg ["-ht"; "--maxheight"; "-maxheight"]
      then match rest with
           | value :: rest' =>
               match Number.stoi value with
               | Number.number parsed =>
                   if parsed <? 0 then inl (ErrMaxHeightNegative value)
                   else parse_args rest'
                          (mk_locals (quality v) (force_overwrite v)
                             (input_filenames v) (output_directory v)
                             (max_width v) parsed (memory_budget_mb v)
                             (auto_memory_budget v) (show_help v))
               | _ => inl (ErrMaxHeightFormat value)
               end
           | [] => inl ErrMaxHeightMissing
           end
      else if is_one_of arg ["-m"; "--memory"; "-memory"]
      then match rest with
           | value :: rest' =>
               match Number.stoul value with
               | Number.number parsed =>
                   if parsed <? 100 then inl (ErrMemoryTooSmall value)
                   else parse_args rest'
                          (mk_locals (quality v) (force_overwrite v)
                             (input_filenames v) (output_directory v)
                             (max_width v) (max_height v) parsed false
                             (show_help v))
               | _ => inl (ErrMemoryFormat value)
               end
           | [] => inl ErrMemoryMissing
           end
      else parse_args rest
             (mk_locals (quality v) (force_overwrite v)
                (input_filenames v ++ [arg]) (output_directory v)
                (max_width v) (max_height v) (memory_budget_mb v)
                (auto_memory_budget v) (show_help v))
  end.

(** lines 779-788: the input and the output path of the job for an input *)
Definition job_paths (output_directory input_filename : string)
    : string * string :=
  (input_filename,
   if String.eqb output_directory ""
   then change_extension input_filename ".jpg"
   else Path.append output_directory
          (change_extension (Path.filename input_filename) ".jpg")).

End Main.

(** * The program with [fs::filesystem_error]

    [fs::exists] and [fs::is_regular_file] are called through their
    throwing overloads (lines 364, 444, 449, 465 and 749): where [stat]
    fails on the path with an error other than "no such file or directory"
    (a name that is too long, a directory that may not be searched), they
    throw [fs::filesystem_error].  Nothing catches it: thrown inside a
    worker thread or inside [main] it ends in [std::terminate], and the
    process is gone.

    The definitions above are the program where the status of every path
    can be read.  The ones of this module have the source's names again and
    take the paths whose status cannot be read as [stat_fails]. *)

Module Throwing.

(** how a call ends: it returns, or the exception leaves it in world [w] *)
Inductive completion (A : Type) :=
| Normal (a : A)
| Thrown (w : World).

Arguments Normal {A} a.
Arguments Thrown {A} w.

(** the process: running, or ended by [std::terminate] in world [w] *)
Inductive process :=
| Alive (m : Machine)
| Terminated (w : World).

(** how the part of [main] before [process_all] ends: with [return], with
    the processor, the budget and the thread count it goes on with, or with
    the exception.  [Undefined] stands for the division by zero in the
    constructor. *)
Inductive setup :=
| Exit (status : Z)
| Batch (bp : BatchProcessor) (memory_budget_mb max_threads : Z)
| Abort
| Undefined.

(** how [main] ends *)
Inductive exit :=
| Returns (status : Z)
| Aborts
| Undefined_behaviour.

Section Status.

(** the paths on which [stat] fails with an error other than "no such file
    or directory" *)
Variable stat_fails : string -> bool.

(** [fs::exists(p)]; [None]: it throws *)
Definition fs_exists (w : World) (p : string) : option bool :=
  if stat_fails p then None else Some (fs_exists w p).

(** [fs::is_regular_file(p)]; [None]: it throws *)
Definition is_regular_file (w : World) (p : string) : option bool :=
  if stat_fails p then None else Some (is_regular_file w p).

(** [convert_heif_to_jpeg]: lines 285-360, the test of line 364, then
    lines 364-436 *)
Definition convert_heif_to_jpeg (heif_path jpeg_path : string)
    (quality max_width max_height max_memory_mb : Z) (w : World)
    : completion (bool * World) :=
  let w := thread_safe_print (MsgConverting heif_path jpeg_path)
             (record (CallConvert heif_path jpeg_path quality max_width
                        max_height max_memory_mb) w) in
  match (check_dimensions heif_path max_width max_height ;;
         check_memory heif_path max_memory_mb ;;
         decode heif_path) w with
  | (inl b, w) => Normal (b, w)
  | (inr (img, planar_data, metadata_blocks), w) =>
      let output_dir := Path.parent_path jpeg_path in
      let throws :=
        if String.eqb output_dir "" then false
        else match fs_exists w output_dir with
             | None => true
             | Some _ => false
             end in
      if throws then Thrown w
      else Normal (Early.run
                     (make_output_dir jpeg_path ;;
                      encode jpeg_path quality img planar_data
                        metadata_blocks) w)
  end.

(** [process_file] *)
Definition process_file (input output : string) (quality : Z)
    (force_overwrite : bool) (max_width max_height max_memory_mb : Z)
    (w : World) (c : Counters) : completion (World * Counters) :=
  let w := record (CallProcessFile input output quality force_overwrite
                     max_width max_height max_memory_mb) w in
  match fs_exists w input with
  | None => Thrown w
  | Some false =>
      Normal (count failed (thread_safe_print (MsgInputNotFound input) w) c)
  | Some true =>
      match is_regular_file w input with
      | None => Thrown w
      | Some false =>
          Normal (count failed
                    (thread_safe_print (MsgNotRegular input) w) c)
      | Some true =>
          if negb (recognized_extension input)
          then Normal (count skipped
                         (thread_safe_print (MsgSkipNotHeif input) w) c)
          else
            match fs_exists w output with
            | None => Thrown w
            | Some output_exists =>
                if output_exists && negb force_overwrite
                then Normal (count skipped
                               (thread_safe_print
                                  (MsgSkipExists output input) w) c)
                else
                  match convert_heif_to_jpeg input output quality
                          max_width max_height max_memory_mb w with
                  | Thrown w' => Thrown w'
                  | Normal (ok, w') =>
                      Normal (if ok then count succeeded w' c
                              else count failed w' c)
                  end
            end
      end
  end.

(** lines 543-559 *)
Definition handle_job (current_job : ImageJob) (bp : BatchProcessor)
    (w : World) : completion (thread_state * BatchProcessor * World) :=
  if memory_per_thread_mb bp <? estimated_memory_mb current_job
  then
    let w := thread_safe_print
               (MsgOverLimit (input_path current_job)
                  (estimated_memory_mb current_job)
                  (memory_per_thread_mb bp)) w in
    match process_file (input_path current_job) (output_path current_job)
            (quality bp) (force_overwrite bp) (max_width bp)
            (max_height bp) (memory_per_thread_mb bp) w (counters bp) with
    | Normal (w', c') => Normal (LoopHead, set_counters c' bp, w')
    | Thrown w' => Thrown w'
    end
  else
    match process_file (input_path current_job) (output_path current_job)
            (quality bp) (force_overwrite bp) (max_width bp)
            (max_height bp) (memory_per_thread_mb bp) w (counters bp) with
    | Normal (w', c') => Normal (LoopHead, set_counters c' bp, w')
    | Thrown w' => Thrown w'
    end.

(** one step of [worker_thread] *)
Definition worker_thread (t : thread_state) (bp : BatchProcessor)
    (w : World)
    : option (completion (thread_state * BatchProcessor * World)) :=
  match t with
  | LoopHead => Some (Normal (fetch bp w))
  | Holding current_job => Some (handle_job current_job bp w)
  | Returned => None
  end.

(** thread [i] takes a step; an exception that leaves the thread ends the
    process *)
Definition step (i : nat) (p : process) : option process :=
  match p with
  | Terminated _ => None
  | Alive m =>
      match pool m !! i with
      | None => None
      | Some t =>
          match worker_thread t (processor m) (world m) with
          | None => None
          | Some (Normal (t', bp', w')) =>
              Some (Alive (mk_machine bp' w' (<[i := t']> (pool m))))
          | Some (Thrown w') => Some (Terminated w')
          end
      end
  end.

Definition step_rel (p p' : process) : Prop := exists i, step i p = Some p'.

(** the threads of [sched] step in turn; one that cannot step is passed
    over *)
Fixpoint run_schedule (sched : list nat) (p : process) : process :=
  match sched with
  | [] => p
  | i :: sched' =>
      match step i p with
      | Some p' => run_schedule sched' p'
      | None => run_schedule sched' p
      end
  end.

(** the threads take turns until all have returned; [fuel] rounds *)
Fixpoint round_robin (fuel : nat) (p : process) : process :=
  match fuel, p with
  | S k, Alive m =>
      if joined m then p
      else round_robin k (run_schedule (seq 0 (length (pool m))) p)
  | _, _ => p
  end.

(** [process_all]: the threads are started, step as [sched] says, and then
    take turns until [join] has returned for each of them *)
Definition process_all (bp : BatchProcessor) (w : World) (sched : list nat)
    : process :=
  round_robin (2 * length (job_queue bp) + Z.to_nat (thread_count bp))
    (run_schedule sched (Alive (start bp w))).

(** [main], lines 604-794; the lines are in the order in which they are
    printed *)
Definition main_setup (host : Host) (argv : list string) (w : World)
    : list main_line * World * setup :=
  let '(max_threads, lines) := get_performance_core_count host in
  match Main.parse_args (tail argv) Main.initial with
  | inl line => (lines ++ [line], w, Exit 1)
  | inr v =>
      if Main.show_help v || bool_decide (Main.input_filenames v = [])
      then (lines ++ [LineUsage (hd ""%string argv)], w,
            Exit (if Main.show_help v then 0 else 1))
      else
        let output_directory := Main.output_directory v in
        let output_directory_exists :=
          if String.eqb output_directory "" then Some true
          else fs_exists w output_directory in
        match output_directory_exists with
        | None => (lines, w, Abort)
        | Some output_directory_exists =>
            let made :=
              if negb (String.eqb output_directory "")
                 && negb output_directory_exists
              then match create_directories
                           (String.length output_directory) (w_sys w)
                           (w_fs w) output_directory with
                   | None => inl (ErrCreateOutdir output_directory)
                   | Some fs' =>
                       inr (set_fs fs' w,
                            [LineCreatedOutdir output_directory])
                   end
              else inr (w, []) in
            match made with
            | inl line => (lines ++ [line], w, Exit 1)
            | inr (w, lines_made) =>
                let '(memory_budget_mb, line_budget) :=
                  if Main.auto_memory_budget v
                  then let available_mem := get_available_memory_mb host in
                       let memory_budget_mb :=
                         to_size_t (available_mem * 3) / 4 in
                       (memory_budget_mb,
                        LineAutoBudget memory_budget_mb available_mem)
                  else (Main.memory_budget_mb v,
                        LineUserBudget (Main.memory_budget_mb v)) in
                let lines_dimensions :=
                  if (0 <? Main.max_width v) || (0 <? Main.max_height v)
                  then [LineMaxDimensions (Main.max_width v)
                          (Main.max_height v)]
                  else [] in
                let lines := lines ++ lines_made ++ [line_budget]
                             ++ lines_dimensions in
                match BatchProcessor_new (Main.quality v)
                        (Main.force_overwrite v) (Main.max_width v)
                        (Main.max_height v) memory_budget_mb
                        max_threads with
                | None => (lines, w, Undefined)
                | Some bp =>
                    (lines ++ [LineStarting max_threads], w,
                     Batch
                       (add_jobs w
                          (Main.job_paths output_directory
                             <$> Main.input_filenames v) bp)
                       memory_budget_mb max_threads)
                end
            end
        end
  end.

(** [main]: the lines it prints, the world it leaves and how it ends, where
    the threads of [process_all] step as [sched] says *)
Definition main (host : Host) (argv : list string) (w : World)
    (sched : list nat) : list main_line * World * exit :=
  match main_setup host argv w with
  | (lines, w, Exit status) => (lines, w, Returns status)
  | (lines, w, Abort) => (lines, w, Aborts)
  | (lines, w, Undefined) => (lines, w, Undefined_behaviour)
  | (lines, w, Batch bp memory_budget_mb max_threads) =>
      match process_all bp w sched with
      | Terminated w' => (lines, w', Aborts)
      | Alive final =>
          (lines ++ [LineSummary (get_success_count (processor final))
                       (get_skip_count (processor final))
                       (get_fail_count (processor final))
                       max_threads memory_budget_mb],
           world final,
           Returns (exit_status (processor final)))
      end
  end.

End Status.

End Throwing.

(** ** Vocabulary of the properties *)

(** the events written inside [convert_heif_to_jpeg] *)
Definition minor (e : event) : Prop :=
  match e with
  | Console _ | CallConvert _ _ _ _ _ _ | CallDecode _ => True
  | _ => False
  end.

(** the events written after the entry of [convert_heif_to_jpeg] *)
Definition quiet (e : event) : Prop :=
  match e with
  | Console _ | CallDecode _ => True
  | _ => False
  end.

(** [w'] comes from [w] by events in [P] and changes of files *)
Definition extends (P : event -> Prop) (w w' : World) : Prop :=
  exists evs, w_log w' = evs ++ w_log w /\ Forall P evs
              /\ w_sys w' = w_sys w.

(** a computation that only adds events in [P] *)
Definition tame {A} (P : event -> Prop) (m : Early.M A) : Prop :=
  forall w, extends P w (m w).2.

(** the checks of [process_file] before the conversion all pass *)
Definition reaches_conversion (w : World) (input output : string)
    (force_overwrite : bool) : bool :=
  fs_exists w input && is_regular_file w input
  && recognized_extension input
  && negb (fs_exists w output && negb force_overwrite).

(** the test of lines 290-293 *)
Definition dimensions_exceed (w : World) (heif_path : string)
    (max_width max_height : Z) : bool :=
  ((0 <? max_width) || (0 <? max_height))
  && match get_heif_dimensions w heif_path with
     | Some (width, height) =>
         ((0 <? max_width) && (max_width <? width))
         || ((0 <? max_height) && (max_height <? height))
     | None => false
     end.

(** the test of lines 303-305 *)
Definition memory_exceeds (w : World) (heif_path : string)
    (max_memory_mb : Z) : bool :=
  (0 <? max_memory_mb)
  && (max_memory_mb <? estimate_memory_requirement w heif_path).

(** lines to the console only *)
Definition printed (e : event) : Prop :=
  match e with Console _ => True | _ => False end.

(** what makes a conversion fail *)
Inductive conversion_problem (w : World) (heif_path jpeg_path : string)
    (quality max_width max_height max_memory_mb : Z) : Prop :=
| dimension_limit_exceeded :
    dimensions_exceed w heif_path max_width max_height = true ->
    conversion_problem w heif_path jpeg_path quality max_width max_height
      max_memory_mb
| memory_limit_exceeded :
    memory_exceeds w heif_path max_memory_mb = true ->
    conversion_problem w heif_path jpeg_path quality max_width max_height
      max_memory_mb
| context_not_allocated :
    heif_alloc_ok (w_sys w) = false ->
    conversion_problem w heif_path jpeg_path quality max_width max_height
      max_memory_mb
| file_not_read :
    heif_context_read_from_file w heif_path = None ->
    conversion_problem w heif_path jpeg_path quality max_width max_height
      max_memory_mb
| no_primary_image :
    heif_context_read_from_file w heif_path = Some None ->
    conversion_problem w heif_path jpeg_path quality max_width max_height
      max_memory_mb
| decode_error handle :
    heif_context_read_from_file w heif_path = Some (Some handle) ->
    hh_decode handle = None ->
    conversion_problem w heif_path jpeg_path quality max_width max_height
      max_memory_mb
| no_pixel_data handle img :
    heif_context_read_from_file w heif_path = Some (Some handle) ->
    hh_decode handle = Some img ->
    hi_plane img = None ->
    conversion_problem w heif_path jpeg_path quality max_width max_height
      max_memory_mb
| directory_not_created :
    Path.parent_path jpeg_path <> ""%string ->
    fs_exists w (Path.parent_path jpeg_path) = false ->
    create_directories (String.length (Path.parent_path jpeg_path))
      (w_sys w) (w_fs w) (Path.parent_path jpeg_path) = None ->
    conversion_problem w heif_path jpeg_path quality max_width max_height
      max_memory_mb
| output_not_opened :
    can_open (w_sys w) jpeg_path = false ->
    conversion_problem w heif_path jpeg_path quality max_width max_height
      max_memory_mb
| encode_error handle img :
    heif_context_read_from_file w heif_path = Some (Some handle) ->
    hh_decode handle = Some img ->
    jpeg_ok (w_sys w) jpeg_path (hi_width img) (hi_height img) quality
    = false ->
    conversion_problem w heif_path jpeg_path quality max_width max_height
      max_memory_mb.

(** every file of [w], except possibly [x], is in [w'] as it was *)
Definition keeps (x : option string) (w w' : World) : Prop :=
  forall q n, Some q <> x -> w_fs w !! q = Some n -> w_fs w' !! q = Some n.

(** the calls of [convert_heif_to_jpeg] among events *)
Definition convert_event (e : event) : option event :=
  match e with
  | CallConvert _ _ _ _ _ _ => Some e
  | _ => None
  end.

Definition cost_le (a b : ImageJob) : Prop :=
  estimated_memory_mb a <= estimated_memory_mb b.

Definition cost_lt (a b : ImageJob) : Prop :=
  estimated_memory_mb a < estimated_memory_mb b.

(** the warning a worker of [bp] prints for job [j] *)
Definition over_limit_warning (bp : BatchProcessor) (j : ImageJob)
    : list event :=
  if memory_per_thread_mb bp <? estimated_memory_mb j
  then [Console (MsgOverLimit (input_path j) (estimated_memory_mb j)
                 (memory_per_thread_mb bp))]
  else [].

(** the jobs that [add_jobs] makes from the pairs of paths *)
Definition jobs_of (w : World) (files : list (string * string))
    : list ImageJob :=
  (fun f => mk_job f.1 f.2 (estimate_memory_requirement w f.1)) <$> files.

#[global] Instance outcome_eq_dec : EqDecision outcome.
Proof. solve_decision. Defined.

(** how many of the outcomes [os] are [o] *)
Definition tally (o : outcome) (os : list outcome) : Z :=
  Z.of_nat (length (filter (fun o' => o' = o) os)).

(** the world in which a worker of [bp] calls [process_file] for job [j]:
    the warning, if any, has been printed *)
Definition warned (bp : BatchProcessor) (j : ImageJob) (w : World) : World :=
  mk_world (w_fs w) (w_sys w) (over_limit_warning bp j ++ w_log w).

(** the call of [process_file] that a worker of [bp] makes for job [j] *)
Definition call_of (bp : BatchProcessor) (j : ImageJob) : event :=
  CallProcessFile (input_path j) (output_path j) (quality bp)
    (force_overwrite bp) (max_width bp) (max_height bp)
    (memory_per_thread_mb bp).

Definition call_event (e : event) : option event :=
  match e with
  | CallProcessFile _ _ _ _ _ _ _ => Some e
  | _ => None
  end.

Definition counted_of (e : event) : option outcome :=
  match e with Counted o => Some o | _ => None end.

(** the job a thread holds *)
Definition held (t : thread_state) : option ImageJob :=
  match t with Holding j => Some j | _ => None end.

(** the fields of a processor that are set once, by the constructor *)
Definition same_config (a b : BatchProcessor) : Prop :=
  quality a = quality b /\ force_overwrite a = force_overwrite b
  /\ max_width a = max_width b /\ max_height a = max_height b
  /\ memory_per_thread_mb a = memory_per_thread_mb b
  /\ thread_count a = thread_count b.

(** the steps a thread has left before it can hold nothing more *)
Definition alive (t : thread_state) : nat :=
  match t with Returned => 0 | LoopHead => 1 | Holding _ => 2 end.

(** the number of steps the machine has left *)
Definition work (m : Machine) : nat :=
  2 * length (job_queue (processor m)) + sum_list_with alive (pool m).

(** What holds of every state [m] of a run that started from processor
    [bp0], where [evs] are the events logged since, newest first. *)
Record invariant (bp0 : BatchProcessor) (evs : list event) (m : Machine)
    : Prop := {
  inv_config : same_config (processor m) bp0;
  inv_pool : length (pool m) = Z.to_nat (thread_count bp0);
  inv_queue :
    omap dequeue_of evs ++ job_queue (processor m) ≡ₚ job_queue bp0;
  inv_sorted : StronglySorted (flip cost_le) (omap dequeue_of evs);
  inv_ahead :
    forall d k, d ∈ omap dequeue_of evs -> k ∈ job_queue (processor m) ->
                cost_le d k;
  inv_calls :
    omap call_event evs ++ (call_of bp0 <$> omap held (pool m))
    ≡ₚ call_of bp0 <$> omap dequeue_of evs;
  inv_counters :
    counters (processor m) = foldr bump (counters bp0) (omap counted_of evs);
  inv_counted :
    length (omap counted_of evs) = length (omap call_event evs);
  inv_returned : Returned ∈ pool m -> job_queue (processor m) = []
}.

(** the files after lines 362-371, unless the directory cannot be made *)
Definition output_dir_made (w : World) (jpeg_path : string)
    : option (gmap string node) :=
  let output_dir := Path.parent_path jpeg_path in
  if negb (String.eqb output_dir "") && negb (fs_exists w output_dir)
  then create_directories (String.length output_dir) (w_sys w) (w_fs w)
         output_dir
  else Some (w_fs w).

(** the image is decoded: the limits are kept and libheif gives the plane *)
Definition decoded_as (heif_path : string)
    (max_width max_height max_memory_mb : Z) (w : World)
    (handle : heif_handle) (img : heif_image) (plane : list Z) : Prop :=
  dimensions_exceed w heif_path max_width max_height = false
  /\ memory_exceeds w heif_path max_memory_mb = false
  /\ heif_alloc_ok (w_sys w) = true
  /\ heif_context_read_from_file w heif_path = Some (Some handle)
  /\ hh_decode handle = Some img
  /\ hi_plane img = Some plane.

(** the world of a process *)
Definition process_world (p : Throwing.process) : World :=
  match p with
  | Throwing.Alive m => world m
  | Throwing.Terminated w => w
  end.

(** the arguments that the loop of [main] takes as options *)
Definition option_names : list string :=
  ["-h"; "--help"; "-q"; "--quality"; "-quality"; "-f"; "--force"; "-force";
   "-o"; "--outdir"; "-outdir"; "-w"; "--maxwidth"; "-maxwidth"; "-ht";
   "--maxheight"; "-maxheight"; "-m"; "--memory"; "-memory"]%string.

(** the numbers that the argument loop of [main] has accepted *)
Definition valid_locals (v : Main.Locals) : Prop :=
  1 <= Main.quality v <= 100
  /\ 0 <= Main.max_width v <= INT_MAX
  /\ 0 <= Main.max_height v <= INT_MAX
  /\ (Main.auto_memory_budget v = false ->
      100 <= Main.memory_budget_mb v < SIZE_MOD).

(** ** A sample directory

    The inputs at which the properties are instantiated. *)

Module Sample.

Local Open Scope string_scope.

(** an environment in which no call fails *)
Definition sys_ok : Sys :=
  {| heif_alloc_ok := true;
     can_mkdir := fun _ => true;
     can_open := fun _ => true;
     jpeg_ok := fun _ _ _ _ => true |}.

(** a HEIF file whose primary image is [width] by [height] and decodes to a
    blank image *)
Definition heif (width height : Z) : node :=
  {| ntype := regular;
     ncontent :=
       Heif (Some {| hh_width := width;
                     hh_height := height;
                     hh_blocks := [];
                     hh_decode :=
                       Some {| hi_width := width;
                               hi_height := height;
                               hi_stride := 3 * width;
                               hi_plane := Some [] |} |}) |}.

Definition plain : node := {| ntype := regular; ncontent := Other |}.

Definition files : gmap string node :=
  <["small.heic" := heif 100 100]>
  (<["mid.HEIF" := heif 3000 2000]>
  (<["big.heic" := heif 8000 6000]>
  (<["huge.heic" := heif 24000 24000]>
  (<["done.heic" := heif 8000 6000]>
  (<["done.jpg" := plain]>
  (<["gone.jpg" := plain]> ∅)))))).

Definition disk : World := mk_world files sys_ok [].

(** a processor as [main] makes it: quality 95, no overwriting, no limits
    on the dimensions *)
Definition batch (memory_budget_mb thread_count : Z)
    (inputs : list (string * string)) : option BatchProcessor :=
  add_jobs disk inputs
    <$> BatchProcessor_new 95 false 0 0 memory_budget_mb thread_count.

(** the three jobs of the scenario of the specification, with the
    estimates 50, 400 and 120 *)
Definition three_jobs : BatchProcessor :=
  {| job_queue := [mk_job "c.heic" "c.jpg" 120;
                   mk_job "b.heic" "b.jpg" 400;
                   mk_job "a.heic" "a.jpg" 50];
     counters := mk_counters 0 0 0;
     quality := 95;
     force_overwrite := false;
     max_width := 0;
     max_height := 0;
     memory_per_thread_mb := 1000;
     thread_count := 1 |}.

(** a processor whose threads have the smallest ceiling, 100 MB *)
Definition tight : BatchProcessor :=
  {| job_queue := [];
     counters := mk_counters 0 0 0;
     quality := 95;
     force_overwrite := false;
     max_width := 0;
     max_height := 0;
     memory_per_thread_mb := 100;
     thread_count := 4 |}.

(** the job for "big.heic", whose estimate is 496 MB *)
Definition big_job : ImageJob := mk_job "big.heic" "big.jpg" 496.

(** the job for "done.heic", of the same size, whose output exists *)
Definition done_job : ImageJob := mk_job "done.heic" "done.jpg" 496.

(** a batch of two jobs for four workers with the smallest ceiling *)
Definition rerun : BatchProcessor :=
  set_queue [done_job; mk_job "small.heic" "small.jpg" 16] tight.

(** a job for a file that does not exist and is not named like an image *)
Definition notes_job : ImageJob := mk_job "notes.txt" "notes.jpg" 0.

(** a job for a missing file whose output exists *)
Definition gone_job : ImageJob := mk_job "gone.heic" "gone.jpg" 0.

(** the largest budget there is *)
Definition SIZE_MAX : Z := 18446744073709551615.

(** a machine with eight logical cores, built without [__APPLE__] *)
Definition host : Host :=
  {| hardware_concurrency := 8;
     perflevel0_physicalcpu := None;
     physicalcpu := None;
     available_memory := 4 * 1024 * 1024 * 1024 |}.

(** every status can be read *)
Definition readable : string -> bool := fun _ => false.

(** nothing under "locked/" can be looked at *)
Definition locked : string -> bool := String.prefix "locked/".

(** a world in which libjpeg fails *)
Definition broken_encoder : World :=
  mk_world files
    {| heif_alloc_ok := true;
       can_mkdir := fun _ => true;
       can_open := fun _ => true;
       jpeg_ok := fun _ _ _ _ => false |} [].

(** a job whose input is under "locked/" *)
Definition locked_job : ImageJob := mk_job "locked/a.heic" "a.jpg" 0.

End Sample.

(** * Properties *)

(** ** Machine integers *)

Lemma int_wrap_id z : in_int z -> int_wrap z = z.
Proof.
  unfold in_int, INT_MIN, INT_MAX, int_wrap. intros Hz.
  rewrite Z.mod_small by lia. lia.
Qed.

Lemma int_wrap_range z : in_int (int_wrap z).
Proof.
  unfold in_int, INT_MIN, INT_MAX, int_wrap.
  pose proof (Z.mod_pos_bound (z + 2 ^ 31) (2 ^ 32) ltac:(lia)). lia.
Qed.

Lemma to_size_t_id z : 0 <= z < SIZE_MOD -> to_size_t z = z.
Proof. intros Hz. unfold to_size_t. now rewrite Z.mod_small. Qed.

(** ** The estimator *)

Section Estimator.

Lemma rne53_exact m e : 0 <= m < 2 ^ 53 -> Double.rne53 m e = Double.mk_dbl m e.
Proof.
  intros Hm. unfold Double.rne53.
  destruct (Z.eqb_spec m 0) as [->|Hne]; [reflexivity|].
  assert (Z.log2 m < 53) by (apply Z.log2_lt_pow2; lia).
  destruct (Z.leb_spec (Z.log2 m + 1) 53); [reflexivity | lia].
Qed.

(** the value of the formula of the specification as an integer division *)
Lemma estimate_formula_div width height :
  estimate_formula width height
  = - ((- (3 * (7 * (width * height) + 10485760))) / 2097152).
Proof.
  unfold estimate_formula, Qceiling, Qfloor, Qdiv.
  change (/ inject_Z (1024 * 1024))%Q with (1 # 1048576)%Q.
  cbn. f_equal. f_equal. lia.
Qed.

(** Where the [int] products do not overflow, the code computes the formula
    of the specification. *)
Lemma estimate_in_range width height :
  0 <= width -> 0 <= height -> width * height * 4 <= INT_MAX ->
  estimate_from_dimensions width height = estimate_formula width height.
Proof.
  unfold INT_MAX. intros Hw Hh Hb.
  assert (Hp : 0 <= width * height) by lia.
  rewrite estimate_formula_div. unfold estimate_from_dimensions, int_mul.
  rewrite (int_wrap_id (width * height))
    by (unfold in_int, INT_MIN, INT_MAX; lia).
  rewrite !int_wrap_id by (unfold in_int, INT_MIN, INT_MAX; lia).
  unfold size_add.
  rewrite (to_size_t_id (width * height * 3)) by (unfold SIZE_MOD; lia).
  rewrite (to_size_t_id (width * height * 4)) by (unfold SIZE_MOD; lia).
  rewrite (to_size_t_id (10 * 1024 * 1024)) by (unfold SIZE_MOD; lia).
  rewrite (to_size_t_id (width * height * 3 + width * height * 4))
    by (unfold SIZE_MOD; lia).
  rewrite to_size_t_id by (unfold SIZE_MOD; lia).
  replace (width * height * 3 + width * height * 4 + 10 * 1024 * 1024)
    with (7 * (width * height) + 10485760) by lia.
  set (S := 7 * (width * height) + 10485760).
  assert (HS : 0 <= S < 2 ^ 32) by (unfold S; lia).
  unfold Double.of_size_t. rewrite rne53_exact by lia.
  unfold Double.mul_1_5. cbn [Double.mant Double.expo].
  rewrite rne53_exact by lia.
  unfold Double.div_MiB, Double.ceil_to_size_t. cbn [Double.mant Double.expo].
  change (0 <=? 0 - 1 - 20) with false. cbv iota.
  change (2 ^ (- (0 - 1 - 20))) with 2097152.
  replace (S * 3) with (3 * S) by lia.
  apply to_size_t_id. unfold SIZE_MOD.
  pose proof (Z.div_le_upper_bound (- (3 * S)) 2097152 0 ltac:(lia) ltac:(lia)).
  pose proof (Z.div_le_lower_bound (- (3 * S)) 2097152 (- 2 ^ 32)
                ltac:(lia) ltac:(lia)).
  lia.
Qed.

(** A file that cannot be read as HEIF, or has no primary image handle,
    gets the estimate 0. *)
Lemma estimate_unreadable w image_path :
  heif_context_read_from_file w image_path = None
  \/ heif_context_read_from_file w image_path = Some None ->
  estimate_memory_requirement w image_path = 0.
Proof.
  unfold estimate_memory_requirement.
  intros [-> | ->]; destruct (heif_alloc_ok (w_sys w)); reflexivity.
Qed.


End Estimator.

(** ** What a conversion adds to the log *)

Section Tame.

Import Early.

Context (P : event -> Prop).

Lemma extends_refl w : extends P w w.
Proof. exists []. by repeat split. Qed.

Lemma extends_trans w1 w2 w3 :
  extends P w1 w2 -> extends P w2 w3 -> extends P w1 w3.
Proof.
  intros (e1 & H1 & F1 & S1) (e2 & H2 & F2 & S2). exists (e2 ++ e1).
  rewrite H2, H1, S2, S1, Forall_app. by rewrite (assoc app).
Qed.

Lemma extends_record e w : P e -> extends P w (record e w).
Proof. intros He. exists [e]. repeat split; [by constructor]. Qed.

Lemma extends_set_fs fs w : extends P w (set_fs fs w).
Proof. exists []. by repeat split. Qed.

Lemma tame_pure {A} (a : A) : tame P (pure a).
Proof. intros w. apply extends_refl. Qed.

Lemma tame_mret {A} (a : A) : tame P (mret a).
Proof. apply tame_pure. Qed.

Lemma tame_return {A} b : tame P (@return_ A b).
Proof. intros w. apply extends_refl. Qed.

Lemma tame_ask : tame P ask.
Proof. intros w. apply extends_refl. Qed.

Lemma tame_note e : P e -> tame P (note e).
Proof. intros He w. by apply extends_record. Qed.

Lemma tame_say m : P (Console m) -> tame P (say m).
Proof. apply tame_note. Qed.

Lemma tame_set_fs fs : tame P (update (set_fs fs)).
Proof. intros w. apply extends_set_fs. Qed.

Lemma tame_bind {A B} (m : M A) (k : A -> M B) :
  tame P m -> (forall a, tame P (k a)) -> tame P (m ≫= k).
Proof.
  intros Hm Hk w. unfold mbind, early_bind, bind.
  specialize (Hm w). destruct (m w) as [[b|a] w']; [exact Hm|].
  eapply extends_trans; [exact Hm | apply Hk].
Qed.

End Tame.

Lemma quiet_minor e : quiet e -> minor e.
Proof. by destruct e. Qed.

Create HintDb tame.
#[local] Hint Resolve tame_pure tame_mret tame_return tame_ask tame_set_fs
  : tame.

Ltac tame_step :=
  first [ apply tame_bind; [|intros ?]
        | apply tame_note; exact I
        | apply tame_say; exact I
        | solve [auto with tame]
        | case_match ].

(** after its entry, a conversion prints and decodes only *)
Lemma tame_convert_steps heif_path jpeg_path quality max_width max_height
    max_memory_mb :
  tame quiet (convert_steps heif_path jpeg_path quality max_width max_height
                max_memory_mb).
Proof.
  unfold convert_steps, check_dimensions, check_memory, decode,
    make_output_dir, encode.
  repeat tame_step.
Qed.

Lemma convert_unfold heif_path jpeg_path quality max_width max_height
    max_memory_mb w :
  convert_heif_to_jpeg heif_path jpeg_path quality max_width max_height
    max_memory_mb w
  = Early.run (convert_steps heif_path jpeg_path quality max_width max_height
                 max_memory_mb)
      (thread_safe_print (MsgConverting heif_path jpeg_path)
         (record (CallConvert heif_path jpeg_path quality max_width
                    max_height max_memory_mb) w)).
Proof. reflexivity. Qed.

(** The log of a conversion: its call, the line it prints first, then prints
    and the decoding only. *)
Lemma convert_log heif_path jpeg_path quality max_width max_height
    max_memory_mb w :
  exists rest,
    w_log (convert_heif_to_jpeg heif_path jpeg_path quality max_width
             max_height max_memory_mb w).2
    = rest ++ Console (MsgConverting heif_path jpeg_path)
      :: CallConvert heif_path jpeg_path quality max_width max_height
           max_memory_mb :: w_log w
    /\ Forall quiet rest
    /\ w_sys (convert_heif_to_jpeg heif_path jpeg_path quality max_width
                max_height max_memory_mb w).2 = w_sys w.
Proof.
  rewrite convert_unfold. unfold Early.run.
  match goal with |- context [convert_steps ?a ?b ?c ?d ?e ?f ?w1] =>
    pose proof (tame_convert_steps a b c d e f w1)
      as (rest & Hlog & Hq & Hsys);
    destruct (convert_steps a b c d e f w1) as [[r|r] w']
  end; by exists rest.
Qed.

Lemma convert_extends heif_path jpeg_path quality max_width max_height
    max_memory_mb w :
  extends minor w (convert_heif_to_jpeg heif_path jpeg_path quality max_width
                     max_height max_memory_mb w).2.
Proof.
  destruct (convert_log heif_path jpeg_path quality max_width max_height
              max_memory_mb w) as (rest & Hlog & Hq & Hsys).
  exists (rest ++ [Console (MsgConverting heif_path jpeg_path);
                   CallConvert heif_path jpeg_path quality max_width
                     max_height max_memory_mb]).
  rewrite Hlog, <- app_assoc. repeat split; [|done].
  apply Forall_app. split; [|by repeat constructor].
  eapply Forall_impl; [done | apply quiet_minor].
Qed.

(** ** The stages of a conversion *)

Section Stages.

Import Early.

Variables (heif_path jpeg_path : string).
Variables (quality max_width max_height max_memory_mb : Z).

Lemma check_dimensions_spec w :
  if dimensions_exceed w heif_path max_width max_height
  then exists m, check_dimensions heif_path max_width max_height w
                 = (inl false, thread_safe_print m w)
  else check_dimensions heif_path max_width max_height w = (inr tt, w).
Proof.
  unfold dimensions_exceed, check_dimensions, mbind, early_bind, bind, ask.
  destruct ((0 <? max_width) || (0 <? max_height)); cbn [andb]; [|done].
  destruct (get_heif_dimensions w heif_path) as [[width height]|]; [|done].
  destruct (_ || _); [|done]. by eexists.
Qed.

Lemma check_memory_spec w :
  check_memory heif_path max_memory_mb w
  = if memory_exceeds w heif_path max_memory_mb
    then (inl false,
          thread_safe_print
            (MsgMemoryExceeds (estimate_memory_requirement w heif_path)
               max_memory_mb) w)
    else (inr tt, w).
Proof.
  unfold memory_exceeds, check_memory, mbind, early_bind, bind, ask.
  destruct (0 <? max_memory_mb); cbn [andb]; [|done].
  by destruct (_ <? _).
Qed.

Lemma decode_spec w :
  (exists m, decode heif_path w = (inl false, thread_safe_print m w))
  \/ (exists m, decode heif_path w
                = (inl false,
                   thread_safe_print m (record (CallDecode heif_path) w)))
  \/ (exists handle img plane,
        heif_alloc_ok (w_sys w) = true
        /\ heif_context_read_from_file w heif_path = Some (Some handle)
        /\ hh_decode handle = Some img
        /\ hi_plane img = Some plane
        /\ decode heif_path w
           = (inr (img, plane, extract_metadata handle),
              record (CallDecode heif_path) w)).
Proof.
  unfold decode, mbind, early_bind, bind, ask.
  destruct (heif_alloc_ok (w_sys w)) eqn:Ha; cbn; [|left; by eexists].
  destruct (heif_context_read_from_file w heif_path) as [[handle|]|] eqn:Hr;
    cbn; [|left; by eexists..].
  destruct (hh_decode handle) as [img|] eqn:Hd; cbn;
    [|right; left; by eexists].
  destruct (hi_plane img) as [plane|] eqn:Hp; cbn;
    [|right; left; by eexists].
  right; right. by exists handle, img, plane.
Qed.

Lemma make_output_dir_spec w :
  (exists m, make_output_dir jpeg_path w = (inl false, thread_safe_print m w))
  \/ (exists w', make_output_dir jpeg_path w = (inr tt, w')
                 /\ w_sys w' = w_sys w
                 /\ extends printed w w'
                 /\ (Path.parent_path jpeg_path <> ""%string ->
                     fs_exists w (Path.parent_path jpeg_path) = false ->
                     create_directories
                       (String.length (Path.parent_path jpeg_path))
                       (w_sys w) (w_fs w) (Path.parent_path jpeg_path)
                     <> None)).
Proof.
  unfold make_output_dir, mbind, early_bind, bind, ask.
  destruct (String.eqb_spec (Path.parent_path jpeg_path) "") as [He|Hne];
    cbn [negb andb].
  { right. exists w. split; [done|]. split; [done|].
    split; [apply extends_refl | done]. }
  destruct (fs_exists w (Path.parent_path jpeg_path)) eqn:Hex; cbn [negb].
  { right. exists w. split; [done|]. split; [done|].
    split; [apply extends_refl | done]. }
  destruct (create_directories _ _ _ _) as [fs'|] eqn:Hmk; cbn.
  - right. eexists. split; [done|]. split; [done|]. split; [|done].
    exists [Console (MsgCreatedDir (Path.parent_path jpeg_path))].
    split; [done|]. split; [by repeat constructor | done].
  - left. by eexists.
Qed.

Lemma encode_spec img planar_data metadata_blocks w :
  (exists w', encode jpeg_path quality img planar_data metadata_blocks w
              = (inl false, w'))
  \/ (exists w', encode jpeg_path quality img planar_data metadata_blocks w
                 = (inl true, w')
                 /\ can_open (w_sys w) jpeg_path = true
                 /\ jpeg_ok (w_sys w) jpeg_path (hi_width img) (hi_height img)
                      quality = true).
Proof.
  unfold encode, mbind, early_bind, bind, ask, fopen_wb.
  destruct (can_open (w_sys w) jpeg_path); cbn [andb]; [|left; by eexists].
  destruct (_ && _); cbn; [|left; by eexists].
  destruct (jpeg_ok _ _ _ _ _); cbn; [right | left]; by eexists.
Qed.

(** A conversion that returns [true] met none of the problems. *)
Lemma convert_success w :
  (convert_heif_to_jpeg heif_path jpeg_path quality max_width max_height
     max_memory_mb w).1 = true ->
  ~ conversion_problem w heif_path jpeg_path quality max_width max_height
      max_memory_mb.
Proof.
  rewrite convert_unfold. unfold run, convert_steps.
  set (w1 := thread_safe_print _ _).
  assert (Hfs : w_fs w1 = w_fs w) by done.
  assert (Hsys : w_sys w1 = w_sys w) by done.
  assert (Hdim : dimensions_exceed w1 heif_path max_width max_height
                 = dimensions_exceed w heif_path max_width max_height)
    by done.
  assert (Hmem : memory_exceeds w1 heif_path max_memory_mb
                 = memory_exceeds w heif_path max_memory_mb) by done.
  assert (Hread : heif_context_read_from_file w1 heif_path
                  = heif_context_read_from_file w heif_path) by done.
  assert (Hex : forall p, fs_exists w1 p = fs_exists w p) by done.
  clearbody w1.
  unfold mbind, early_bind, bind at 1.
  pose proof (check_dimensions_spec w1) as Hcd. rewrite Hdim in Hcd.
  destruct (dimensions_exceed w heif_path max_width max_height) eqn:Ed.
  { destruct Hcd as [m ->]. done. }
  rewrite Hcd. unfold bind at 1. rewrite check_memory_spec, Hmem.
  destruct (memory_exceeds w heif_path max_memory_mb) eqn:Em; [done|].
  unfold bind at 1.
  destruct (decode_spec w1) as [[m ->] | [[m ->] |
    (handle & img & plane & Ha & Hr & Hd & Hp & ->)]]; [done..|].
  set (w2 := record (CallDecode heif_path) w1).
  unfold bind at 1.
  destruct (make_output_dir_spec w2) as [[m ->] | (w3 & -> & Hs3 & _ & Hmk)];
    [done|].
  destruct (encode_spec img plane (extract_metadata handle) w3)
    as [[w4 ->] | (w4 & -> & Hopen & Hjpeg)]; [done|].
  intros _. rewrite Hs3 in Hopen, Hjpeg. cbn in Hopen, Hjpeg.
  rewrite Hsys in Ha, Hopen, Hjpeg. rewrite Hread in Hr.
  intros [E|E|E|E|E|h E1 E2|h i E1 E2 E3|E1 E2 E3|E|h i E1 E2 E3];
    try congruence.
  apply Hmk; [done | |].
  - change (fs_exists w1 (Path.parent_path jpeg_path) = false).
    by rewrite Hex.
  - unfold w2. cbn [w_fs w_sys record]. by rewrite Hfs, Hsys.
Qed.

(** Where the limit is set and the estimate of the file exceeds it, the
    conversion returns [false] with no more than lines printed: nothing is
    decoded and no file changes. *)
Lemma convert_refuses w :
  memory_exceeds w heif_path max_memory_mb = true ->
  exists rest w',
    convert_heif_to_jpeg heif_path jpeg_path quality max_width max_height
      max_memory_mb w = (false, w')
    /\ w_fs w' = w_fs w
    /\ w_log w' = rest ++ Console (MsgConverting heif_path jpeg_path)
                  :: CallConvert heif_path jpeg_path quality max_width
                       max_height max_memory_mb :: w_log w
    /\ Forall printed rest.
Proof.
  intros Hmem. rewrite convert_unfold. unfold run, convert_steps.
  set (w1 := thread_safe_print _ _).
  assert (Hmem1 : memory_exceeds w1 heif_path max_memory_mb = true) by done.
  assert (Hfs : w_fs w1 = w_fs w) by done.
  assert (Hlog : w_log w1 = Console (MsgConverting heif_path jpeg_path)
                   :: CallConvert heif_path jpeg_path quality max_width
                        max_height max_memory_mb :: w_log w) by done.
  clearbody w1.
  unfold mbind, early_bind, bind at 1.
  pose proof (check_dimensions_spec w1) as Hcd.
  destruct (dimensions_exceed w1 heif_path max_width max_height).
  { destruct Hcd as [m ->]. exists [Console m]. eexists.
    split; [done|]. cbn. rewrite Hlog.
    split; [done|]. split; [done | by repeat constructor]. }
  rewrite Hcd. unfold bind at 1. rewrite check_memory_spec, Hmem1.
  eexists [_]. eexists. split; [done|]. cbn. rewrite Hlog.
  split; [done|]. split; [done | by repeat constructor].
Qed.

End Stages.

(** ** [process_file]: one call, one counter *)

Lemma omap_quiet evs : Forall quiet evs -> omap convert_event evs = [].
Proof.
  induction 1 as [|e evs He _ IH]; [done|]. by destruct e.
Qed.

(** Every call of [process_file] logs its call, then minor events only, then
    increments exactly one counter exactly once.  Unless all its checks
    pass it leaves the files alone and does not call the conversion;
    otherwise it calls the conversion once, with the limits it was given,
    and counts a success or a failure after its result. *)
Lemma process_file_spec input output quality force max_width max_height
    max_memory_mb w c :
  let call := CallProcessFile input output quality force max_width
                max_height max_memory_mb in
  let conv := convert_heif_to_jpeg input output quality max_width max_height
                max_memory_mb (record call w) in
  exists o mid w',
    process_file input output quality force max_width max_height
      max_memory_mb w c = (w', bump o c)
    /\ w_log w' = Counted o :: mid ++ call :: w_log w
    /\ Forall minor mid
    /\ w_sys w' = w_sys w
    /\ (reaches_conversion w input output force = false ->
        w_fs w' = w_fs w /\ omap convert_event mid = []
        /\ o = (if fs_exists w input && is_regular_file w input
                then skipped else failed)
        /\ Forall printed mid)
    /\ (reaches_conversion w input output force = true ->
        w_fs w' = w_fs conv.2
        /\ omap convert_event mid
           = [CallConvert input output quality max_width max_height
                max_memory_mb]
        /\ o = (if conv.1 then succeeded else failed)
        /\ w_log conv.2 = mid ++ call :: w_log w).
Proof.
  intros call conv. unfold process_file, reaches_conversion. fold call.
  change (fs_exists (record call w)) with (fs_exists w).
  change (is_regular_file (record call w)) with (is_regular_file w).
  destruct (fs_exists w input); cbn [negb andb].
  2:{ exists failed, [Console (MsgInputNotFound input)]. eexists.
      split; [reflexivity|]. cbn.
      repeat split; try done; by repeat constructor. }
  destruct (is_regular_file w input); cbn [negb andb].
  2:{ exists failed, [Console (MsgNotRegular input)]. eexists.
      split; [reflexivity|]. cbn.
      repeat split; try done; by repeat constructor. }
  destruct (recognized_extension input); cbn [negb andb].
  2:{ exists skipped, [Console (MsgSkipNotHeif input)]. eexists.
      split; [reflexivity|]. cbn.
      repeat split; try done; by repeat constructor. }
  destruct (fs_exists w output && negb force); cbn [negb andb].
  { exists skipped, [Console (MsgSkipExists output input)]. eexists.
    split; [reflexivity|]. cbn.
    repeat split; try done; by repeat constructor. }
  fold conv.
  pose proof (convert_log input output quality max_width max_height
                max_memory_mb (record call w))
    as (rest & Hlog & Hquiet & Hsys).
  fold conv in Hlog, Hsys. destruct conv as [ok w']. cbn [fst snd] in *.
  exists (if ok then succeeded else failed),
    (rest ++ [Console (MsgConverting input output);
              CallConvert input output quality max_width max_height
                max_memory_mb]).
  exists (record (Counted (if ok then succeeded else failed)) w').
  split; [by destruct ok|]. cbn [w_log w_sys w_fs record].
  split; [by rewrite Hlog, <- app_assoc|].
  split.
  { apply Forall_app. split; [|by repeat constructor].
    eapply Forall_impl; [done | apply quiet_minor]. }
  split; [done|]. split; [done|]. intros _.
  split; [done|]. split; [by rewrite omap_app, omap_quiet|].
  split; [done|]. by rewrite Hlog, <- app_assoc.
Qed.

Lemma process_file_shape input output quality force max_width max_height
    max_memory_mb w c :
  exists o mid w',
    process_file input output quality force max_width max_height
      max_memory_mb w c = (w', bump o c)
    /\ w_log w' = Counted o :: mid
                  ++ CallProcessFile input output quality force max_width
                       max_height max_memory_mb :: w_log w
    /\ Forall minor mid
    /\ w_sys w' = w_sys w.
Proof.
  destruct (process_file_spec input output quality force max_width
              max_height max_memory_mb w c)
    as (o & mid & w' & H1 & H2 & H3 & H4 & _).
  by exists o, mid, w'.
Qed.

(** ** The priority queue *)

Section PriorityQueueFacts.

Context {T : Type} (less : T -> T -> bool).

(** [less] is a strict weak ordering, as [std::priority_queue] requires *)
Hypothesis less_irrefl : forall x, less x x = false.
Hypothesis less_trans :
  forall x y z, less x y = true -> less y z = true -> less x z = true.
Hypothesis less_incomparable :
  forall x y z, less x y = false -> less y z = false -> less x z = false.

Lemma extract_top_perm best rest :
  (extract_top less best rest).1 :: (extract_top less best rest).2
  ≡ₚ best :: rest.
Proof.
  revert best. induction rest as [|x rest IH]; intros best; cbn; [done|].
  destruct (less best x).
  - specialize (IH x). destruct (extract_top less x rest) as [m r]. cbn in *.
    etrans; [apply Permutation_swap|]. by f_equiv.
  - specialize (IH best). destruct (extract_top less best rest) as [m r].
    cbn in *. etrans; [apply Permutation_swap|].
    etrans; [|apply Permutation_swap]. by f_equiv.
Qed.

Lemma extract_top_greatest best rest y :
  y ∈ best :: rest -> less (extract_top less best rest).1 y = false.
Proof.
  revert best y. induction rest as [|x rest IH]; intros best y Hy; cbn.
  - apply list_elem_of_singleton in Hy as ->. apply less_irrefl.
  - destruct (less best x) eqn:Hbx.
    + specialize (IH x). destruct (extract_top less x rest) as [m r].
      cbn in *. apply elem_of_cons in Hy as [->|Hy]; [|by apply IH].
      destruct (less m best) eqn:Hmb; [|done].
      pose proof (less_trans _ _ _ Hmb Hbx) as Hmx.
      rewrite (IH x) in Hmx; [done | left].
    + specialize (IH best). destruct (extract_top less best rest) as [m r].
      cbn in *. apply elem_of_cons in Hy as [->|Hy]; [by apply IH; left|].
      apply elem_of_cons in Hy as [->|Hy]; [|by apply IH; right].
      apply less_incomparable with best; [apply IH; left | done].
Qed.

(** [top] of a non-empty queue is a greatest element and [pop] removes it *)
Lemma pq_top_pop q :
  q <> [] ->
  exists m, pq_top less q = Some m
            /\ m :: pq_pop less q ≡ₚ q
            /\ forall y, y ∈ q -> less m y = false.
Proof.
  destruct q as [|x rest]; [done|]. intros _. cbn.
  exists (extract_top less x rest).1. split; [done|].
  split; [apply extract_top_perm | apply extract_top_greatest].
Qed.

End PriorityQueueFacts.

(** On jobs, the greatest element under [operator<] is a cheapest job. *)
Lemma job_top_pop (q : list ImageJob) :
  q <> [] ->
  exists j, pq_top job_lt q = Some j
            /\ j :: pq_pop job_lt q ≡ₚ q
            /\ forall k, k ∈ q -> cost_le j k.
Proof.
  intros Hq.
  destruct (pq_top_pop job_lt) with (q := q) as (j & Htop & Hperm & Hmax);
    [ intros x; apply Z.ltb_irrefl
    | unfold job_lt; intros x y z H1%Z.ltb_lt H2%Z.ltb_lt; apply Z.ltb_lt; lia
    | unfold job_lt; intros x y z H1%Z.ltb_ge H2%Z.ltb_ge; apply Z.ltb_ge; lia
    | done | ].
  exists j. repeat split; [done..|].
  intros k Hk. specialize (Hmax k Hk). apply Z.ltb_ge in Hmax. exact Hmax.
Qed.

(** ** The worker loop *)

Section Pool.

Lemma pool_insert_split (pool : list thread_state) i t t' :
  pool !! i = Some t ->
  pool = take i pool ++ t :: drop (S i) pool
  /\ <[i := t']> pool = take i pool ++ t' :: drop (S i) pool.
Proof.
  intros Hi. split; [by rewrite take_drop_middle|].
  apply insert_take_drop. by eapply lookup_lt_Some.
Qed.

Lemma held_insert (pool : list thread_state) i t t' :
  pool !! i = Some t ->
  omap held (<[i := t']> pool) ++ option_list (held t)
  ≡ₚ omap held pool ++ option_list (held t').
Proof.
  intros Hi. destruct (pool_insert_split pool i t t' Hi) as [E1 E2].
  rewrite E2. rewrite E1 at 3. rewrite !omap_app. cbn.
  generalize (omap held (take i pool)) (omap held (drop (S i) pool)).
  intros A B. destruct (held t), (held t'); cbn; solve_Permutation.
Qed.

Lemma alive_insert (pool : list thread_state) i t t' :
  pool !! i = Some t ->
  (sum_list_with alive (<[i := t']> pool) + alive t
   = sum_list_with alive pool + alive t')%nat.
Proof.
  intros Hi. destruct (pool_insert_split pool i t t' Hi) as [E1 E2].
  rewrite E2. rewrite E1 at 3.
  rewrite !sum_list_with_app. cbn. lia.
Qed.

Lemma returned_insert (pool : list thread_state) i t' :
  Returned ∈ <[i := t']> pool -> t' = Returned \/ Returned ∈ pool.
Proof.
  intros (k & Hk)%list_elem_of_lookup.
  destruct (decide (i = k)) as [->|Hne].
  - destruct (decide (k < length pool)%nat).
    + rewrite list_lookup_insert_eq in Hk by done. left. congruence.
    + rewrite list_insert_ge in Hk by lia. right.
      apply list_elem_of_lookup. eauto.
  - rewrite list_lookup_insert_ne in Hk by done. right.
    apply list_elem_of_lookup. eauto.
Qed.

Lemma held_replicate n : omap held (replicate n LoopHead) = [].
Proof. induction n; [done|]. cbn. exact IHn. Qed.

End Pool.

(** minor events are neither takings of jobs, nor calls of [process_file],
    nor increments *)
Lemma omap_minor evs :
  Forall minor evs ->
  omap dequeue_of evs = [] /\ omap call_event evs = []
  /\ omap counted_of evs = [].
Proof.
  induction 1 as [|e evs He _ (IH1 & IH2 & IH3)]; [done|].
  destruct e; try done; cbn; by rewrite ?IH1, ?IH2, ?IH3.
Qed.

(** *** One turn of the loop body after a job was taken *)

Lemma handle_job_shape j bp w :
  exists o mid w',
    handle_job j bp w = (LoopHead, set_counters (bump o (counters bp)) bp, w')
    /\ w_log w' = Counted o :: mid ++ call_of bp j
                  :: over_limit_warning bp j ++ w_log w
    /\ Forall minor mid
    /\ w_sys w' = w_sys w.
Proof.
  unfold handle_job, over_limit_warning, call_of.
  destruct (memory_per_thread_mb bp <? estimated_memory_mb j);
    match goal with |- context [process_file ?a ?b ?c ?d ?e ?f ?g ?h ?i] =>
      destruct (process_file_shape a b c d e f g h i)
        as (o & mid & w' & -> & Hlog & Hmid & Hsys)
    end; by exists o, mid, w'.
Qed.

Lemma handle_job_unfold j bp w :
  handle_job j bp w
  = let '(w', c') :=
      process_file (input_path j) (output_path j) (quality bp)
        (force_overwrite bp) (max_width bp) (max_height bp)
        (memory_per_thread_mb bp) (warned bp j w) (counters bp) in
    (LoopHead, set_counters c' bp, w').
Proof.
  unfold handle_job, warned, over_limit_warning.
  destruct (memory_per_thread_mb bp <? estimated_memory_mb j);
    by destruct w.
Qed.

(** What the loop body does with a job: it goes back to the head of the
    loop, with the queue as it was; [process_file] is called once, with the
    limit of the thread; unless the checks of [process_file] pass, no file
    changes and the conversion is not called; otherwise the conversion is
    called once and its result decides between success and failure. *)
Lemma handle_job_spec j bp w :
  let conv := convert_heif_to_jpeg (input_path j) (output_path j)
                (quality bp) (max_width bp) (max_height bp)
                (memory_per_thread_mb bp)
                (record (call_of bp j) (warned bp j w)) in
  let reaches := reaches_conversion w (input_path j) (output_path j)
                   (force_overwrite bp) in
  exists o mid w',
    handle_job j bp w = (LoopHead, set_counters (bump o (counters bp)) bp, w')
    /\ w_log w' = Counted o :: mid ++ call_of bp j
                  :: over_limit_warning bp j ++ w_log w
    /\ Forall minor mid
    /\ omap call_event mid = []
    /\ w_sys w' = w_sys w
    /\ (reaches = false ->
        w_fs w' = w_fs w /\ omap convert_event mid = []
        /\ o = (if fs_exists w (input_path j)
                   && is_regular_file w (input_path j)
                then skipped else failed)
        /\ Forall printed mid)
    /\ (reaches = true ->
        w_fs w' = w_fs conv.2
        /\ omap convert_event mid
           = [CallConvert (input_path j) (output_path j) (quality bp)
                (max_width bp) (max_height bp) (memory_per_thread_mb bp)]
        /\ o = (if conv.1 then succeeded else failed)
        /\ w_log conv.2 = mid ++ call_of bp j
                           :: over_limit_warning bp j ++ w_log w).
Proof.
  intros conv reaches. rewrite handle_job_unfold.
  destruct (process_file_spec (input_path j) (output_path j) (quality bp)
              (force_overwrite bp) (max_width bp) (max_height bp)
              (memory_per_thread_mb bp) (warned bp j w) (counters bp))
    as (o & mid & w' & -> & Hlog & Hmid & Hsys & Hno & Hyes).
  exists o, mid, w'. split; [done|]. split; [done|]. split; [done|].
  split; [by apply omap_minor|]. by split.
Qed.

(** *** Taking a job *)

Lemma fetch_cases bp w :
  (job_queue bp = [] /\ fetch bp w = (Returned, bp, w))
  \/ (exists j,
        j :: pq_pop job_lt (job_queue bp) ≡ₚ job_queue bp
        /\ (forall k, k ∈ job_queue bp -> cost_le j k)
        /\ fetch bp w = (Holding j,
                         set_queue (pq_pop job_lt (job_queue bp)) bp,
                         record (Dequeue j) w)).
Proof.
  unfold fetch. destruct (job_queue bp) as [|x rest] eqn:Hq; [by left|].
  right. destruct (job_top_pop (x :: rest)) as (j & Htop & Hperm & Hmin);
    [done|].
  exists j. rewrite Htop. by repeat split.
Qed.

#[local] Arguments over_limit_warning : simpl never.
#[local] Arguments call_of : simpl never.

Lemma over_limit_warning_minor bp j : Forall minor (over_limit_warning bp j).
Proof.
  unfold over_limit_warning. case_match; by repeat constructor.
Qed.

Lemma call_of_config bp bp0 j :
  same_config bp bp0 -> call_of bp j = call_of bp0 j.
Proof.
  intros (H1 & H2 & H3 & H4 & H5 & H6). unfold call_of.
  by rewrite H1, H2, H3, H4, H5.
Qed.

(** *** Every step keeps the invariant and uses up one unit of work *)

Lemma step_invariant bp0 evs m i m' :
  invariant bp0 evs m -> step i m = Some m' ->
  exists new,
    w_log (world m') = new ++ w_log (world m)
    /\ invariant bp0 (new ++ evs) m'
    /\ w_sys (world m') = w_sys (world m)
    /\ work m = S (work m').
Proof.
  intros Inv. unfold step.
  destruct (pool m !! i) as [t|] eqn:Hi; [|done].
  destruct Inv as [Hcfg Hpool Hqueue Hsorted Hahead Hcalls Hcnt Hlen Hret].
  pose proof (held_insert (pool m) i t) as Hheld.
  pose proof (alive_insert (pool m) i t) as Halive.
  destruct t as [|j|]; cbn; [| |done].
  - (* at the head of the loop *)
    destruct (fetch_cases (processor m) (world m))
      as [[Hq ->] | (j & Hperm & Hmin & ->)]; intros [= <-]; cbn.
    + (* the queue is empty: the thread returns *)
      specialize (Hheld Returned Hi). specialize (Halive Returned Hi).
      cbn in Hheld, Halive. rewrite !app_nil_r in Hheld.
      exists []. split; [done|]. split; [|split; [done|]].
      * split; cbn; try done.
        -- by rewrite length_insert.
        -- by rewrite Hheld.
      * unfold work. cbn. lia.
    + (* a job is taken *)
      specialize (Hheld (Holding j) Hi). specialize (Halive (Holding j) Hi).
      cbn in Hheld, Halive. rewrite app_nil_r in Hheld.
      assert (Hj : j ∈ job_queue (processor m))
        by (rewrite <- Hperm; left).
      exists [Dequeue j]. split; [done|]. split; [|split; [done|]].
      * split; cbn; try done.
        -- by rewrite length_insert.
        -- rewrite <- Hqueue.
           trans (omap dequeue_of evs
                  ++ j :: pq_pop job_lt (job_queue (processor m)));
             [solve_Permutation | by f_equiv].
        -- constructor; [done|]. apply Forall_forall. intros d Hd.
           by apply Hahead.
        -- intros d k [->|Hd]%elem_of_cons Hk.
           ++ apply Hmin. rewrite <- Hperm. by right.
           ++ apply Hahead; [done|]. rewrite <- Hperm. by right.
        -- rewrite Hheld, fmap_app, (assoc app), Hcalls. cbn.
           solve_Permutation.
        -- intros [?|Hr]%returned_insert; [done|].
           rewrite (Hret Hr) in Hj. by apply elem_of_nil in Hj.
      * unfold work. cbn.
        apply Permutation_length in Hperm. cbn in Hperm. lia.
  - (* holding a job *)
    destruct (handle_job_shape j (processor m) (world m))
      as (o & mid & w' & -> & Hlog & Hmid & Hsys).
    intros [= <-]; cbn.
    specialize (Hheld LoopHead Hi). specialize (Halive LoopHead Hi).
    cbn in Hheld, Halive. rewrite app_nil_r in Hheld.
    destruct (omap_minor mid Hmid) as (M1 & M2 & M3).
    destruct (omap_minor _ (over_limit_warning_minor (processor m) j))
      as (W1 & W2 & W3).
    exists (Counted o :: mid ++ call_of (processor m) j
            :: over_limit_warning (processor m) j).
    split; [rewrite Hlog; cbn; by rewrite <- app_assoc|].
    assert (E1 : omap dequeue_of
                   ((Counted o :: mid ++ call_of (processor m) j
                     :: over_limit_warning (processor m) j) ++ evs)
                 = omap dequeue_of evs).
    { cbn. rewrite !omap_app. cbn. by rewrite M1, W1. }
    assert (E2 : omap call_event
                   ((Counted o :: mid ++ call_of (processor m) j
                     :: over_limit_warning (processor m) j) ++ evs)
                 = call_of bp0 j :: omap call_event evs).
    { cbn. rewrite !omap_app. cbn. rewrite M2, W2. cbn.
      by rewrite (call_of_config _ bp0). }
    assert (E3 : omap counted_of
                   ((Counted o :: mid ++ call_of (processor m) j
                     :: over_limit_warning (processor m) j) ++ evs)
                 = o :: omap counted_of evs).
    { cbn. rewrite !omap_app. cbn. by rewrite M3, W3. }
    split; [|split; [done|]].
    + split; rewrite ?E1, ?E2, ?E3; cbn; try done.
      * by rewrite length_insert.
      * rewrite <- Hcalls, <- Hheld, fmap_app. cbn. solve_Permutation.
      * by rewrite Hcnt.
      * by rewrite Hlen.
      * intros [?|Hr]%returned_insert; [done|]. by apply Hret.
    + unfold work. cbn. lia.
Qed.

(** *** Runs *)

Lemma start_invariant bp w : invariant bp [] (start bp w).
Proof.
  split; cbn; try done.
  - by rewrite length_replicate.
  - constructor.
  - intros d k Hd. by apply elem_of_nil in Hd.
  - by rewrite held_replicate.
  - intros (k & Hk)%list_elem_of_lookup.
    by apply lookup_replicate in Hk as [? _].
Qed.

Lemma run_invariant bp0 m m' :
  rtc step_rel m m' ->
  forall evs, invariant bp0 evs m ->
  exists new,
    w_log (world m') = new ++ w_log (world m)
    /\ invariant bp0 (new ++ evs) m'
    /\ w_sys (world m') = w_sys (world m)
    /\ (work m' <= work m)%nat.
Proof.
  induction 1 as [m | m m1 m' Hstep _ IH]; intros evs Inv.
  - exists []. split; [done|]. split; [done|]. split; [done | lia].
  - destruct Hstep as [i Hstep].
    destruct (step_invariant bp0 evs m i m1 Inv Hstep)
      as (new1 & Hlog1 & Inv1 & Hsys1 & Hwork1).
    destruct (IH _ Inv1) as (new2 & Hlog2 & Inv2 & Hsys2 & Hwork2).
    exists (new2 ++ new1). rewrite <- !app_assoc.
    split; [by rewrite Hlog2, Hlog1|].
    split; [done|]. split; [congruence | lia].
Qed.

(** Every run is finite: each step uses up one unit of work. *)
Lemma run_length bp0 k m m' :
  nsteps step_rel k m m' ->
  forall evs, invariant bp0 evs m -> (k + work m' = work m)%nat.
Proof.
  induction 1 as [m | k m m1 m' [i Hstep] _ IH]; intros evs Inv; [done|].
  destruct (step_invariant bp0 evs m i m1 Inv Hstep)
    as (new & _ & Inv1 & _ & Hwork).
  specialize (IH _ Inv1). lia.
Qed.

(** a thread that has not returned can step *)
Lemma step_alive m i t :
  pool m !! i = Some t -> t <> Returned -> is_Some (step i m).
Proof.
  intros Hi Ht. unfold step. rewrite Hi.
  destruct t as [|j|]; cbn; [| |done].
  - by destruct (fetch (processor m) (world m)) as [[t' bp'] w'].
  - by destruct (handle_job j (processor m) (world m)) as [[t' bp'] w'].
Qed.

Lemma not_joined m :
  joined m = false ->
  exists i t, pool m !! i = Some t /\ t <> Returned.
Proof.
  unfold joined. intros H.
  destruct (forallb _ _) eqn:E in H; [done|]. clear H.
  induction (pool m) as [|t l IH]; [done|]. cbn in E.
  destruct t; try (by eexists 0%nat, _); cbn in E.
  destruct (IH E) as (i & t & Hi & Ht). by exists (S i), t.
Qed.

Lemma joined_all m :
  joined m = true -> Forall (fun t => t = Returned) (pool m).
Proof.
  unfold joined. intros H. induction (pool m) as [|t l IH]; [done|].
  cbn in H. destruct t; try done. constructor; [done | by apply IH].
Qed.

(** Whatever the schedule, the run can be completed: all threads return. *)
Lemma reaches_joined bp0 m evs :
  invariant bp0 evs m -> exists m', rtc step_rel m m' /\ joined m' = true.
Proof.
  remember (work m) as n eqn:Hn. revert m evs Hn.
  induction (lt_wf n) as [n _ IH]. intros m evs -> Inv.
  destruct (joined m) eqn:Hj; [by exists m|].
  destruct (not_joined m Hj) as (i & t & Hi & Ht).
  destruct (step_alive m i t Hi Ht) as [m1 Hstep].
  destruct (step_invariant bp0 evs m i m1 Inv Hstep)
    as (new & _ & Inv1 & _ & Hwork).
  destruct (IH (work m1) ltac:(lia) m1 _ eq_refl Inv1) as (m' & Hrun & Hj').
  exists m'. split; [|done]. eapply rtc_l; [by exists i | done].
Qed.

(** *** The state after all threads have returned *)

Lemma drained bp0 evs m :
  invariant bp0 evs m -> joined m = true -> 1 <= thread_count bp0 ->
  job_queue (processor m) = []
  /\ omap dequeue_of evs ≡ₚ job_queue bp0
  /\ omap call_event evs ≡ₚ call_of bp0 <$> job_queue bp0
  /\ length (omap counted_of evs) = length (job_queue bp0).
Proof.
  intros [Hcfg Hpool Hqueue Hsorted Hahead Hcalls Hcnt Hlen Hret] Hj HT.
  apply joined_all in Hj.
  assert (Hq : job_queue (processor m) = []).
  { apply Hret. destruct (pool m) as [|t l]; [cbn in Hpool; lia|].
    apply Forall_cons in Hj as [-> _]. left. }
  assert (Hh : omap held (pool m) = []).
  { clear -Hj. induction Hj as [|t l -> _ IH]; [done|]. exact IH. }
  rewrite Hq, app_nil_r in Hqueue. rewrite Hh in Hcalls. cbn in Hcalls.
  rewrite app_nil_r in Hcalls.
  repeat split; [done.. | by rewrite Hcalls, Hqueue |].
  by rewrite Hlen, Hcalls, length_fmap, Hqueue.
Qed.

(** *** The processor that [main] sets up *)

Lemma add_jobs_spec w files bp :
  job_queue (add_jobs w files bp) = reverse (jobs_of w files) ++ job_queue bp
  /\ counters (add_jobs w files bp) = counters bp
  /\ same_config (add_jobs w files bp) bp.
Proof.
  revert bp. unfold add_jobs, jobs_of.
  induction files as [|f files IH]; intros bp; [done|].
  rewrite fmap_cons, reverse_cons. cbn [foldl].
  destruct (IH (add_job w f.1 f.2 bp)) as (-> & -> & Hc).
  rewrite <- app_assoc. split; [done|]. split; [done|]. exact Hc.
Qed.

(** *** The counters after a list of increments *)

Lemma incr_no_wrap n : 0 <= n < INT_MAX -> incr n = n + 1.
Proof.
  intros Hn. unfold incr. apply int_wrap_id.
  unfold in_int, INT_MIN, INT_MAX in *. lia.
Qed.

Lemma tally_cons o o' os :
  tally o (o' :: os) = (if decide (o' = o) then 1 else 0) + tally o os.
Proof.
  unfold tally. rewrite filter_cons. case_decide; cbn [length]; lia.
Qed.

Lemma tally_bounds os :
  0 <= tally succeeded os /\ 0 <= tally failed os /\ 0 <= tally skipped os
  /\ tally succeeded os + tally failed os + tally skipped os
     = Z.of_nat (length os).
Proof.
  induction os as [|o os IH]; [done|].
  rewrite !tally_cons. cbn [length].
  destruct o; repeat case_decide; try done; lia.
Qed.

Lemma counters_tally os :
  Z.of_nat (length os) <= INT_MAX ->
  foldr bump (mk_counters 0 0 0) os
  = mk_counters (tally succeeded os) (tally failed os) (tally skipped os).
Proof.
  induction os as [|o os IH]; [done|]. cbn [length foldr]. intros Hlen.
  rewrite IH by lia. pose proof (tally_bounds os) as (H1 & H2 & H3 & H4).
  rewrite !tally_cons.
  destruct o; cbn; unfold incr_success, incr_fail, incr_skip; cbn;
    repeat case_decide; try done; rewrite incr_no_wrap by lia; f_equal; lia.
Qed.

(** *** The round-robin schedule *)

Lemma run_schedule_rtc sched m : rtc step_rel m (run_schedule sched m).
Proof.
  revert m. induction sched as [|i sched IH]; intros m; cbn; [done|].
  destruct (step i m) as [m1|] eqn:Hstep; [|apply IH].
  eapply rtc_l; [by exists i | apply IH].
Qed.

Lemma run_schedule_progress bp0 sched :
  forall m evs i t,
    invariant bp0 evs m -> i ∈ sched -> pool m !! i = Some t ->
    t <> Returned ->
    (work (run_schedule sched m) < work m)%nat.
Proof.
  induction sched as [|k sched IH]; intros m evs i t Inv Hin Hi Ht.
  { by apply elem_of_nil in Hin. }
  cbn [run_schedule]. destruct (step k m) as [m1|] eqn:Hstep.
  - destruct (step_invariant bp0 evs m k m1 Inv Hstep)
      as (new & _ & Inv1 & _ & Hwork).
    destruct (run_invariant bp0 m1 _ (run_schedule_rtc sched m1) _ Inv1)
      as (_ & _ & _ & _ & Hle).
    lia.
  - apply elem_of_cons in Hin as [->|Hin].
    + destruct (step_alive m k t Hi Ht) as [? ?]. congruence.
    + by eapply IH.
Qed.

Lemma round_robin_rtc fuel m : rtc step_rel m (round_robin fuel m).
Proof.
  revert m. induction fuel as [|fuel IH]; intros m; cbn; [done|].
  destruct (joined m); [done|].
  etrans; [apply run_schedule_rtc | apply IH].
Qed.

Lemma work_zero_joined m : work m = 0%nat -> joined m = true.
Proof.
  intros Hw. destruct (joined m) eqn:Hj; [done|].
  destruct (not_joined m Hj) as (i & t & Hi & Ht).
  pose proof (sum_list_with_in t alive (pool m)) as Hle.
  unfold work in Hw.
  assert (t ∈ pool m) by (apply list_elem_of_lookup; eauto).
  specialize (Hle ltac:(done)). destruct t; cbn in Hle; try done; lia.
Qed.

Lemma round_robin_joined bp0 fuel :
  forall m evs,
    invariant bp0 evs m -> (work m <= fuel)%nat ->
    joined (round_robin fuel m) = true.
Proof.
  induction fuel as [|fuel IH]; intros m evs Inv Hw; cbn [round_robin].
  { apply work_zero_joined. lia. }
  destruct (joined m) eqn:Hj; [done|].
  destruct (not_joined m Hj) as (i & t & Hi & Ht).
  assert (Hin : i ∈ seq 0 (length (pool m))).
  { apply elem_of_seq. apply lookup_lt_Some in Hi. lia. }
  pose proof (run_schedule_progress bp0 _ m evs i t Inv Hin Hi Ht) as Hlt.
  destruct (run_invariant bp0 m _ (run_schedule_rtc
              (seq 0 (length (pool m))) m) _ Inv)
    as (new & _ & Inv1 & _ & _).
  eapply IH; [exact Inv1 | lia].
Qed.

Lemma work_start bp w :
  work (start bp w)
  = (2 * length (job_queue bp) + Z.to_nat (thread_count bp))%nat.
Proof.
  unfold work, start. cbn [processor pool]. f_equal.
  induction (Z.to_nat (thread_count bp)) as [|n IH]; [done|].
  cbn. by rewrite IH.
Qed.

(** [process_all] returns, in a state that a run of the threads reaches. *)
Lemma process_all_joined bp w :
  joined (process_all bp w) = true
  /\ rtc step_rel (start bp w) (process_all bp w).
Proof.
  split; [|apply round_robin_rtc].
  eapply round_robin_joined; [apply start_invariant|].
  by rewrite work_start.
Qed.

(** *** The order of the log *)

Lemma omap_reverse {A B} (f : A -> option B) l :
  omap f (reverse l) = reverse (omap f l).
Proof.
  induction l as [|x l IH]; [done|].
  rewrite reverse_cons, omap_app, IH. csimpl.
  destruct (f x); [by rewrite reverse_cons | by rewrite app_nil_r].
Qed.

Lemma dequeued_app w w' evs :
  w_log w' = evs ++ w_log w ->
  dequeued w' = dequeued w ++ reverse (omap dequeue_of evs).
Proof.
  intros Hlog. unfold dequeued.
  by rewrite Hlog, reverse_app, omap_app, !omap_reverse.
Qed.

Lemma sorted_reverse (l : list ImageJob) :
  StronglySorted (flip cost_le) l -> StronglySorted cost_le (reverse l).
Proof.
  induction 1 as [|x l _ IH Hx]; [constructor|].
  rewrite reverse_cons.
  apply StronglySorted_app_2; [|done|by repeat constructor].
  intros x1 x2 H1 H2%list_elem_of_singleton. subst x2.
  rewrite elem_of_reverse in H1. rewrite Forall_forall in Hx. by apply Hx.
Qed.

Lemma sorted_distinct (l : list ImageJob) :
  StronglySorted cost_le l -> NoDup (estimated_memory_mb <$> l) ->
  StronglySorted cost_lt l.
Proof.
  induction 1 as [|x l _ IH Hx]; [constructor|].
  rewrite fmap_cons. intros [Hnotin Hnd]%NoDup_cons.
  constructor; [by apply IH|].
  apply Forall_forall. intros y Hy.
  rewrite Forall_forall in Hx. specialize (Hx y Hy).
  unfold cost_le, cost_lt in *.
  assert (estimated_memory_mb x <> estimated_memory_mb y); [|lia].
  intros E. apply Hnotin. rewrite E. by apply list_elem_of_fmap_2.
Qed.

Lemma tally_pos o os : 0 < tally o os <-> o ∈ os.
Proof.
  induction os as [|o' os IH]; [by rewrite elem_of_nil|].
  rewrite tally_cons, elem_of_cons. pose proof (tally_bounds os).
  assert (0 <= tally o os) by (destruct o; lia).
  case_decide; [subst; split; [by left | lia]|].
  rewrite <- IH. split; [right; lia | intros [?|?]; [done | lia]].
Qed.

(** *** The state in which [process_all] returns *)

(** In every run of the worker threads of a processor, once all threads
    have returned: the queue is empty; the jobs were taken in order of
    increasing estimate; [process_file] was called once for each job, with
    the fields of the processor as arguments; one counter was incremented
    for each of the calls. *)
Lemma run_final bp w final :
  1 <= thread_count bp ->
  rtc step_rel (start bp w) final -> joined final = true ->
  exists evs,
    w_log (world final) = evs ++ w_log w
    /\ job_queue (processor final) = []
    /\ dequeued (world final) = dequeued w ++ reverse (omap dequeue_of evs)
    /\ reverse (omap dequeue_of evs) ≡ₚ job_queue bp
    /\ StronglySorted cost_le (reverse (omap dequeue_of evs))
    /\ omap call_event evs ≡ₚ call_of bp <$> job_queue bp
    /\ length (omap counted_of evs) = length (job_queue bp)
    /\ counters (processor final)
       = foldr bump (counters bp) (omap counted_of evs)
    /\ same_config (processor final) bp.
Proof.
  intros HT Hrun Hj.
  destruct (run_invariant bp _ _ Hrun [] (start_invariant bp w))
    as (evs & Hlog & Inv & _ & _).
  rewrite app_nil_r in Inv. cbn in Hlog.
  destruct (drained bp evs final Inv Hj HT) as (Hq & Hd & Hc & Hn).
  exists evs. split; [done|]. split; [done|].
  split; [by apply dequeued_app|].
  split; [by rewrite reverse_Permutation|].
  split; [apply sorted_reverse, Inv|].
  split; [done|]. split; [done|]. split; apply Inv.
Qed.

(** *** The processor the constructor returns *)

Lemma constructor_returns quality force max_width max_height
    total_budget_mb worker_count :
  1 <= worker_count ->
  exists bp,
    BatchProcessor_new quality force max_width max_height total_budget_mb
      worker_count = Some bp
    /\ job_queue bp = [] /\ counters bp = mk_counters 0 0 0
    /\ thread_count bp = worker_count.
Proof.
  intros Hw. unfold BatchProcessor_new.
  destruct (Z.eqb_spec worker_count 0) as [->|_]; [lia|].
  eexists. by split; [reflexivity|].
Qed.

(** *** A batch as [main] sets it up and runs it *)

Lemma batch_final quality force max_width max_height total_budget_mb
    worker_count w files :
  1 <= worker_count ->
  Z.of_nat (length files) <= INT_MAX ->
  exists bp0,
    BatchProcessor_new quality force max_width max_height total_budget_mb
      worker_count = Some bp0
    /\ let bp := add_jobs w files bp0 in
       forall final,
         rtc step_rel (start bp w) final -> joined final = true ->
         exists evs,
           w_log (world final) = evs ++ w_log w
           /\ job_queue (processor final) = []
           /\ omap call_event evs ≡ₚ call_of bp <$> jobs_of w files
           /\ length (omap counted_of evs) = length files
           /\ counters (processor final)
              = mk_counters (tally succeeded (omap counted_of evs))
                  (tally failed (omap counted_of evs))
                  (tally skipped (omap counted_of evs)).
Proof.
  intros HT Hn.
  destruct (constructor_returns quality force max_width max_height
              total_budget_mb worker_count HT)
    as (bp0 & Hnew & Hq0 & Hc0 & HT0).
  exists bp0. split; [done|]. intros bp.
  destruct (add_jobs_spec w files bp0) as (Hq & Hc & Hcfg).
  fold bp in Hq, Hc, Hcfg.
  rewrite Hq0, app_nil_r in Hq. rewrite Hc0 in Hc.
  intros final Hrun Hjoin.
  assert (HTbp : 1 <= thread_count bp).
  { destruct Hcfg as (_ & _ & _ & _ & _ & ->). lia. }
  destruct (run_final bp w final HTbp Hrun Hjoin)
    as (evs & Hlog & Hempty & _ & _ & _ & Hcalls & Hlen & Hcnt & _).
  assert (Hlen' : length (omap counted_of evs) = length files).
  { rewrite Hlen, Hq, length_reverse. unfold jobs_of. by rewrite length_fmap. }
  rewrite Hc, counters_tally in Hcnt by lia.
  exists evs. split; [done|]. split; [done|].
  split; [by rewrite Hcalls, Hq, reverse_Permutation|]. by split.
Qed.


Lemma conversion_problem_call bp j w :
  conversion_problem w (input_path j) (output_path j) (quality bp)
    (max_width bp) (max_height bp) (memory_per_thread_mb bp) ->
  conversion_problem (record (call_of bp j) (warned bp j w))
    (input_path j) (output_path j) (quality bp) (max_width bp)
    (max_height bp) (memory_per_thread_mb bp).
Proof.
  intros [E|E|E|E|E|h E1 E2|h i E1 E2 E3|E1 E2 E3|E|h i E1 E2 E3].
  - by apply dimension_limit_exceeded.
  - by apply memory_limit_exceeded.
  - by apply context_not_allocated.
  - by apply file_not_read.
  - by apply no_primary_image.
  - by apply decode_error with h.
  - by apply no_pixel_data with h i.
  - by apply directory_not_created.
  - by apply output_not_opened.
  - by apply encode_error with h i.
Qed.

(** ** Files that stay as they are *)

Lemma keeps_refl x w : keeps x w w.
Proof. by intros q n _ H. Qed.

Lemma keeps_trans x w1 w2 w3 :
  keeps x w1 w2 -> keeps x w2 w3 -> keeps x w1 w3.
Proof. intros H1 H2 q n Hq H. apply H2, H1; done. Qed.

Lemma keeps_same_fs x w w' : w_fs w' = w_fs w -> keeps x w w'.
Proof. intros E q n _ H. by rewrite E. Qed.

Lemma create_directories_keeps fuel sys :
  forall fs p fs',
    create_directories fuel sys fs p = Some fs' ->
    forall q n, fs !! q = Some n -> fs' !! q = Some n.
Proof.
  induction fuel as [|fuel IH]; intros fs p fs'; cbn [create_directories];
    destruct (String.eqb p "" || String.eqb p "/");
    try (by intros [= <-]);
    destruct (fs !! p) as [node|] eqn:Hp;
    try (destruct (ntype node); by intros [= <-]); [done|].
  destruct (create_directories fuel sys fs (Path.parent_path p)) as [fs1|]
    eqn:Hrec; [|done].
  destruct (can_mkdir sys p); [|done]. intros [= <-] q n Hq.
  rewrite lookup_insert_ne by congruence. by eapply IH.
Qed.

Lemma put_content_keeps p c (fs : gmap string node) q :
  q <> p -> put_content p c fs !! q = fs !! q.
Proof. intros Hne. unfold put_content. by rewrite lookup_insert_ne. Qed.

Section Keeps.

Import Early.

Variables (heif_path jpeg_path : string).
Variables (quality max_width max_height max_memory_mb : Z).

Lemma make_output_dir_keeps x w :
  keeps x w (make_output_dir jpeg_path w).2.
Proof.
  unfold make_output_dir, mbind, early_bind, bind, ask.
  destruct (_ && _); [|apply keeps_refl].
  destruct (create_directories _ _ _ _) as [fs'|] eqn:Hmk; cbn;
    [|by apply keeps_same_fs].
  intros q n _ Hq. by eapply create_directories_keeps.
Qed.

Lemma encode_keeps img planar_data metadata_blocks w :
  keeps (Some jpeg_path) w
    (encode jpeg_path quality img planar_data metadata_blocks w).2.
Proof.
  unfold encode, mbind, early_bind, bind, ask, fopen_wb.
  destruct (_ && _); cbn; [|by apply keeps_same_fs].
  destruct (jpeg_ok _ _ _ _ _); cbn; intros q n Hq Hn;
    unfold thread_safe_print, record, set_fs; cbn [w_fs];
    rewrite !put_content_keeps by congruence; done.
Qed.

(** A conversion leaves every file but its output as it was. *)
Lemma convert_keeps w :
  keeps (Some jpeg_path) w
    (convert_heif_to_jpeg heif_path jpeg_path quality max_width max_height
       max_memory_mb w).2.
Proof.
  rewrite convert_unfold. unfold run, convert_steps.
  set (w1 := thread_safe_print _ _).
  apply keeps_trans with w1; [by apply keeps_same_fs|]. clearbody w1.
  unfold mbind, early_bind, bind at 1.
  pose proof (check_dimensions_spec heif_path max_width max_height w1) as Hcd.
  destruct (dimensions_exceed w1 heif_path max_width max_height).
  { destruct Hcd as [m ->]. by apply keeps_same_fs. }
  rewrite Hcd. unfold bind at 1. rewrite check_memory_spec.
  destruct (memory_exceeds w1 heif_path max_memory_mb);
    [by apply keeps_same_fs|].
  unfold bind at 1.
  destruct (decode_spec heif_path w1) as [[m ->] | [[m ->] |
    (handle & img & plane & _ & _ & _ & _ & ->)]];
    [by apply keeps_same_fs..|].
  set (w2 := record (CallDecode heif_path) w1).
  apply keeps_trans with w2; [by apply keeps_same_fs|]. clearbody w2.
  unfold bind at 1.
  pose proof (make_output_dir_keeps (Some jpeg_path) w2) as Hmk.
  destruct (make_output_dir jpeg_path w2) as [[b|[]] w3]; [done|].
  apply keeps_trans with w3; [done|].
  pose proof (encode_keeps img plane (extract_metadata handle) w3) as Henc.
  by destruct (encode _ _ _ _ _ w3) as [[b|b] w4].
Qed.

End Keeps.

(** Without overwriting, the loop body changes no file that exists. *)
Lemma handle_job_keeps j bp w :
  force_overwrite bp = false ->
  keeps None w (handle_job j bp w).2.
Proof.
  intros Hforce.
  destruct (handle_job_spec j bp w)
    as (o & mid & w' & -> & _ & _ & _ & _ & Hno & Hyes).
  cbn [snd].
  destruct (reaches_conversion w (input_path j) (output_path j)
              (force_overwrite bp)) eqn:Hr.
  - destruct (Hyes eq_refl) as (Hfs & _). intros q n _ Hq.
    rewrite Hfs. unfold reaches_conversion in Hr. rewrite Hforce in Hr.
    apply andb_true_iff in Hr as [_ Hout]. cbn in Hout.
    rewrite andb_true_r in Hout. apply negb_true_iff in Hout.
    apply (convert_keeps (input_path j) (output_path j)); [|done].
    intros [= ->]. unfold fs_exists in Hout. by rewrite Hq in Hout.
  - destruct (Hno eq_refl) as (Hfs & _). by apply keeps_same_fs.
Qed.

Lemma step_keeps i m m' :
  force_overwrite (processor m) = false -> step i m = Some m' ->
  keeps None (world m) (world m')
  /\ force_overwrite (processor m') = false.
Proof.
  intros Hforce. unfold step.
  destruct (pool m !! i) as [[|j|]|]; cbn; try done.
  - unfold fetch. destruct (pq_empty _); [|destruct (pq_top _ _)];
      intros [= <-]; cbn; (split; [by apply keeps_same_fs | done]).
  - pose proof (handle_job_keeps j (processor m) (world m) Hforce) as Hk.
    destruct (handle_job_shape j (processor m) (world m))
      as (o & mid & w' & E & _). rewrite E in Hk |- *.
    by intros [= <-].
Qed.

(** Without overwriting, no file that exists when a batch starts changes
    while it runs. *)
Lemma run_keeps bp w m :
  force_overwrite bp = false -> rtc step_rel (start bp w) m ->
  keeps None w (world m) /\ force_overwrite (processor m) = false.
Proof.
  intros Hforce. revert m. apply rtc_ind_r.
  - split; [apply keeps_refl | done].
  - intros m m' Hrun [i Hstep] [IH1 IH2].
    destruct (step_keeps i m m' IH2 Hstep) as [Hk Hf].
    split; [by eapply keeps_trans | done].
Qed.

Lemma keeps_exists w w' p :
  keeps None w w' ->
  (fs_exists w p = true -> fs_exists w' p = true)
  /\ (is_regular_file w p = true -> is_regular_file w' p = true)
  /\ (fs_exists w p = true -> w_fs w' !! p = w_fs w !! p).
Proof.
  intros Hk. unfold fs_exists, is_regular_file.
  destruct (w_fs w !! p) as [n|] eqn:Hp; [|done].
  by rewrite (Hk p n ltac:(done) Hp).
Qed.

(** ** The program with and without the exception *)

Section ThrowingFacts.

Import Early.

Variable stat_fails : string -> bool.

(** the stages before the output directory is looked at change no file *)
Lemma decode_stages heif_path max_width max_height max_memory_mb w r w' :
  (check_dimensions heif_path max_width max_height ;;
   check_memory heif_path max_memory_mb ;;
   decode heif_path) w = (inr r, w') ->
  w_fs w' = w_fs w /\ extends quiet w w'.
Proof.
  unfold mbind, early_bind. unfold bind at 1.
  pose proof (check_dimensions_spec heif_path max_width max_height w) as Hcd.
  destruct (dimensions_exceed w heif_path max_width max_height).
  { by destruct Hcd as [m ->]. }
  rewrite Hcd. unfold bind at 1. rewrite check_memory_spec.
  destruct (memory_exceeds w heif_path max_memory_mb); [done|].
  destruct (decode_spec heif_path w) as [[m ->] | [[m ->] |
    (handle & img & plane & _ & _ & _ & _ & ->)]]; [done..|].
  intros [= <- <-]. split; [done|]. by apply extends_record.
Qed.

Lemma convert_steps_split heif_path jpeg_path quality max_width max_height
    max_memory_mb w :
  convert_steps heif_path jpeg_path quality max_width max_height
    max_memory_mb w
  = bind (check_dimensions heif_path max_width max_height ;;
          check_memory heif_path max_memory_mb ;;
          decode heif_path)
      (fun '(img, planar_data, metadata_blocks) =>
         make_output_dir jpeg_path ;;
         encode jpeg_path quality img planar_data metadata_blocks) w.
Proof.
  unfold convert_steps, mbind, early_bind, bind.
  destruct (check_dimensions heif_path max_width max_height w)
    as [[b|[]] w2]; [done|].
  destruct (check_memory heif_path max_memory_mb w2) as [[b|[]] w3]; [done|].
  by destruct (decode heif_path w3) as [[b|[[img plane] md]] w4].
Qed.

(** A conversion that returns has the result of the definition without the
    exception; it throws only where the status of the output directory
    cannot be read, before any file has changed. *)
Lemma convert_completion heif_path jpeg_path quality max_width max_height
    max_memory_mb w :
  match Throwing.convert_heif_to_jpeg stat_fails heif_path jpeg_path quality
          max_width max_height max_memory_mb w with
  | Throwing.Normal r =>
      r = convert_heif_to_jpeg heif_path jpeg_path quality max_width
            max_height max_memory_mb w
  | Throwing.Thrown w' =>
      stat_fails (Path.parent_path jpeg_path) = true
      /\ w_fs w' = w_fs w
      /\ extends minor w w'
      /\ Path.parent_path jpeg_path <> ""%string
  end.
Proof.
  unfold Throwing.convert_heif_to_jpeg. rewrite convert_unfold.
  set (w1 := thread_safe_print _ _).
  assert (H1 : extends minor w w1).
  { exists [Console (MsgConverting heif_path jpeg_path);
            CallConvert heif_path jpeg_path quality max_width max_height
              max_memory_mb].
    split; [done|]. split; [by repeat constructor | done]. }
  assert (Hfs : w_fs w1 = w_fs w) by done. clearbody w1.
  pose proof (decode_stages heif_path max_width max_height max_memory_mb w1)
    as Hst.
  unfold run. rewrite convert_steps_split. unfold bind at 1.
  destruct ((check_dimensions heif_path max_width max_height ;;
             check_memory heif_path max_memory_mb ;;
             decode heif_path) w1) as [[b|[[img plane] md]] w4]; [done|].
  destruct (Hst _ _ eq_refl) as [Hfs4 Hq4].
  unfold Throwing.fs_exists.
  destruct (String.eqb_spec (Path.parent_path jpeg_path) "") as [|Hne];
    [done|].
  destruct (stat_fails (Path.parent_path jpeg_path)); [|done].
  split; [done|]. split; [congruence|]. split; [|done].
  eapply extends_trans; [exact H1|].
  destruct Hq4 as (evs & ? & ? & ?). exists evs. split; [done|].
  split; [|done]. eapply Forall_impl; [done | apply quiet_minor].
Qed.

Lemma convert_no_throw heif_path jpeg_path quality max_width max_height
    max_memory_mb w :
  stat_fails (Path.parent_path jpeg_path) = false ->
  Throwing.convert_heif_to_jpeg stat_fails heif_path jpeg_path quality
    max_width max_height max_memory_mb w
  = Throwing.Normal
      (convert_heif_to_jpeg heif_path jpeg_path quality max_width max_height
         max_memory_mb w).
Proof.
  intros Hp.
  pose proof (convert_completion heif_path jpeg_path quality max_width
                max_height max_memory_mb w) as H.
  destruct (Throwing.convert_heif_to_jpeg _ _ _ _ _ _ _ _) as [r|w'].
  - by rewrite H.
  - destruct H as [H _]. congruence.
Qed.

(** [process_file] that returns has the result of the definition without
    the exception; it throws where a status it asks for cannot be read,
    after its call was logged and before a counter was incremented or a
    file changed. *)
Lemma process_file_completion input output quality force max_width
    max_height max_memory_mb w c :
  match Throwing.process_file stat_fails input output quality force
          max_width max_height max_memory_mb w c with
  | Throwing.Normal r =>
      r = process_file input output quality force max_width max_height
            max_memory_mb w c
      /\ stat_fails input = false
  | Throwing.Thrown w' =>
      w_fs w' = w_fs w
      /\ (exists mid,
            w_log w' = mid ++ CallProcessFile input output quality force
                                max_width max_height max_memory_mb
                              :: w_log w
            /\ Forall minor mid)
      /\ (stat_fails input = true
          \/ (fs_exists w input = true /\ is_regular_file w input = true
              /\ recognized_extension input = true
              /\ (stat_fails output = true
                  \/ (fs_exists w output && negb force = false
                      /\ stat_fails (Path.parent_path output) = true))))
  end.
Proof.
  unfold Throwing.process_file, process_file, Throwing.fs_exists,
    Throwing.is_regular_file.
  set (w0 := record _ w).
  change (fs_exists w0) with (fs_exists w).
  change (is_regular_file w0) with (is_regular_file w).
  destruct (stat_fails input) eqn:Hi.
  { split; [done|]. split; [by exists []|]. by left. }
  destruct (fs_exists w input); cbn [negb]; [|done].
  destruct (is_regular_file w input); cbn [negb]; [|done].
  destruct (recognized_extension input); cbn [negb]; [|done].
  destruct (stat_fails output) eqn:Ho.
  { split; [done|]. split; [by exists []|]. right. auto. }
  destruct (fs_exists w output && negb force) eqn:Hskip; [done|].
  pose proof (convert_completion input output quality max_width max_height
                max_memory_mb w0) as Hc.
  destruct (Throwing.convert_heif_to_jpeg _ _ _ _ _ _ _ _) as [[ok w']|w'].
  - rewrite <- Hc. split; [|done]. by destruct ok.
  - destruct Hc as (Hp & Hfs & (mid & Hlog & Hmid & _) & _).
    split; [done|]. split; [by exists mid|]. right. auto 10.
Qed.

Lemma process_file_no_throw input output quality force max_width
    max_height max_memory_mb w c :
  stat_fails input = false -> stat_fails output = false ->
  stat_fails (Path.parent_path output) = false ->
  Throwing.process_file stat_fails input output quality force max_width
    max_height max_memory_mb w c
  = Throwing.Normal
      (process_file input output quality force max_width max_height
         max_memory_mb w c).
Proof.
  intros Hi Ho Hp.
  pose proof (process_file_completion input output quality force max_width
                max_height max_memory_mb w c) as H.
  destruct (Throwing.process_file _ _ _ _ _ _ _ _ _ _) as [r|w'].
  - destruct H as [-> _]. done.
  - destruct H as (_ & _ & [H | (_ & _ & _ & [H | [_ H]])]); congruence.
Qed.

(** the loop body *)
Lemma handle_job_completion j bp w :
  match Throwing.handle_job stat_fails j bp w with
  | Throwing.Normal r =>
      r = handle_job j bp w /\ stat_fails (input_path j) = false
  | Throwing.Thrown w' =>
      w_fs w' = w_fs w
      /\ (exists mid,
            w_log w' = mid ++ call_of bp j :: over_limit_warning bp j
                              ++ w_log w
            /\ Forall minor mid)
      /\ (stat_fails (input_path j) = true
          \/ (fs_exists w (input_path j) = true
              /\ is_regular_file w (input_path j) = true
              /\ recognized_extension (input_path j) = true
              /\ (stat_fails (output_path j) = true
                  \/ (fs_exists w (output_path j)
                      && negb (force_overwrite bp) = false
                      /\ stat_fails (Path.parent_path (output_path j))
                         = true))))
  end.
Proof.
  unfold Throwing.handle_job, handle_job, over_limit_warning, call_of.
  destruct (memory_per_thread_mb bp <? estimated_memory_mb j).
  - set (w1 := thread_safe_print _ w).
    pose proof (process_file_completion (input_path j) (output_path j)
                  (quality bp) (force_overwrite bp) (max_width bp)
                  (max_height bp) (memory_per_thread_mb bp) w1 (counters bp))
      as H.
    destruct (Throwing.process_file _ _ _ _ _ _ _ _ _ _) as [[w' c']|w'].
    + destruct H as [<- ?]. done.
    + exact H.
  - pose proof (process_file_completion (input_path j) (output_path j)
                  (quality bp) (force_overwrite bp) (max_width bp)
                  (max_height bp) (memory_per_thread_mb bp) w (counters bp))
      as H.
    destruct (Throwing.process_file _ _ _ _ _ _ _ _ _ _) as [[w' c']|w'].
    + destruct H as [<- ?]. done.
    + exact H.
Qed.

Lemma handle_job_no_throw j bp w :
  stat_fails (input_path j) = false -> stat_fails (output_path j) = false ->
  stat_fails (Path.parent_path (output_path j)) = false ->
  Throwing.handle_job stat_fails j bp w = Throwing.Normal (handle_job j bp w).
Proof.
  intros Hi Ho Hp.
  pose proof (handle_job_completion j bp w) as H.
  destruct (Throwing.handle_job stat_fails j bp w) as [r|w'].
  - destruct H as [-> _]. done.
  - destruct H as (_ & _ & [H | (_ & _ & _ & [H | [_ H]])]); congruence.
Qed.

(** *** Steps and runs *)

Lemma step_alive_old i m m' :
  Throwing.step stat_fails i (Throwing.Alive m) = Some (Throwing.Alive m') ->
  step i m = Some m'.
Proof.
  unfold Throwing.step, step, Throwing.worker_thread, worker_thread.
  destruct (pool m !! i) as [[|j|]|]; [| |done..].
  - destruct (fetch (processor m) (world m)) as [[t' bp'] w'].
    by intros [= <-].
  - pose proof (handle_job_completion j (processor m) (world m)) as H.
    destruct (Throwing.handle_job _ _ _ _) as [[[t' bp'] w']|w']; [|done].
    destruct H as [<- _]. by intros [= <-].
Qed.

Lemma step_none_old i m :
  Throwing.step stat_fails i (Throwing.Alive m) = None <-> step i m = None.
Proof.
  unfold Throwing.step, step, Throwing.worker_thread, worker_thread.
  destruct (pool m !! i) as [[|j|]|]; [| |done..].
  - by destruct (fetch (processor m) (world m)) as [[t' bp'] w'].
  - destruct (Throwing.handle_job _ _ _ _) as [[[t' bp'] w']|w'],
             (handle_job j (processor m) (world m)) as [[t'' bp''] w''];
      done.
Qed.

Lemma step_terminated i m w' :
  Throwing.step stat_fails i (Throwing.Alive m)
    = Some (Throwing.Terminated w') ->
  exists j, pool m !! i = Some (Holding j)
            /\ Throwing.handle_job stat_fails j (processor m) (world m)
               = Throwing.Thrown w'.
Proof.
  unfold Throwing.step, Throwing.worker_thread.
  destruct (pool m !! i) as [[|j|]|]; [| |done..].
  - by destruct (fetch (processor m) (world m)) as [[t' bp'] w''].
  - destruct (Throwing.handle_job _ _ _ _) as [[[t' bp'] w'']|w''] eqn:E;
      [done|].
    intros [= <-]. by exists j.
Qed.

Lemma run_schedule_terminated sched w :
  Throwing.run_schedule stat_fails sched (Throwing.Terminated w)
  = Throwing.Terminated w.
Proof. induction sched as [|i sched IH]; [done|]. exact IH. Qed.

Lemma round_robin_terminated fuel w :
  Throwing.round_robin stat_fails fuel (Throwing.Terminated w)
  = Throwing.Terminated w.
Proof. by destruct fuel. Qed.

Lemma run_schedule_rtc' sched p :
  rtc (Throwing.step_rel stat_fails) p
    (Throwing.run_schedule stat_fails sched p).
Proof.
  revert p. induction sched as [|i sched IH]; intros p;
    cbn [Throwing.run_schedule]; [done|].
  destruct (Throwing.step stat_fails i p) as [p1|] eqn:Hstep; [|apply IH].
  eapply rtc_l; [by exists i | apply IH].
Qed.

Lemma round_robin_rtc' fuel p :
  rtc (Throwing.step_rel stat_fails) p
    (Throwing.round_robin stat_fails fuel p).
Proof.
  revert p. induction fuel as [|fuel IH]; intros p;
    cbn [Throwing.round_robin]; [done|].
  destruct p as [m|w]; [|done]. destruct (joined m); [done|].
  etrans; [apply run_schedule_rtc' | apply IH].
Qed.

(** a run of the process that is still alive is a run of the machine *)
Lemma rtc_alive_old p p' :
  rtc (Throwing.step_rel stat_fails) p p' ->
  forall m m', p = Throwing.Alive m -> p' = Throwing.Alive m' ->
               rtc step_rel m m'.
Proof.
  induction 1 as [p | p p1 p' [i Hstep] Hrest IH]; intros m m' -> E.
  - injection E as ->. done.
  - destruct p1 as [m1|w1].
    + eapply rtc_l; [exists i; by apply step_alive_old | by apply IH].
    + subst p'. inversion Hrest as [|? q ? [k Hk]]. done.
Qed.

Lemma run_schedule_alive_old sched m m' :
  Throwing.run_schedule stat_fails sched (Throwing.Alive m)
    = Throwing.Alive m' ->
  run_schedule sched m = m'.
Proof.
  revert m. induction sched as [|i sched IH]; intros m;
    cbn [Throwing.run_schedule run_schedule].
  { by intros [= ->]. }
  destruct (Throwing.step stat_fails i (Throwing.Alive m)) as [[m1|w1]|]
    eqn:Hstep.
  - rewrite (step_alive_old _ _ _ Hstep). apply IH.
  - by rewrite run_schedule_terminated.
  - apply step_none_old in Hstep. rewrite Hstep. apply IH.
Qed.

Lemma round_robin_alive_old fuel m m' :
  Throwing.round_robin stat_fails fuel (Throwing.Alive m)
    = Throwing.Alive m' ->
  round_robin fuel m = m'.
Proof.
  revert m. induction fuel as [|fuel IH]; intros m;
    cbn [Throwing.round_robin round_robin].
  { by intros [= ->]. }
  destruct (joined m); [by intros [= ->]|].
  destruct (Throwing.run_schedule stat_fails (seq 0 (length (pool m)))
              (Throwing.Alive m)) as [m1|w1] eqn:Hrun.
  - rewrite (run_schedule_alive_old _ _ _ Hrun). apply IH.
  - by rewrite round_robin_terminated.
Qed.

(** [process_all] ends with all threads joined, unless the process was
    terminated. *)
Lemma process_all_completion bp w sched :
  match Throwing.process_all stat_fails bp w sched with
  | Throwing.Alive final =>
      joined final = true /\ rtc step_rel (start bp w) final
  | Throwing.Terminated w' => True
  end.
Proof.
  unfold Throwing.process_all.
  destruct (Throwing.run_schedule stat_fails sched
              (Throwing.Alive (start bp w))) as [m1|w1] eqn:Hrun.
  2:{ by rewrite round_robin_terminated. }
  apply run_schedule_alive_old in Hrun.
  assert (Hr1 : rtc step_rel (start bp w) m1).
  { rewrite <- Hrun. apply run_schedule_rtc. }
  destruct (run_invariant bp _ _ Hr1 [] (start_invariant bp w))
    as (evs & _ & Inv & _ & Hwork).
  rewrite work_start in Hwork.
  destruct (Throwing.round_robin _ _ _) as [final|w'] eqn:Hrr; [|done].
  apply round_robin_alive_old in Hrr. subst final. split.
  - by eapply round_robin_joined.
  - etrans; [exact Hr1 | apply round_robin_rtc].
Qed.

End ThrowingFacts.

(** ** [main] *)

Section MainFacts.

Lemma digits_lower acc s : 0 <= acc -> acc <= Number.digits acc s.
Proof.
  revert acc. induction s as [|c r IH]; intros acc Hacc; cbn; [lia|].
  unfold Number.digit.
  destruct ((48 <=? N_of_ascii c) && (N_of_ascii c <=? 57))%N eqn:E; [|lia].
  apply andb_true_iff in E as [E1%N.leb_le E2%N.leb_le].
  etrans; [|apply IH]; lia.
Qed.

Lemma stoi_range s n : Number.stoi s = Number.number n -> in_int n.
Proof.
  unfold Number.stoi. destruct (Number.subject s) as [[neg m]|]; [|done].
  destruct (_ && _) eqn:E; [|done]. intros [= <-].
  apply andb_true_iff in E as [E1%Z.leb_le E2%Z.leb_le]. done.
Qed.

Lemma subject_nonneg s negative magnitude :
  Number.subject s = Some (negative, magnitude) -> 0 <= magnitude.
Proof.
  unfold Number.subject.
  destruct (Number.skip_space s) as [|c r]; [done|].
  destruct (Ascii.eqb c "-"); [|destruct (Ascii.eqb c "+")];
    destruct (Number.starts_with_digit _); try done;
    intros E; injection E as _ <-;
    first [ apply (digits_lower 0 r); lia
          | apply (digits_lower 0 (String c r)); lia ].
Qed.

Lemma stoul_range s n :
  Number.stoul s = Number.number n -> 0 <= n < SIZE_MOD.
Proof.
  unfold Number.stoul.
  destruct (Number.subject s) as [[neg m]|] eqn:E; [|done].
  apply subject_nonneg in E.
  destruct (Z.ltb_spec m SIZE_MOD); [|done]. intros [= <-].
  destruct neg; [|lia]. unfold to_size_t, SIZE_MOD.
  apply Z.mod_pos_bound. lia.
Qed.

(** What the loop over the arguments keeps and yields: the numbers stay in
    their ranges, the inputs are arguments, in their order, and help is
    shown only where it was asked for. *)
Lemma parse_args_spec n :
  forall args v v',
    (length args <= n)%nat ->
    Main.parse_args args v = inr v' ->
    (valid_locals v -> valid_locals v')
    /\ (exists inputs,
          Main.input_filenames v' = Main.input_filenames v ++ inputs
          /\ sublist inputs args)
    /\ (Main.show_help v' = true ->
        Main.show_help v = true
        \/ "-h"%string ∈ args \/ "--help"%string ∈ args).
Proof.
  induction n as [|n IH]; intros args v v' Hlen.
  { destruct args; [|cbn in Hlen; lia]. intros [= <-].
    split; [done|]. split; [|by left]. exists []. by rewrite app_nil_r. }
  destruct args as [|arg rest].
  { intros [= <-]. split; [done|]. split; [|by left].
    exists []. by rewrite app_nil_r. }
  cbn [length] in Hlen. cbn [Main.parse_args].
  destruct (Main.is_one_of arg ["-h"; "--help"]%string) eqn:Ehelp.
  { intros [= <-]. cbn. split; [done|].
    split; [exists []; split; [by rewrite app_nil_r | apply sublist_nil_l]|].
    intros _. right. unfold Main.is_one_of in Ehelp. cbn in Ehelp.
    rewrite orb_false_r in Ehelp.
    apply orb_true_iff in Ehelp as [E%String.eqb_eq | E%String.eqb_eq];
      subst arg; [left | right]; left. }
  assert (Hrec : forall rest' v1,
            (length rest' <= n)%nat -> sublist rest' rest ->
            Main.parse_args rest' v1 = inr v' ->
            (valid_locals v -> valid_locals v1) ->
            Main.input_filenames v1 = Main.input_filenames v
            \/ Main.input_filenames v1 = Main.input_filenames v ++ [arg] ->
            Main.show_help v1 = Main.show_help v ->
            (valid_locals v -> valid_locals v')
            /\ (exists inputs,
                  Main.input_filenames v' = Main.input_filenames v ++ inputs
                  /\ sublist inputs (arg :: rest))
            /\ (Main.show_help v' = true ->
                Main.show_help v = true
                \/ "-h"%string ∈ arg :: rest
                \/ "--help"%string ∈ arg :: rest)).
  { intros rest' v1 Hl Hsub Hp Hv Hin Hh.
    destruct (IH rest' v1 v' Hl Hp) as (H1 & (inputs & H2 & H3) & H4).
    split; [auto|]. split.
    - destruct Hin as [Hin|Hin]; rewrite Hin in H2.
      + exists inputs. split; [done|]. apply sublist_cons. by etrans.
      + exists (arg :: inputs). split; [by rewrite H2, <- app_assoc|].
        apply sublist_skip. by etrans.
    - intros Hs. destruct (H4 Hs) as [H|[H|H]].
      + left. congruence.
      + right; left. right. by eapply elem_of_sublist.
      + right; right. right. by eapply elem_of_sublist. }
  assert (Hsub2 : forall value rest', rest = value :: rest' ->
                                      sublist rest' rest).
  { intros value rest' ->. by apply sublist_cons. }
  unfold valid_locals in *.
  repeat (case_match; try done);
    intros Hp;
    (eapply Hrec; [| |exact Hp|..]; cbn;
     [ subst; cbn [length] in *; lia
     | first [done | by eapply Hsub2]
     | intros (? & ? & ? & ?);
       repeat match goal with
              | H : Number.stoi _ = Number.number _ |- _ =>
                  apply stoi_range in H; unfold in_int, INT_MIN in H
              | H : Number.stoul _ = Number.number _ |- _ =>
                  apply stoul_range in H
              | H : (_ && _) = true |- _ => apply andb_true_iff in H as [? ?]
              | H : (_ <=? _) = true |- _ => apply Z.leb_le in H
              | H : (_ <? _) = false |- _ => apply Z.ltb_ge in H
              end;
       repeat split; try done; try lia; intros; try done; try lia; auto
     | auto
     | done ]).
  all: match goal with
       | H : ?a = false -> _, H' : ?a = false |- _ => specialize (H H'); lia
       end.
Qed.

End MainFacts.

Section MainSetup.

Variable stat_fails : string -> bool.

(** [main] never makes a processor without a thread. *)
Lemma core_count_positive host : 1 <= (get_performance_core_count host).1.
Proof.
  unfold get_performance_core_count.
  assert (Hu : forall z, 0 <= to_unsigned z).
  { intros z. unfold to_unsigned. apply Z.mod_pos_bound. lia. }
  set (from_physicalcpu := match physicalcpu host with
                           | Some _ => _ | None => _ end).
  assert (H : forall pl : Z * list main_line,
            0 <= pl.1 ->
            1 <= (let '(performance_cores, lines) := pl in
                  if performance_cores =? 0
                  then (Z.max 2 (hardware_concurrency host / 2),
                        lines ++ [LineDefaultThreads
                                    (Z.max 2 (hardware_concurrency host / 2))])
                  else (performance_cores, lines)).1).
  { intros [c l] Hc. cbn in *. destruct (Z.eqb_spec c 0); cbn; lia. }
  assert (Hp : 0 <= from_physicalcpu.1).
  { unfold from_physicalcpu. destruct (physicalcpu host) as [p|]; [|done].
    destruct (0 <? p); [apply Hu | done]. }
  destruct (perflevel0_physicalcpu host) as [p|]; [|by apply H].
  destruct (0 <? p); [|by apply H].
  apply (H (to_unsigned p, [LineDetectedCores (to_unsigned p)])), Hu.
Qed.

(** The ends of [main] before [process_all]. *)
Lemma main_setup_spec host argv w :
  match Throwing.main_setup stat_fails host argv w with
  | (lines, w1, Throwing.Exit status) =>
      w1 = w /\ (status = 0 \/ status = 1)
      /\ (status = 0 ->
          "-h"%string ∈ tail argv \/ "--help"%string ∈ tail argv)
  | (lines, w1, Throwing.Batch bp memory_budget_mb max_threads) =>
      exists v bp0,
        Main.parse_args (tail argv) Main.initial = inr v
        /\ Main.show_help v = false
        /\ Main.input_filenames v <> []
        /\ max_threads = (get_performance_core_count host).1
        /\ memory_budget_mb
           = (if Main.auto_memory_budget v
              then to_size_t (get_available_memory_mb host * 3) / 4
              else Main.memory_budget_mb v)
        /\ BatchProcessor_new (Main.quality v) (Main.force_overwrite v)
             (Main.max_width v) (Main.max_height v) memory_budget_mb
             max_threads = Some bp0
        /\ bp = add_jobs w1
                  (Main.job_paths (Main.output_directory v)
                     <$> Main.input_filenames v) bp0
        /\ w_log w1 = w_log w /\ w_sys w1 = w_sys w
        /\ (forall q n, w_fs w !! q = Some n -> w_fs w1 !! q = Some n)
  | (lines, w1, Throwing.Abort) =>
      w1 = w /\ exists p, stat_fails p = true
  | (lines, w1, Throwing.Undefined) => False
  end.
Proof.
  unfold Throwing.main_setup.
  pose proof (core_count_positive host) as Hcores.
  destruct (get_performance_core_count host) as [max_threads lines].
  cbn [fst] in Hcores.
  destruct (Main.parse_args (tail argv) Main.initial) as [line|v] eqn:Hparse.
  { split; [done|]. split; [by right | done]. }
  destruct (Main.show_help v) eqn:Hhelp; cbn [orb].
  { split; [done|]. split; [by left|]. intros _.
    destruct (parse_args_spec _ _ _ _ (le_n _) Hparse) as (_ & _ & H).
    destruct (H Hhelp) as [?|?]; [done | done]. }
  case_bool_decide as Hin.
  { split; [done|]. split; [by right | done]. }
  assert (Hnew : forall budget,
            BatchProcessor_new (Main.quality v) (Main.force_overwrite v)
              (Main.max_width v) (Main.max_height v) budget max_threads
            <> None).
  { intros budget. unfold BatchProcessor_new.
    by destruct (Z.eqb_spec max_threads 0) as [->|_]; [lia|]. }
  unfold Throwing.fs_exists.
  destruct (String.eqb (Main.output_directory v) "") eqn:Hout;
    cbn [negb andb]; lazy beta iota zeta.
  - destruct (Main.auto_memory_budget v) eqn:Hauto; lazy beta iota zeta;
      (destruct (BatchProcessor_new _ _ _ _ _ _) as [bp0|] eqn:E;
       [|by apply Hnew in E]);
      exists v, bp0; by rewrite ?Hauto.
  - destruct (stat_fails (Main.output_directory v)) eqn:Hsf;
      lazy beta iota zeta.
    { split; [done|]. by eexists. }
    destruct (fs_exists w (Main.output_directory v)); cbn [negb andb];
      lazy beta iota zeta.
    + destruct (Main.auto_memory_budget v) eqn:Hauto; lazy beta iota zeta;
        (destruct (BatchProcessor_new _ _ _ _ _ _) as [bp0|] eqn:E;
         [|by apply Hnew in E]);
        exists v, bp0; by rewrite ?Hauto.
    + destruct (create_directories _ _ _ _) as [fs'|] eqn:Hmk;
        lazy beta iota zeta.
      2:{ split; [done|]. split; [by right | done]. }
      destruct (Main.auto_memory_budget v) eqn:Hauto; lazy beta iota zeta;
        (destruct (BatchProcessor_new _ _ _ _ _ _) as [bp0|] eqn:E;
         [|by apply Hnew in E]);
        exists v, bp0; rewrite ?Hauto; do 9 (split; [done|]);
        intros q n Hq; by eapply create_directories_keeps.
Qed.

End MainSetup.

Section Terminated.

Variable stat_fails : string -> bool.

(** a process is terminated only where a status cannot be read *)
Lemma terminated_stat p p' :
  rtc (Throwing.step_rel stat_fails) p p' ->
  forall m w', p = Throwing.Alive m -> p' = Throwing.Terminated w' ->
               exists path, stat_fails path = true.
Proof.
  induction 1 as [p | p p1 p' [i Hstep] Hrest IH]; intros m w' -> E; [done|].
  destruct p1 as [m1|w1]; [by eapply IH|].
  apply step_terminated in Hstep as (j & _ & Hthrow).
  pose proof (handle_job_completion stat_fails j (processor m) (world m))
    as H.
  rewrite Hthrow in H.
  destruct H as (_ & _ & [H | (_ & _ & _ & [H | [_ H]])]); eauto.
Qed.

Lemma process_all_rtc bp w sched :
  rtc (Throwing.step_rel stat_fails) (Throwing.Alive (start bp w))
    (Throwing.process_all stat_fails bp w sched).
Proof.
  unfold Throwing.process_all.
  etrans; [apply run_schedule_rtc' | apply round_robin_rtc'].
Qed.

End Terminated.

(** ** Paths *)

Section PathFacts.

Import Path.

Implicit Types (c : ascii) (s t u p : string).

Lemma append_cons a s t : String a s +:+ t = String a (s +:+ t).
Proof. reflexivity. Qed.

Lemma append_nil t : "" +:+ t = t.
Proof. reflexivity. Qed.

Lemma after_last_before_last c s :
  after_last c s = None <-> before_last c s = None.
Proof.
  induction s as [|a r IH]; cbn; [done|].
  destruct (after_last c r), (before_last c r), (Ascii.eqb a c);
    try done; by destruct IH as [H1 H2]; first [specialize (H1 eq_refl)
                                               | specialize (H2 eq_refl)].
Qed.

Lemma after_last_app c s t :
  after_last c t = None ->
  after_last c (s +:+ t) = (fun u => u +:+ t) <$> after_last c s.
Proof.
  intros Ht. induction s as [|a r IH]; rewrite ?append_cons, ?append_nil; cbn;
    [done|].
  rewrite IH. destruct (after_last c r); cbn; [done|].
  by destruct (Ascii.eqb a c).
Qed.

Lemma before_last_app c s t :
  after_last c t = None -> before_last c (s +:+ t) = before_last c s.
Proof.
  intros Ht. induction s as [|a r IH]; rewrite ?append_cons, ?append_nil; cbn.
  - by apply after_last_before_last.
  - by rewrite IH.
Qed.

Lemma after_last_sep c s t :
  after_last c t = None -> after_last c (s +:+ String c t) = Some t.
Proof.
  intros Ht. induction s as [|a r IH]; rewrite ?append_cons, ?append_nil; cbn.
  - by rewrite Ht, Ascii.eqb_refl.
  - by rewrite IH.
Qed.

Lemma before_last_sep c s t :
  after_last c t = None -> before_last c (s +:+ String c t) = Some s.
Proof.
  intros Ht. induction s as [|a r IH]; rewrite ?append_cons, ?append_nil; cbn.
  - apply after_last_before_last in Ht. by rewrite Ht, Ascii.eqb_refl.
  - by rewrite IH.
Qed.

Lemma after_last_free c s t : after_last c s = Some t -> after_last c t = None.
Proof.
  revert t. induction s as [|a r IH]; intros t; cbn; [done|].
  destruct (after_last c r) as [u|] eqn:E.
  - intros [= <-]. by apply IH.
  - destruct (Ascii.eqb a c); [|done]. by intros [= <-].
Qed.

Lemma after_last_prefix c s t :
  after_last c (s +:+ t) = None -> after_last c s = None.
Proof.
  induction s as [|a r IH]; rewrite ?append_cons, ?append_nil; cbn; [done|].
  destruct (after_last c (r +:+ t)); [done|].
  rewrite IH by done. by destruct (Ascii.eqb a c).
Qed.

Lemma after_last_cons_None c a s :
  after_last c (String a s) = None ->
  Ascii.eqb a c = false /\ after_last c s = None.
Proof.
  cbn. destruct (after_last c s); [done|]. by destruct (Ascii.eqb a c).
Qed.

(** the file name of a path has no separator *)
Lemma filename_free p : after_last "/" (filename p) = None.
Proof.
  unfold filename. destruct (after_last "/" p) as [f|] eqn:E; [|done].
  by eapply after_last_free.
Qed.

Lemma filename_of_free s : after_last "/" s = None -> filename s = s.
Proof. unfold filename. by intros ->. Qed.

Lemma filename_idemp p : filename (filename p) = filename p.
Proof. apply filename_of_free, filename_free. Qed.

Lemma before_after_last c s t u :
  after_last c s = Some t -> before_last c s = Some u ->
  u +:+ String c t = s.
Proof.
  revert t u. induction s as [|a r IH]; intros t u; cbn; [done|].
  destruct (after_last c r) as [t'|] eqn:Ea,
           (before_last c r) as [u'|] eqn:Eb.
  - intros [= <-] [= <-]. rewrite append_cons. f_equal. by apply IH.
  - apply after_last_before_last in Eb. congruence.
  - apply after_last_before_last in Ea. congruence.
  - destruct (Ascii.eqb_spec a c) as [->|_]; [|done].
    by intros [= <-] [= <-].
Qed.

(** a file name is its stem followed by its extension *)
Lemma stem_extension p : stem p +:+ extension p = filename p.
Proof.
  unfold stem, extension.
  destruct (String.eqb_spec (filename p) "..") as [->|_]; [done|].
  destruct (filename p) as [|a r]; [done|].
  destruct (after_last "." r) as [t|] eqn:Ea,
           (before_last "." r) as [u|] eqn:Eb.
  - rewrite append_cons. f_equal. by apply before_after_last.
  - apply after_last_before_last in Eb. congruence.
  - apply after_last_before_last in Ea. congruence.
  - rewrite append_cons. f_equal. clear. induction r as [|b r IH]; [done|].
    rewrite append_cons. by f_equal.
Qed.

Lemma stem_free p : after_last "/" (stem p) = None.
Proof.
  eapply after_last_prefix. rewrite stem_extension. apply filename_free.
Qed.

Lemma stem_filename p : stem (filename p) = stem p.
Proof. unfold stem. by rewrite filename_idemp. Qed.

Lemma stem_empty p : stem p = ""%string <-> filename p = ""%string.
Proof.
  unfold stem. destruct (String.eqb_spec (filename p) "..") as [->|_];
    [done|].
  destruct (filename p) as [|a r]; [done|].
  by destruct (before_last "." r).
Qed.

Lemma ends_with_slash_spec p :
  ends_with_slash p = true <-> after_last "/" p = Some ""%string.
Proof.
  unfold ends_with_slash. by destruct (after_last "/" p) as [[|]|].
Qed.

(** appending a name without separator makes it the file name *)
Lemma filename_append d n :
  after_last "/" n = None -> filename (append d n) = n.
Proof.
  intros Hn. unfold append, filename.
  destruct n as [|a n'].
  - destruct (String.eqb_spec d "") as [->|_]; [done|]. cbn [orb].
    destruct (ends_with_slash d) eqn:E.
    + apply ends_with_slash_spec in E. by rewrite E.
    + by rewrite (after_last_sep "/" d "").
  - destruct (after_last_cons_None _ _ _ Hn) as [-> Hn'].
    destruct (String.eqb_spec d "") as [->|_]; cbn [orb].
    { rewrite append_nil. by rewrite Hn. }
    destruct (ends_with_slash d) eqn:E.
    + apply ends_with_slash_spec in E.
      by rewrite (after_last_app "/" d _ Hn), E.
    + by rewrite (after_last_sep "/" d _ Hn).
Qed.

Lemma strip_trailing_slashes_shape s :
  strip_trailing_slashes s = ""%string
  \/ after_last "/" (strip_trailing_slashes s) <> Some ""%string.
Proof.
  induction s as [|a r IH]; cbn; [by left|].
  destruct (Ascii.eqb_spec a "/") as [->|Ha]; cbn [andb].
  - destruct (String.eqb_spec (strip_trailing_slashes r) "") as [E|E];
      [by left|].
    right. cbn. destruct IH as [IH|IH]; [done|].
    destruct (after_last "/" (strip_trailing_slashes r)); congruence.
  - right. cbn. destruct IH as [->|IH]; cbn.
    + apply Ascii.eqb_neq in Ha. by rewrite Ha.
    + destruct (after_last "/" (strip_trailing_slashes r)); [congruence|].
      apply Ascii.eqb_neq in Ha. by rewrite Ha.
Qed.

Lemma strip_trailing_slashes_idemp s :
  strip_trailing_slashes (strip_trailing_slashes s)
  = strip_trailing_slashes s.
Proof.
  induction s as [|a r IH]; cbn; [done|].
  destruct (Ascii.eqb a "/" && String.eqb (strip_trailing_slashes r) "")
    eqn:E; [done|].
  cbn. by rewrite IH, E.
Qed.

(** what [parent_path] returns: nothing, the root, or a path that does not
    end with a separator *)
Lemma parent_path_shape p :
  parent_path p = ""%string \/ parent_path p = "/"%string
  \/ (parent_path p <> ""%string
      /\ ends_with_slash (parent_path p) = false
      /\ strip_trailing_slashes (parent_path p) = parent_path p).
Proof.
  unfold parent_path. destruct (before_last "/" p) as [d|]; [|by left].
  destruct (String.eqb_spec (strip_trailing_slashes d) "") as [E|E];
    [by right; left|].
  right; right. split; [done|]. split; [|apply strip_trailing_slashes_idemp].
  destruct (strip_trailing_slashes_shape d) as [?|H]; [done|].
  destruct (ends_with_slash _) eqn:E'; [|done].
  by apply ends_with_slash_spec in E'.
Qed.

(** a name appended to a parent path has that parent path *)
Lemma parent_path_append p n :
  n <> ""%string -> after_last "/" n = None ->
  parent_path (append (parent_path p) n) = parent_path p.
Proof.
  intros Hne Hn. destruct n as [|a n']; [done|].
  destruct (after_last_cons_None _ _ _ Hn) as [Ha Hn'].
  unfold append. rewrite Ha.
  destruct (parent_path_shape p) as [-> | [-> | (Hd & He & Hs)]].
  - cbn [String.eqb orb]. rewrite append_nil.
    apply after_last_before_last in Hn. unfold parent_path. by rewrite Hn.
  - change (ends_with_slash "/") with true. cbn [String.eqb orb].
    rewrite append_cons, append_nil. unfold parent_path.
    by rewrite <- (append_nil (String "/" _)), (before_last_sep "/" "" _ Hn).
  - rewrite He. destruct (String.eqb_spec (parent_path p) ""); [done|].
    cbn [orb]. unfold parent_path at 1.
    rewrite (before_last_sep "/" _ _ Hn), Hs.
    by destruct (String.eqb_spec (parent_path p) "").
Qed.

End PathFacts.

(** ** The names of the outputs *)

Section Names.

Import Path.

Lemma after_last_None_iff c s :
  after_last c s = None <-> c ∉ list_ascii_of_string s.
Proof.
  induction s as [|a r IH]; cbn.
  - split; [intros _; apply not_elem_of_nil | done].
  - rewrite not_elem_of_cons, <- IH.
    destruct (after_last c r); [by split; [|intros [_ ?]]|].
    destruct (Ascii.eqb_spec a c) as [->|Hne].
    + by split; [|intros [? _]].
    + split; [intros _; by split; [congruence|] | done].
Qed.

Lemma append_empty_l q : append "" q = q.
Proof.
  unfold append. destruct q as [|a q]; [done|].
  by destruct (Ascii.eqb a "/").
Qed.

Lemma parent_path_of_free s : after_last "/" s = None -> parent_path s = ""%string.
Proof.
  intros H%after_last_before_last. unfold parent_path. by rewrite H.
Qed.

(** the new name: the stem followed by the extension with its period *)
Lemma change_extension_filename p e :
  after_last "/" e = None ->
  filename (change_extension p (String "." e)) = stem p +:+ String "." e.
Proof.
  intros He. unfold change_extension. cbn [Ascii.eqb].
  change (Ascii.eqb "." ".") with true. cbv iota.
  apply filename_append.
  rewrite after_last_app; [by rewrite stem_free|].
  cbn. by rewrite He.
Qed.

Lemma extension_of_name p s e :
  s <> ""%string -> e <> ""%string -> after_last "." e = None ->
  filename p = s +:+ String "." e ->
  extension p = String "." e /\ stem p = s.
Proof.
  intros Hs He Hdot Hf. unfold extension, stem. rewrite Hf.
  destruct s as [|a s]; [done|]. rewrite append_cons.
  destruct (String.eqb_spec (String a (s +:+ String "." e)) "..") as [E|_].
  { injection E as _ E. destruct s as [|b s]; [|by destruct s].
    rewrite append_nil in E. injection E as ->. done. }
  by rewrite (after_last_sep "." s e Hdot), (before_last_sep "." s e Hdot).
Qed.

Lemma jpg_not_recognized p s :
  filename p = s +:+ ".jpg" -> recognized_extension p = false.
Proof.
  intros Hf. unfold recognized_extension.
  destruct s as [|a s].
  - unfold extension. rewrite Hf. reflexivity.
  - destruct (extension_of_name p (String a s) "jpg") as [-> _]; done.
Qed.

Lemma job_paths_not_recognized output_directory input_filename :
  recognized_extension (Main.job_paths output_directory input_filename).2
  = false.
Proof.
  unfold Main.job_paths. cbn [snd].
  destruct (String.eqb output_directory "").
  - apply jpg_not_recognized with (stem input_filename).
    by apply change_extension_filename.
  - apply jpg_not_recognized with (stem input_filename).
    assert (Hn : change_extension (filename input_filename) ".jpg"
                 = stem input_filename +:+ ".jpg").
    { unfold change_extension. change (Ascii.eqb "." ".") with true.
      cbv iota.
      by rewrite (parent_path_of_free _ (filename_free _)), append_empty_l,
        stem_filename. }
    rewrite Hn. apply filename_append.
    rewrite after_last_app; [by rewrite stem_free | done].
Qed.

End Names.

(** ** The result of a conversion *)

Section Outcome.

Import Early.

Variables (heif_path jpeg_path : string).
Variables (quality max_width max_height max_memory_mb : Z).

Lemma make_output_dir_made w :
  match output_dir_made w jpeg_path with
  | None => exists m, make_output_dir jpeg_path w
                      = (inl false, thread_safe_print m w)
  | Some fs1 => exists w', make_output_dir jpeg_path w = (inr tt, w')
                           /\ w_fs w' = fs1 /\ w_sys w' = w_sys w
                           /\ extends printed w w'
  end.
Proof.
  unfold output_dir_made, make_output_dir, mbind, early_bind, bind, ask.
  destruct (_ && _).
  - destruct (create_directories _ _ _ _) as [fs'|]; cbn; [|by eexists].
    eexists. split; [done|]. split; [done|]. split; [done|].
    exists [Console (MsgCreatedDir (Path.parent_path jpeg_path))].
    split; [done|]. split; [by repeat constructor | done].
  - exists w. split; [done|]. split; [done|]. split; [done|].
    apply extends_refl.
Qed.

Lemma encode_result img planar_data metadata_blocks w :
  let r := run (encode jpeg_path quality img planar_data metadata_blocks) w in
  extends printed w r.2
  /\ match fopen_wb (w_sys w) (w_fs w) jpeg_path with
     | None => r.1 = false /\ w_fs r.2 = w_fs w
     | Some fs2 =>
         if jpeg_ok (w_sys w) jpeg_path (hi_width img) (hi_height img) quality
         then r.1 = true
              /\ w_fs r.2
                 = put_content jpeg_path
                     (Jpeg {| j_width := hi_width img;
                              j_height := hi_height img;
                              j_quality := quality;
                              j_markers := preserve_metadata metadata_blocks;
                              j_rows := scanlines (hi_width img)
                                          (hi_height img) (hi_stride img)
                                          planar_data |}) fs2
              /\ hd_error (w_log r.2) = Some (Console (MsgSaved jpeg_path))
         else r.1 = false /\ w_fs r.2 = fs2
     end.
Proof.
  unfold run, encode, mbind, early_bind, bind, ask.
  destruct (fopen_wb _ _ _) as [fs2|]; cbn.
  - destruct (jpeg_ok _ _ _ _ _); cbn.
    + split; [|done]. exists [Console (MsgSaved jpeg_path)].
      split; [done|]. split; [by repeat constructor | done].
    + split; [|done]. exists [Console MsgJpegError].
      split; [done|]. split; [by repeat constructor | done].
  - split; [|done]. exists [Console (MsgOpenFailed jpeg_path)].
    split; [done|]. split; [by repeat constructor | done].
Qed.

(** The ways through a conversion.  Either a limit refuses the file or it
    cannot be decoded, and no file changes; or the image is decoded, and
    the result depends on the output directory, on opening the output and
    on libjpeg. *)
Lemma convert_cases w :
  let r := convert_heif_to_jpeg heif_path jpeg_path quality max_width
             max_height max_memory_mb w in
  (r.1 = false /\ w_fs r.2 = w_fs w
   /\ (dimensions_exceed w heif_path max_width max_height = true
       \/ memory_exceeds w heif_path max_memory_mb = true
       \/ heif_alloc_ok (w_sys w) = false
       \/ heif_context_read_from_file w heif_path = None
       \/ heif_context_read_from_file w heif_path = Some None
       \/ exists handle,
            heif_context_read_from_file w heif_path = Some (Some handle)
            /\ (hh_decode handle = None
                \/ exists img, hh_decode handle = Some img
                               /\ hi_plane img = None)))
  \/ (exists handle img plane,
        dimensions_exceed w heif_path max_width max_height = false
        /\ memory_exceeds w heif_path max_memory_mb = false
        /\ heif_alloc_ok (w_sys w) = true
        /\ heif_context_read_from_file w heif_path = Some (Some handle)
        /\ hh_decode handle = Some img
        /\ hi_plane img = Some plane
        /\ match output_dir_made w jpeg_path with
           | None => r.1 = false /\ w_fs r.2 = w_fs w
           | Some fs1 =>
               match fopen_wb (w_sys w) fs1 jpeg_path with
               | None => r.1 = false /\ w_fs r.2 = fs1
               | Some fs2 =>
                   if jpeg_ok (w_sys w) jpeg_path (hi_width img)
                        (hi_height img) quality
                   then r.1 = true
                        /\ w_fs r.2
                           = put_content jpeg_path
                               (Jpeg {| j_width := hi_width img;
                                        j_height := hi_height img;
                                        j_quality := quality;
                                        j_markers :=
                                          preserve_metadata
                                            (extract_metadata handle);
                                        j_rows :=
                                          scanlines (hi_width img)
                                            (hi_height img) (hi_stride img)
                                            plane |}) fs2
                        /\ hd_error (w_log r.2)
                           = Some (Console (MsgSaved jpeg_path))
                   else r.1 = false /\ w_fs r.2 = fs2
               end
           end).
Proof.
  cbv zeta.
  destruct (convert_heif_to_jpeg heif_path jpeg_path quality max_width
              max_height max_memory_mb w) as [ok w'] eqn:E.
  cbn [fst snd]. rewrite convert_unfold in E. unfold run, convert_steps in E.
  set (w1 := thread_safe_print _ _) in E.
  assert (Hfs : w_fs w1 = w_fs w) by done.
  assert (Hsys : w_sys w1 = w_sys w) by done.
  assert (Hdim : dimensions_exceed w1 heif_path max_width max_height
                 = dimensions_exceed w heif_path max_width max_height)
    by done.
  assert (Hmem : memory_exceeds w1 heif_path max_memory_mb
                 = memory_exceeds w heif_path max_memory_mb) by done.
  assert (Hread : heif_context_read_from_file w1 heif_path
                  = heif_context_read_from_file w heif_path) by done.
  clearbody w1.
  unfold mbind, early_bind in E. unfold bind at 1 in E.
  pose proof (check_dimensions_spec heif_path max_width max_height w1) as Hcd.
  rewrite Hdim in Hcd.
  destruct (dimensions_exceed w heif_path max_width max_height) eqn:Ed.
  { destruct Hcd as [m Hcd]. rewrite Hcd in E. injection E as <- <-.
    left. split; [done|]. split; [done|]. by left. }
  rewrite Hcd in E. unfold bind at 1 in E.
  rewrite check_memory_spec, Hmem in E.
  destruct (memory_exceeds w heif_path max_memory_mb) eqn:Em.
  { injection E as <- <-. left. split; [done|]. split; [done|].
    right. by left. }
  unfold bind at 1 in E.
  assert (Hundecoded :
            forall m wd,
              decode heif_path w1 = (inl false, thread_safe_print m wd) ->
              heif_alloc_ok (w_sys w) = false
              \/ heif_context_read_from_file w heif_path = None
              \/ heif_context_read_from_file w heif_path = Some None
              \/ exists handle,
                   heif_context_read_from_file w heif_path
                   = Some (Some handle)
                   /\ (hh_decode handle = None
                       \/ exists img, hh_decode handle = Some img
                                      /\ hi_plane img = None)).
  { intros m wd. unfold decode, mbind, early_bind, bind, ask.
    rewrite Hsys, Hread.
    destruct (heif_alloc_ok (w_sys w)); cbn; [|by left].
    destruct (heif_context_read_from_file w heif_path) as [[handle|]|];
      cbn; [|by right; right; left | by right; left].
    intros Hd. right; right; right. exists handle. split; [done|].
    destruct (hh_decode handle) as [img|]; cbn in Hd; [|by left].
    right. exists img. split; [done|].
    by destruct (hi_plane img). }
  destruct (decode_spec heif_path w1) as [[m Hdec] | [[m Hdec] |
    (handle & img & plane & Ha & Hr & Hd & Hp & Hdec)]].
  - rewrite Hdec in E. injection E as <- <-. left.
    split; [done|]. split; [done|]. right; right. by eapply Hundecoded.
  - rewrite Hdec in E. injection E as <- <-. left.
    split; [done|]. split; [done|]. right; right. by eapply Hundecoded.
  - rewrite Hdec in E. rewrite Hsys in Ha. rewrite Hread in Hr.
    right. exists handle, img, plane. do 6 (split; [done|]).
    set (w2 := record (CallDecode heif_path) w1) in E.
    assert (Hmade : output_dir_made w2 jpeg_path
                    = output_dir_made w jpeg_path).
    { unfold output_dir_made, fs_exists, w2. cbn. by rewrite Hfs, Hsys. }
    pose proof (make_output_dir_made w2) as Hmk. rewrite Hmade in Hmk.
    unfold bind at 1 in E.
    destruct (output_dir_made w jpeg_path) as [fs1|].
    2:{ destruct Hmk as [m Hmk]. rewrite Hmk in E. injection E as <- <-.
        cbn. by rewrite Hfs. }
    destruct Hmk as (w3 & Hmk & Hfs3 & Hsys3 & _). rewrite Hmk in E.
    pose proof (encode_result img plane (extract_metadata handle) w3) as Henc.
    cbv zeta in Henc. destruct Henc as [_ Henc]. unfold run in Henc.
    rewrite Hfs3, Hsys3 in Henc. cbn [w_sys w2 record] in Henc.
    rewrite Hsys in Henc.
    destruct (encode _ _ _ _ _ w3) as [[b0|b0] w4]; injection E as <- <-;
      exact Henc.
Qed.

End Outcome.

(** ** The result of a conversion, with the exception *)

Section ThrowingOutcome.

Import Early.

Variable stat_fails : string -> bool.
Variables (heif_path jpeg_path : string).
Variables (quality max_width max_height max_memory_mb : Z).

Lemma decoded_as_same w w' handle img plane :
  w_fs w' = w_fs w -> w_sys w' = w_sys w ->
  decoded_as heif_path max_width max_height max_memory_mb w' handle img plane
  <-> decoded_as heif_path max_width max_height max_memory_mb w handle img plane.
Proof.
  intros Hfs Hsys.
  unfold decoded_as, dimensions_exceed, memory_exceeds, get_heif_dimensions,
    estimate_memory_requirement, heif_context_read_from_file.
  by rewrite Hfs, Hsys.
Qed.

Lemma decoded_as_unique w handle img plane handle' img' plane' :
  decoded_as heif_path max_width max_height max_memory_mb w handle img plane ->
  decoded_as heif_path max_width max_height max_memory_mb w handle' img' plane' ->
  handle' = handle /\ img' = img /\ plane' = plane.
Proof.
  intros (_ & _ & _ & Hr & Hd & Hp) (_ & _ & _ & Hr' & Hd' & Hp').
  rewrite Hr in Hr'. injection Hr' as <-.
  rewrite Hd in Hd'. injection Hd' as <-.
  rewrite Hp in Hp'. by injection Hp' as <-.
Qed.

(** the stages before the output directory is looked at *)
Lemma decode_stages_spec w :
  match (check_dimensions heif_path max_width max_height ;;
         check_memory heif_path max_memory_mb ;;
         decode heif_path) w with
  | (inl b, w') =>
      b = false /\ w_fs w' = w_fs w
      /\ (forall handle img plane,
            ~ decoded_as heif_path max_width max_height max_memory_mb w handle img
                plane)
      /\ exists evs, w_log w' = evs ++ w_log w
                     /\ (dimensions_exceed w heif_path max_width max_height
                         = true
                         \/ memory_exceeds w heif_path max_memory_mb = true ->
                         Forall printed evs)
  | (inr (img, plane, metadata_blocks), w') =>
      exists handle,
        decoded_as heif_path max_width max_height max_memory_mb w handle img
          plane
        /\ metadata_blocks = extract_metadata handle
        /\ w' = record (CallDecode heif_path) w
  end.
Proof.
  unfold mbind, early_bind. unfold bind at 1.
  pose proof (check_dimensions_spec heif_path max_width max_height w) as Hcd.
  unfold decoded_as.
  destruct (dimensions_exceed w heif_path max_width max_height) eqn:Ed.
  { destruct Hcd as [m ->]. split; [done|]. split; [done|].
    split; [by intros ? ? ? (? & _)|].
    exists [Console m]. split; [done|]. intros _. by repeat constructor. }
  rewrite Hcd. unfold bind at 1. rewrite check_memory_spec.
  destruct (memory_exceeds w heif_path max_memory_mb) eqn:Em.
  { split; [done|]. split; [done|].
    split; [by intros ? ? ? (_ & ? & _)|].
    eexists [_]. split; [done|]. intros _. by repeat constructor. }
  unfold decode, mbind, early_bind, bind, ask.
  destruct (heif_alloc_ok (w_sys w)) eqn:Ha; cbn.
  2:{ split; [done|]. split; [done|].
      split; [by intros ? ? ? (_ & _ & ? & _)|].
      eexists [_]. split; [done|]. by intros [|]. }
  destruct (heif_context_read_from_file w heif_path) as [[handle|]|] eqn:Hr;
    cbn.
  2,3: split; [done|]; split; [done|];
       (split; [by intros ? ? ? (_ & _ & _ & ? & _)|]);
       eexists [_]; (split; [done|]); by intros [|].
  destruct (hh_decode handle) as [img|] eqn:Hd; cbn.
  2:{ split; [done|]. split; [done|]. split.
      - intros ? ? ? (_ & _ & _ & [= <-] & ? & _). congruence.
      - eexists [_; _]. split; [done|]. by intros [|]. }
  destruct (hi_plane img) as [plane|] eqn:Hp; cbn.
  2:{ split; [done|]. split; [done|]. split.
      - intros ? ? ? (_ & _ & _ & [= <-] & ? & ?). congruence.
      - eexists [_; _]. split; [done|]. by intros [|]. }
  by exists handle.
Qed.

(** When a conversion throws. *)
Lemma convert_thrown_iff w :
  (exists w', Throwing.convert_heif_to_jpeg stat_fails heif_path jpeg_path
                quality max_width max_height max_memory_mb w
              = Throwing.Thrown w')
  <-> (exists handle img plane,
         decoded_as heif_path max_width max_height max_memory_mb w handle img
           plane)
      /\ Path.parent_path jpeg_path <> ""%string
      /\ stat_fails (Path.parent_path jpeg_path) = true.
Proof.
  unfold Throwing.convert_heif_to_jpeg.
  set (w1 := thread_safe_print _ _).
  pose proof (decode_stages_spec w1) as Hst.
  assert (Hsame : forall handle img plane,
            decoded_as heif_path max_width max_height max_memory_mb w1 handle img
              plane
            <-> decoded_as heif_path max_width max_height max_memory_mb w handle
                  img plane)
    by (intros; by apply decoded_as_same).
  clearbody w1.
  destruct ((check_dimensions heif_path max_width max_height ;;
             check_memory heif_path max_memory_mb ;;
             decode heif_path) w1) as [[b|[[img plane] md]] w2].
  - destruct Hst as (_ & _ & Hno & _). split; [by intros [? ?]|].
    intros ((handle & img & plane & H%Hsame) & _). by apply Hno in H.
  - destruct Hst as (handle & Hdec%Hsame & _ & _).
    unfold Throwing.fs_exists.
    destruct (String.eqb_spec (Path.parent_path jpeg_path) "") as [E|E].
    { split; [by intros [? ?] | by intros (_ & ? & _)]. }
    destruct (stat_fails (Path.parent_path jpeg_path)).
    + split; [|by eexists]. intros _. split; [by eexists _, _, _ | done].
    + split; [by intros [? ?] | by intros (_ & _ & ?)].
Qed.

End ThrowingOutcome.

Section ConversionFacts.

Variable stat_fails : string -> bool.
Variables (heif_path jpeg_path : string).
Variables (quality max_width max_height max_memory_mb : Z).

(** the conversion with the exception, from the one without *)
Lemma convert_normal_or_thrown w :
  (Throwing.convert_heif_to_jpeg stat_fails heif_path jpeg_path quality
     max_width max_height max_memory_mb w
   = Throwing.Normal
       (convert_heif_to_jpeg heif_path jpeg_path quality max_width
          max_height max_memory_mb w)
   /\ (Path.parent_path jpeg_path = ""%string
       \/ stat_fails (Path.parent_path jpeg_path) = false
       \/ forall handle img plane,
            ~ decoded_as heif_path max_width max_height max_memory_mb w
                handle img plane))
  \/ ((exists w', Throwing.convert_heif_to_jpeg stat_fails heif_path
                    jpeg_path quality max_width max_height max_memory_mb w
                  = Throwing.Thrown w' /\ w_fs w' = w_fs w)
      /\ (exists handle img plane,
            decoded_as heif_path max_width max_height max_memory_mb w
              handle img plane)
      /\ Path.parent_path jpeg_path <> ""%string
      /\ stat_fails (Path.parent_path jpeg_path) = true).
Proof.
  pose proof (convert_completion stat_fails heif_path jpeg_path quality
                max_width max_height max_memory_mb w) as Hc.
  pose proof (convert_thrown_iff stat_fails heif_path jpeg_path quality
                max_width max_height max_memory_mb w) as Ht.
  destruct (Throwing.convert_heif_to_jpeg _ _ _ _ _ _ _ _) as [r|w'].
  - left. subst r. split; [done|].
    destruct (String.eqb_spec (Path.parent_path jpeg_path) "") as [|Hne];
      [by left|].
    destruct (stat_fails (Path.parent_path jpeg_path)) eqn:Hsf;
      [|by right; left].
    right; right. intros handle img plane Hd.
    destruct Ht as [_ Ht].
    destruct Ht as [w' Hw']; [|done].
    split; [by exists handle, img, plane | done].
  - right. destruct Hc as (_ & Hfs & _ & _).
    split; [by exists w'|]. apply Ht. by exists w'.
Qed.

End ConversionFacts.

(** ** Runs of the process *)

Section ProcessRuns.

Variable stat_fails : string -> bool.

(** the machine the process was before it was terminated *)
Lemma run_schedule_terminated_from sched m w' :
  Throwing.run_schedule stat_fails sched (Throwing.Alive m)
  = Throwing.Terminated w' ->
  exists m1, rtc step_rel m m1 /\ w_fs w' = w_fs (world m1).
Proof.
  revert m. induction sched as [|i sched IH]; intros m;
    cbn [Throwing.run_schedule]; [done|].
  destruct (Throwing.step stat_fails i (Throwing.Alive m)) as [[m1|w1]|]
    eqn:Hstep.
  - intros (m2 & Hrun & Hfs)%IH. exists m2. split; [|done].
    eapply rtc_l; [exists i; by apply step_alive_old in Hstep | done].
  - rewrite run_schedule_terminated. intros [= <-]. exists m. split; [done|].
    apply step_terminated in Hstep as (j & _ & Hthrow).
    pose proof (handle_job_completion stat_fails j (processor m) (world m))
      as H.
    rewrite Hthrow in H. by destruct H as (-> & _).
  - apply IH.
Qed.

Lemma step_readable i m :
  (forall path, stat_fails path = false) ->
  Throwing.step stat_fails i (Throwing.Alive m)
  = Throwing.Alive <$> step i m.
Proof.
  intros Hr. unfold Throwing.step, step, Throwing.worker_thread,
    worker_thread.
  destruct (pool m !! i) as [[|j|]|]; [| |done..].
  - by destruct (fetch (processor m) (world m)) as [[t' bp'] w'].
  - rewrite handle_job_no_throw by done.
    by destruct (handle_job j (processor m) (world m)) as [[t' bp'] w'].
Qed.

Lemma run_schedule_readable sched m :
  (forall path, stat_fails path = false) ->
  Throwing.run_schedule stat_fails sched (Throwing.Alive m)
  = Throwing.Alive (run_schedule sched m).
Proof.
  intros Hr. revert m. induction sched as [|i sched IH]; intros m;
    cbn [Throwing.run_schedule run_schedule]; [done|].
  rewrite step_readable by done.
  destruct (step i m) as [m1|]; cbn; apply IH.
Qed.

Lemma round_robin_readable fuel m :
  (forall path, stat_fails path = false) ->
  Throwing.round_robin stat_fails fuel (Throwing.Alive m)
  = Throwing.Alive (round_robin fuel m).
Proof.
  intros Hr. revert m. induction fuel as [|fuel IH]; intros m;
    cbn [Throwing.round_robin round_robin]; [done|].
  destruct (joined m); [done|].
  rewrite run_schedule_readable by done. apply IH.
Qed.

End ProcessRuns.

(** ** What [main] sets up *)

Section MainJobs.

Lemma is_one_of_false arg names :
  names ⊆ option_names -> arg ∉ option_names ->
  Main.is_one_of arg names = false.
Proof.
  intros Hsub Hno. unfold Main.is_one_of.
  destruct (existsb (String.eqb arg) names) eqn:E; [|done].
  apply existsb_exists in E as (x & Hx%list_elem_of_In & ->%String.eqb_eq).
  destruct Hno. by apply Hsub.
Qed.

(** arguments that are not options are the inputs, in their order *)
Lemma parse_args_plain args :
  forall v,
    Forall (fun arg => arg ∉ option_names) args ->
    Main.parse_args args v
    = inr (Main.mk_locals (Main.quality v) (Main.force_overwrite v)
             (Main.input_filenames v ++ args) (Main.output_directory v)
             (Main.max_width v) (Main.max_height v)
             (Main.memory_budget_mb v) (Main.auto_memory_budget v)
             (Main.show_help v)).
Proof.
  induction args as [|arg args IH]; intros v Hplain.
  { cbn. rewrite app_nil_r. by destruct v. }
  apply Forall_cons in Hplain as [Harg Hplain].
  cbn [Main.parse_args].
  rewrite !is_one_of_false by (done || (intros x Hx; unfold option_names;
    repeat (apply elem_of_cons in Hx as [->|Hx];
            [apply (bool_decide_unpack _); by vm_compute|]);
    by apply elem_of_nil in Hx)).
  rewrite IH by done. cbn. by rewrite <- app_assoc.
Qed.

End MainJobs.

(** * The properties of the specification *)

(** ** The budget *)

(** C1. For every total budget >= 0 and every worker count >= 1 the
    constructor computes the per-worker ceiling
    [max(100, total / workers)], which is at least 100 whatever the
    budget. *)
Theorem per_worker_ceiling quality force max_width max_height
    total_budget_mb worker_count :
  0 <= total_budget_mb -> 1 <= worker_count ->
  exists bp,
    BatchProcessor_new quality force max_width max_height total_budget_mb
      worker_count = Some bp
    /\ memory_per_thread_mb bp = Z.max 100 (total_budget_mb / worker_count)
    /\ 100 <= memory_per_thread_mb bp.
Proof.
  intros Hb Hw. unfold BatchProcessor_new.
  destruct (Z.eqb_spec worker_count 0) as [->|_]; [lia|].
  eexists. split; [reflexivity|]. cbn. split; [done | lia].
Qed.

(** a budget of 50 MB for 4 workers gives the ceiling 100, not 12 *)
Lemma per_worker_ceiling_50_4 :
  exists bp,
    BatchProcessor_new 95 false 0 0 50 4 = Some bp
    /\ memory_per_thread_mb bp = 100.
Proof.
  destruct (per_worker_ceiling 95 false 0 0 50 4) as (bp & Hnew & Hmem & _);
    [lia | lia |].
  exists bp. split; [exact Hnew|]. rewrite Hmem. reflexivity.
Defined.

(** ** The order of the jobs *)

(** C3. On a non-empty queue the worker takes a job whose estimate is the
    smallest among the pending ones, and that job leaves the queue.  With a
    single worker and pairwise distinct estimates, [process_all] returns
    and the jobs were taken in strictly increasing order of their
    estimates. *)
Theorem cost_ordering :
  (forall bp w,
     job_queue bp <> [] ->
     exists j,
       pq_top job_lt (job_queue bp) = Some j
       /\ j ∈ job_queue bp
       /\ (forall k, k ∈ job_queue bp ->
                     estimated_memory_mb j <= estimated_memory_mb k)
       /\ j :: pq_pop job_lt (job_queue bp) ≡ₚ job_queue bp
       /\ fetch bp w = (Holding j,
                        set_queue (pq_pop job_lt (job_queue bp)) bp,
                        record (Dequeue j) w))
  /\ (forall bp w,
        thread_count bp = 1 ->
        NoDup (estimated_memory_mb <$> job_queue bp) ->
        joined (process_all bp w) = true
        /\ rtc step_rel (start bp w) (process_all bp w)
        /\ forall final,
             rtc step_rel (start bp w) final -> joined final = true ->
             exists taken,
               dequeued (world final) = dequeued w ++ taken
               /\ taken ≡ₚ job_queue bp
               /\ StronglySorted cost_lt taken).
Proof.
  split.
  - intros bp w Hq.
    destruct (fetch_cases bp w) as [[Hnil _] | (j & Hperm & Hmin & Hfetch)];
      [done|].
    exists j. unfold fetch in Hfetch.
    destruct (job_queue bp) as [|x rest] eqn:E; [done|].
    cbn [pq_empty] in Hfetch.
    destruct (pq_top job_lt (x :: rest)) as [j'|] eqn:Htop; [|done].
    injection Hfetch as <-.
    split; [done|]. split; [rewrite <- Hperm; left|].
    split; [exact Hmin|]. split; [done|]. unfold fetch. rewrite E.
    cbn [pq_empty].
    by rewrite Htop.
  - intros bp w HT Hnd.
    destruct (process_all_joined bp w) as [Hj Hr].
    split; [done|]. split; [done|]. intros final Hrun Hjoin.
    destruct (run_final bp w final ltac:(lia) Hrun Hjoin)
      as (evs & _ & _ & Hdeq & Hperm & Hsorted & _).
    exists (reverse (omap dequeue_of evs)).
    split; [done|]. split; [done|].
    apply sorted_distinct; [done|]. by rewrite Hperm.
Qed.

(** the scenario of the specification: the estimates 50, 400 and 120 are
    taken in the order 50, 120, 400 *)
Lemma cost_ordering_scenario :
  pq_top job_lt (job_queue Sample.three_jobs)
  = Some (mk_job "a.heic" "a.jpg" 50)
  /\ exists taken,
       dequeued (world (process_all Sample.three_jobs Sample.disk))
       = dequeued Sample.disk ++ taken
       /\ taken ≡ₚ job_queue Sample.three_jobs
       /\ StronglySorted cost_lt taken.
Proof.
  destruct cost_ordering as [Hpop Hrun]. split.
  - destruct (Hpop Sample.three_jobs Sample.disk) as (j & Htop & _);
      [discriminate|].
    rewrite Htop. vm_compute in Htop. symmetry. exact Htop.
  - destruct (Hrun Sample.three_jobs Sample.disk) as (Hj & Hr & Hfinal).
    + reflexivity.
    + apply (bool_decide_unpack _). vm_compute. exact I.
    + exact (Hfinal _ Hr Hj).
Defined.

(** ** Exactly one outcome per job *)

(** C4. For every list of [n] jobs (no more than the counters, of type
    [int], can count) and every number of workers, [process_all] returns,
    and no run of the workers is longer than [2 * n] steps plus one per
    worker; in whatever way the workers interleave, once all have returned
    [process_file] has been called exactly once for each job, each call
    has incremented exactly one counter by one, and the counters add up
    to [n]. *)
Theorem exactly_once_delivery quality force max_width max_height
    total_budget_mb worker_count w files :
  1 <= worker_count ->
  Z.of_nat (length files) <= INT_MAX ->
  exists bp0,
    BatchProcessor_new quality force max_width max_height total_budget_mb
      worker_count = Some bp0
    /\ let bp := add_jobs w files bp0 in
       joined (process_all bp w) = true
       /\ rtc step_rel (start bp w) (process_all bp w)
       /\ (forall k m,
             nsteps step_rel k (start bp w) m ->
             (k <= 2 * length files + Z.to_nat worker_count)%nat)
       /\ (forall j bp' w',
             exists o mid w'',
               handle_job j bp' w'
               = (LoopHead, set_counters (bump o (counters bp')) bp', w'')
               /\ w_log w'' = Counted o :: mid ++ call_of bp' j
                              :: over_limit_warning bp' j ++ w_log w'
               /\ Forall minor mid)
       /\ forall final,
            rtc step_rel (start bp w) final -> joined final = true ->
            exists evs,
              w_log (world final) = evs ++ w_log w
              /\ job_queue (processor final) = []
              /\ omap call_event evs ≡ₚ call_of bp <$> jobs_of w files
              /\ length (omap counted_of evs) = length files
              /\ get_success_count (processor final)
                 = tally succeeded (omap counted_of evs)
              /\ get_fail_count (processor final)
                 = tally failed (omap counted_of evs)
              /\ get_skip_count (processor final)
                 = tally skipped (omap counted_of evs)
              /\ get_success_count (processor final)
                 + get_fail_count (processor final)
                 + get_skip_count (processor final)
                 = Z.of_nat (length files).
Proof.
  intros HT Hn.
  destruct (batch_final quality force max_width max_height total_budget_mb
              worker_count w files HT Hn) as (bp0 & Hnew & Hfinal).
  exists bp0. split; [done|]. intros bp.
  destruct (process_all_joined bp w) as [Hj Hr].
  split; [done|]. split; [done|]. split.
  { intros k m Hk.
    pose proof (run_length bp k _ _ Hk [] (start_invariant bp w)) as Hlen.
    rewrite work_start in Hlen.
    destruct (add_jobs_spec w files bp0) as (Hq & _ & Hcfg).
    fold bp in Hq, Hcfg. rewrite Hq, length_app, length_reverse in Hlen.
    unfold jobs_of in Hlen. rewrite length_fmap in Hlen.
    destruct Hcfg as (_ & _ & _ & _ & _ & HT').
    destruct (constructor_returns quality force max_width max_height
                total_budget_mb worker_count HT)
      as (bp0' & Hnew' & Hq0 & _ & HT0).
    rewrite Hnew in Hnew'. injection Hnew' as <-.
    rewrite Hq0 in Hlen. rewrite HT', HT0 in Hlen. cbn [length] in Hlen.
    lia. }
  split.
  { intros j bp' w'.
    destruct (handle_job_shape j bp' w') as (o & mid & w'' & H1 & H2 & H3 & _).
    by exists o, mid, w''. }
  intros final Hrun Hjoin.
  destruct (Hfinal final Hrun Hjoin)
    as (evs & Hlog & Hempty & Hcalls & Hlen & Hcnt).
  exists evs. split; [done|]. split; [done|]. split; [done|].
  split; [done|]. unfold get_success_count, get_fail_count, get_skip_count.
  rewrite Hcnt. cbn. repeat split; try done.
  pose proof (tally_bounds (omap counted_of evs)). lia.
Qed.

(** three jobs and two workers: the counters add up to 3 *)
Lemma exactly_once_delivery_sample :
  exists bp0,
    BatchProcessor_new 95 false 0 0 1000 2 = Some bp0
    /\ let final :=
         process_all
           (add_jobs Sample.disk
              [("small.heic", "small.jpg"); ("big.heic", "big.jpg");
               ("done.heic", "done.jpg")]%string bp0)
           Sample.disk in
       get_success_count (processor final)
       + get_fail_count (processor final)
       + get_skip_count (processor final) = 3.
Proof.
  destruct (exactly_once_delivery 95 false 0 0 1000 2 Sample.disk
              [("small.heic", "small.jpg"); ("big.heic", "big.jpg");
               ("done.heic", "done.jpg")]%string)
    as (bp0 & Hnew & Hj & Hr & _ & _ & Hfinal);
    [lia | unfold INT_MAX; simpl; lia |].
  exists bp0. split; [exact Hnew|].
  destruct (Hfinal _ Hr Hj) as (evs & _ & _ & _ & _ & _ & _ & _ & Hsum).
  exact Hsum.
Defined.

(** ** The exit status *)

(** C10.  [main] returns or the process is terminated, and it is
    terminated only where the status of a path cannot be read.  When a
    batch was run and [main] returns, all jobs have been counted, and the
    status is 1 exactly when the counter of failures is positive, which is
    exactly when some job was counted as failed, and 0 otherwise; jobs that
    were skipped or converted do not make the status non-zero.  This holds
    in whatever way the threads interleave. *)
Theorem exit_status_spec stat_fails host argv w sched :
  Z.of_nat (length argv) <= INT_MAX ->
  (exists lines w' e,
     Throwing.main stat_fails host argv w sched = (lines, w', e)
     /\ e <> Throwing.Undefined_behaviour
     /\ (e = Throwing.Aborts -> exists path, stat_fails path = true))
  /\ forall lines w' status,
       Throwing.main stat_fails host argv w sched
       = (lines, w', Throwing.Returns status) ->
       (Throwing.main_setup stat_fails host argv w
        = (lines, w', Throwing.Exit status)
        /\ w' = w /\ (status = 0 \/ status = 1))
       \/ exists lines0 w1 bp memory_budget_mb max_threads final evs,
            Throwing.main_setup stat_fails host argv w
            = (lines0, w1, Throwing.Batch bp memory_budget_mb max_threads)
            /\ rtc (Throwing.step_rel stat_fails)
                 (Throwing.Alive (start bp w1)) (Throwing.Alive final)
            /\ joined final = true
            /\ job_queue (processor final) = []
            /\ w' = world final
            /\ w_log w' = evs ++ w_log w1
            /\ lines
               = lines0 ++ [LineSummary (get_success_count (processor final))
                              (get_skip_count (processor final))
                              (get_fail_count (processor final))
                              max_threads memory_budget_mb]
            /\ length (omap counted_of evs) = length (job_queue bp)
            /\ get_fail_count (processor final)
               = tally failed (omap counted_of evs)
            /\ (status = 1 <-> 0 < get_fail_count (processor final))
            /\ (status = 0 <-> get_fail_count (processor final) = 0)
            /\ (status = 1 <-> failed ∈ omap counted_of evs)
            /\ (Forall (fun o => o = skipped \/ o = succeeded)
                  (omap counted_of evs) ->
                status = 0).
Proof.
  intros Hargc.
  pose proof (main_setup_spec stat_fails host argv w) as Hsetup.
  unfold Throwing.main.
  destruct (Throwing.main_setup stat_fails host argv w)
    as [[lines0 w1] [status0|bp memory_budget_mb max_threads| |]];
    [| | |done].
  - (* [main] returns before the batch *)
    destruct Hsetup as (-> & Hstatus & _). split.
    { eexists _, _, _. split; [done|]. split; [done | by intros [=]]. }
    intros lines w' status [= <- <- <-]. by left.
  - (* a batch is run *)
    destruct Hsetup as (v & bp0 & Hparse & _ & _ & -> & _ & Hnew & Hbp
                        & _ & _ & _).
    pose proof (process_all_completion stat_fails bp w1 sched) as Hdone.
    pose proof (process_all_rtc stat_fails bp w1 sched) as Hrun.
    destruct (Throwing.process_all stat_fails bp w1 sched) as [final|wt].
    2:{ split; [|by intros ? ? ? [=]].
        eexists _, _, _. split; [done|]. split; [done|]. intros _.
        by eapply terminated_stat. }
    destruct Hdone as [Hjoin Hold]. split.
    { eexists _, _, _. split; [done|]. split; [done | by intros [=]]. }
    intros lines w' status [= <- <- <-]. right.
    (* the processor that [main] made *)
    destruct (parse_args_spec _ _ _ _ (le_n _) Hparse)
      as (_ & (inputs & Hinputs & Hsub) & _).
    cbn in Hinputs. rewrite Hinputs in Hbp.
    assert (Hn : Z.of_nat (length (Main.job_paths (Main.output_directory v)
                                     <$> inputs)) <= INT_MAX).
    { rewrite length_fmap. apply sublist_length in Hsub.
      destruct argv; cbn in *; lia. }
    pose proof (core_count_positive host) as Hcores.
    destruct (batch_final (Main.quality v) (Main.force_overwrite v)
                (Main.max_width v) (Main.max_height v) memory_budget_mb
                _ w1 _ Hcores Hn) as (bp0' & Hnew' & Hfinal).
    rewrite Hnew in Hnew'. injection Hnew' as <-.
    cbv zeta in Hfinal. rewrite <- Hbp in Hfinal.
    destruct (Hfinal final Hold Hjoin)
      as (evs & Hlog & Hempty & _ & Hlen & Hcnt).
    exists lines0, w1, bp, memory_budget_mb,
      (get_performance_core_count host).1, final, evs.
    split; [done|]. split; [done|]. split; [done|]. split; [done|].
    split; [done|]. split; [done|]. split; [done|].
    assert (Hq : length (job_queue bp)
                 = length (Main.job_paths (Main.output_directory v)
                             <$> inputs)).
    { rewrite Hbp.
      destruct (add_jobs_spec w1 (Main.job_paths (Main.output_directory v)
                                    <$> inputs) bp0) as (-> & _ & _).
      destruct (constructor_returns (Main.quality v) (Main.force_overwrite v)
                  (Main.max_width v) (Main.max_height v) memory_budget_mb
                  _ Hcores) as (bp0' & Hnew' & Hq0 & _).
      rewrite Hnew in Hnew'. injection Hnew' as <-.
      rewrite Hq0, app_nil_r, length_reverse. unfold jobs_of.
      by rewrite length_fmap. }
    split; [by rewrite Hq|].
    unfold exit_status, get_fail_count. rewrite Hcnt. cbn.
    pose proof (tally_pos failed (omap counted_of evs)) as Hpos.
    pose proof (tally_bounds (omap counted_of evs)) as (_ & Hf & _).
    split; [done|].
    assert (Hall : Forall (fun o => o = skipped \/ o = succeeded)
                     (omap counted_of evs) ->
                   ~ failed ∈ omap counted_of evs).
    { intros Hall Hin. rewrite Forall_forall in Hall.
      by destruct (Hall _ Hin). }
    destruct (Z.ltb_spec 0 (tally failed (omap counted_of evs))) as [Hlt|Hge].
    + split; [done|]. split; [split; intros; lia|].
      split; [split; intros; [by apply Hpos | done]|].
      intros Hno. exfalso. apply (Hall Hno). by apply Hpos.
    + split; [split; intros; [done | lia]|]. split; [split; intros; [lia|done]|].
      split; [|done]. split; [done|]. intros Hin%Hpos. lia.
  - (* the exception in [main] *)
    destruct Hsetup as (-> & Hp). split; [|by intros ? ? ? [=]].
    eexists _, _, _. split; [done|]. split; [done|]. by intros _.
Qed.

(** a batch in which one input is missing: [main] returns 1, and the
    counter of failures is positive *)
Lemma exit_status_sample :
  exists lines w' final,
    Throwing.main Sample.readable Sample.host
      ["heif2jpeg"; "small.heic"; "gone.heic"]%string Sample.disk [1; 0; 1]%nat
    = (lines, w', Throwing.Returns 1)
    /\ w' = world final
    /\ 0 < get_fail_count (processor final).
Proof.
  destruct (exit_status_spec Sample.readable Sample.host
              ["heif2jpeg"; "small.heic"; "gone.heic"]%string Sample.disk
              [1; 0; 1]%nat)
    as [(lines & w' & e & Hmain & _) Hreturns];
    [unfold INT_MAX; simpl; lia|].
  assert (He : e = Throwing.Returns 1).
  { vm_compute in Hmain. congruence. }
  subst e. exists lines, w'.
  destruct (Hreturns _ _ _ Hmain)
    as [[Hexit _] | (lines0 & w1 & bp & budget & threads & final & evs & _ & _
                     & _ & _ & Hw & _ & _ & _ & _ & Hstatus & _)].
  - vm_compute in Hexit. discriminate.
  - exists final. split; [exact Hmain|]. split; [exact Hw|].
    apply Hstatus. reflexivity.
Defined.

(** ** Admission *)

(** C5. A job whose estimate exceeds the ceiling of the thread is not
    dropped: after the warning the worker calls [process_file] exactly
    once for it, with the ceiling of the thread (not the estimate of the
    job) as memory limit, and one counter is incremented; when the checks
    of [process_file] pass, [convert_heif_to_jpeg] is called exactly once,
    with the same ceiling. *)
Theorem best_effort_admission bp w j :
  memory_per_thread_mb bp < estimated_memory_mb j ->
  exists o mid w',
    handle_job j bp w = (LoopHead, set_counters (bump o (counters bp)) bp, w')
    /\ w_log w'
       = Counted o :: mid
         ++ CallProcessFile (input_path j) (output_path j) (quality bp)
              (force_overwrite bp) (max_width bp) (max_height bp)
              (memory_per_thread_mb bp)
         :: Console (MsgOverLimit (input_path j) (estimated_memory_mb j)
                     (memory_per_thread_mb bp))
         :: w_log w
    /\ omap call_event mid = []
    /\ omap convert_event mid
       = (if reaches_conversion w (input_path j) (output_path j)
               (force_overwrite bp)
          then [CallConvert (input_path j) (output_path j) (quality bp)
                  (max_width bp) (max_height bp) (memory_per_thread_mb bp)]
          else [])
    /\ memory_per_thread_mb bp <> estimated_memory_mb j.
Proof.
  intros Hover.
  destruct (handle_job_spec j bp w)
    as (o & mid & w' & Hstep & Hlog & _ & Hcalls & _ & Hno & Hyes).
  exists o, mid, w'. split; [done|].
  split.
  { rewrite Hlog. unfold over_limit_warning, call_of.
    apply Z.ltb_lt in Hover. by rewrite Hover. }
  split; [done|]. split; [|lia].
  destruct (reaches_conversion w _ _ _);
    [by destruct Hyes as (_ & ? & _) | by destruct Hno as (_ & ? & _)].
Qed.

(** ceiling 100, estimate 496: [process_file] and the conversion are each
    called once, with the limit 100 *)
Lemma best_effort_admission_sample :
  exists o mid w',
    handle_job Sample.big_job Sample.tight Sample.disk
    = (LoopHead,
       set_counters (bump o (counters Sample.tight)) Sample.tight, w')
    /\ w_log w'
       = Counted o :: mid
         ++ [CallProcessFile "big.heic" "big.jpg" 95 false 0 0 100;
             Console (MsgOverLimit "big.heic" 496 100)]
    /\ omap call_event mid = []
    /\ omap convert_event mid = [CallConvert "big.heic" "big.jpg" 95 0 0 100].
Proof.
  destruct (best_effort_admission Sample.tight Sample.disk
              Sample.big_job) as (o & mid & w' & H1 & H2 & H3 & H4 & _).
  - simpl. lia.
  - exists o, mid, w'. split; [exact H1|]. split; [exact H2|].
    split; [exact H3 | exact H4].
Defined.

(** ** Refusal inside the conversion *)




(** ** Skipped or failed *)

(** Where every status can be read: how the loop body counts a job, after
    the checks of [process_file] in their order and the result of the
    conversion. *)
Lemma handle_job_outcome bp w j :
  let conv := convert_heif_to_jpeg (input_path j) (output_path j)
                (quality bp) (max_width bp) (max_height bp)
                (memory_per_thread_mb bp)
                (record (call_of bp j) (warned bp j w)) in
  let reaches := reaches_conversion w (input_path j) (output_path j)
                   (force_overwrite bp) in
  exists o mid w',
    handle_job j bp w = (LoopHead, set_counters (bump o (counters bp)) bp, w')
    /\ job_queue (set_counters (bump o (counters bp)) bp) = job_queue bp
    /\ w_log w' = Counted o :: mid ++ call_of bp j
                  :: over_limit_warning bp j ++ w_log w
    /\ omap call_event mid = []
    /\ (o = skipped
        <-> fs_exists w (input_path j) = true
            /\ is_regular_file w (input_path j) = true
            /\ (recognized_extension (input_path j) = false
                \/ (fs_exists w (output_path j) = true
                    /\ force_overwrite bp = false)))
    /\ (o = failed
        <-> fs_exists w (input_path j) = false
            \/ is_regular_file w (input_path j) = false
            \/ (reaches = true /\ conv.1 = false))
    /\ (o = succeeded <-> reaches = true /\ conv.1 = true)
    /\ (reaches = true ->
        conversion_problem w (input_path j) (output_path j) (quality bp)
          (max_width bp) (max_height bp) (memory_per_thread_mb bp) ->
        o = failed)
    /\ (recognized_extension (input_path j) = true
        <-> Path.lowercase (Path.extension (input_path j)) = ".heic"%string
            \/ Path.lowercase (Path.extension (input_path j))
               = ".heif"%string).
Proof.
  intros conv reaches.
  destruct (handle_job_spec j bp w)
    as (o & mid & w' & Hstep & Hlog & _ & Hcalls & _ & Hno & Hyes).
  fold conv in Hyes. fold reaches in Hno, Hyes.
  exists o, mid, w'. split; [done|]. split; [done|]. split; [done|].
  split; [done|].
  assert (Hext : recognized_extension (input_path j) = true
                 <-> Path.lowercase (Path.extension (input_path j))
                     = ".heic"%string
                     \/ Path.lowercase (Path.extension (input_path j))
                        = ".heif"%string).
  { unfold recognized_extension.
    rewrite orb_true_iff, !String.eqb_eq. done. }
  assert (Hprob : reaches = true ->
            conversion_problem w (input_path j) (output_path j) (quality bp)
              (max_width bp) (max_height bp) (memory_per_thread_mb bp) ->
            conv.1 = false).
  { intros _ P%conversion_problem_call.
    destruct (conv.1) eqn:E; [|done].
    by apply convert_success in E. }
  unfold reaches, reaches_conversion in *.
  destruct (fs_exists w (input_path j)); cbn [andb] in *.
  2:{ destruct (Hno eq_refl) as (_ & _ & -> & _).
      repeat split; try done; intros; try done; try tauto;
        intuition congruence. }
  destruct (is_regular_file w (input_path j)); cbn [andb] in *.
  2:{ destruct (Hno eq_refl) as (_ & _ & -> & _).
      repeat split; try done; intros; try done; try tauto;
        intuition congruence. }
  destruct (recognized_extension (input_path j)); cbn [andb] in *.
  2:{ destruct (Hno eq_refl) as (_ & _ & -> & _).
      repeat split; try done; intros; try done; try tauto;
        intuition congruence. }
  destruct (fs_exists w (output_path j)); cbn [andb negb] in *.
  - destruct (force_overwrite bp); cbn [negb] in *.
    + destruct (Hyes eq_refl) as (_ & _ & -> & _).
      specialize (Hprob eq_refl).
      destruct (conv.1); repeat split; try done; intros; try done;
        try tauto; try intuition congruence.
    + destruct (Hno eq_refl) as (_ & _ & -> & _).
      repeat split; try done; intros; try done; try tauto;
        intuition congruence.
  - destruct (Hyes eq_refl) as (_ & _ & -> & _).
    specialize (Hprob eq_refl).
    destruct (conv.1); repeat split; try done; intros; try done;
      try tauto; try intuition congruence.
Qed.

(** C8, as the code has it.  Take a job for which the status of the input,
    of the output and of the directory of the output can be read.  The
    checks of [process_file] come in a fixed order.  The job is counted as
    skipped exactly when its input exists and is a regular file and either
    its extension is not .heic or .heif (in any case of letters) or its
    output exists and overwriting is off.  It is counted as failed exactly
    when the input is missing or is not a regular file, or when the checks
    pass and the conversion returns [false], which it does for every
    problem of the conversion (a limit exceeded, a file not read or not
    decoded, a directory or an output not made, an error of the encoder).
    The thread is then back at the head of its loop in a process that is
    alive, the queue is as it was, and [process_file] was called once:
    there is no retry. *)
Theorem outcome_classification stat_fails bp w j :
  stat_fails (input_path j) = false ->
  stat_fails (output_path j) = false ->
  stat_fails (Path.parent_path (output_path j)) = false ->
  let conv := Throwing.convert_heif_to_jpeg stat_fails (input_path j)
                (output_path j) (quality bp) (max_width bp) (max_height bp)
                (memory_per_thread_mb bp)
                (record (call_of bp j) (warned bp j w)) in
  let passes :=
    Throwing.fs_exists stat_fails w (input_path j) = Some true
    /\ Throwing.is_regular_file stat_fails w (input_path j) = Some true
    /\ recognized_extension (input_path j) = true
    /\ (Throwing.fs_exists stat_fails w (output_path j) = Some false
        \/ force_overwrite bp = true) in
  exists o mid w',
    Throwing.handle_job stat_fails j bp w
    = Throwing.Normal
        (LoopHead, set_counters (bump o (counters bp)) bp, w')
    /\ job_queue (set_counters (bump o (counters bp)) bp) = job_queue bp
    /\ w_log w' = Counted o :: mid ++ call_of bp j
                  :: over_limit_warning bp j ++ w_log w
    /\ omap call_event mid = []
    /\ (forall m i,
          pool m !! i = Some (Holding j) -> processor m = bp ->
          world m = w ->
          Throwing.step stat_fails i (Throwing.Alive m)
          = Some (Throwing.Alive
                    (mk_machine (set_counters (bump o (counters bp)) bp) w'
                       (<[i := LoopHead]> (pool m)))))
    /\ (o = skipped
        <-> Throwing.fs_exists stat_fails w (input_path j) = Some true
            /\ Throwing.is_regular_file stat_fails w (input_path j)
               = Some true
            /\ (recognized_extension (input_path j) = false
                \/ (Throwing.fs_exists stat_fails w (output_path j)
                    = Some true
                    /\ force_overwrite bp = false)))
    /\ (o = failed
        <-> Throwing.fs_exists stat_fails w (input_path j) = Some false
            \/ Throwing.is_regular_file stat_fails w (input_path j)
               = Some false
            \/ (passes /\ exists w'', conv = Throwing.Normal (false, w'')))
    /\ (o = succeeded
        <-> passes /\ exists w'', conv = Throwing.Normal (true, w''))
    /\ (passes ->
        conversion_problem w (input_path j) (output_path j) (quality bp)
          (max_width bp) (max_height bp) (memory_per_thread_mb bp) ->
        o = failed)
    /\ (recognized_extension (input_path j) = true
        <-> Path.lowercase (Path.extension (input_path j)) = ".heic"%string
            \/ Path.lowercase (Path.extension (input_path j))
               = ".heif"%string).
Proof.
  intros Hi Ho Hp conv passes.
  destruct (handle_job_outcome bp w j)
    as (o & mid & w' & Hjob & Hq & Hlog & Hcalls & Hskip & Hfail & Hsucc
        & Hprob & Hext).
  exists o, mid, w'.
  assert (Hnormal : Throwing.handle_job stat_fails j bp w
                    = Throwing.Normal
                        (LoopHead, set_counters (bump o (counters bp)) bp,
                         w')).
  { by rewrite handle_job_no_throw, Hjob. }
  split; [done|]. split; [done|]. split; [done|]. split; [done|].
  split.
  { intros m i Hpool <- <-. unfold Throwing.step, Throwing.worker_thread.
    by rewrite Hpool, Hnormal. }
  assert (Hconv : conv = Throwing.Normal
                    (convert_heif_to_jpeg (input_path j) (output_path j)
                       (quality bp) (max_width bp) (max_height bp)
                       (memory_per_thread_mb bp)
                       (record (call_of bp j) (warned bp j w)))).
  { by apply convert_no_throw. }
  assert (Hb : forall b,
            (exists w'', conv = Throwing.Normal (b, w''))
            <-> (convert_heif_to_jpeg (input_path j) (output_path j)
                   (quality bp) (max_width bp) (max_height bp)
                   (memory_per_thread_mb bp)
                   (record (call_of bp j) (warned bp j w))).1 = b).
  { intros b. rewrite Hconv.
    destruct (convert_heif_to_jpeg _ _ _ _ _ _ _) as [ok w1]. cbn. split.
    - by intros (w'' & [= -> _]).
    - intros ->. by exists w1. }
  assert (Hpasses : passes
                    <-> reaches_conversion w (input_path j) (output_path j)
                          (force_overwrite bp) = true).
  { unfold passes, reaches_conversion, Throwing.fs_exists,
      Throwing.is_regular_file. rewrite Hi, Ho.
    destruct (fs_exists w (input_path j)), (is_regular_file w (input_path j)),
      (recognized_extension (input_path j)), (fs_exists w (output_path j)),
      (force_overwrite bp); cbn; intuition congruence. }
  unfold Throwing.fs_exists, Throwing.is_regular_file in *.
  rewrite Hi, Ho in *.
  split.
  { rewrite Hskip. split.
    - intros (-> & -> & [?|[-> ->]]); auto.
    - intros ([= ->] & [= ->] & [?|[[= ->] ->]]); auto. }
  split.
  { rewrite Hfail, Hpasses, Hb. split.
    - intros [->|[->|?]]; auto.
    - intros [[= ->]|[[= ->]|?]]; auto. }
  split; [by rewrite Hsucc, Hpasses, Hb|].
  split; [|done]. rewrite Hpasses. exact Hprob.
Qed.

(** "done.heic" is a regular file with a recognized extension whose output
    exists: the job is counted as skipped *)
Lemma outcome_classification_sample :
  exists o (mid : list event) w',
    Throwing.handle_job Sample.readable Sample.done_job Sample.tight
      Sample.disk
    = Throwing.Normal
        (LoopHead,
         set_counters (bump o (counters Sample.tight)) Sample.tight, w')
    /\ omap call_event mid = []
    /\ o = skipped.
Proof.
  destruct (outcome_classification Sample.readable Sample.tight Sample.disk
              Sample.done_job eq_refl eq_refl eq_refl)
    as (o & mid & w' & H1 & _ & _ & H4 & _ & Hskip & _).
  exists o, mid, w'. split; [exact H1|]. split; [exact H4|].
  apply Hskip. split; [reflexivity|]. split; [reflexivity|].
  right. split; reflexivity.
Defined.

(** C8 as stated fails: the input "notes.txt" is not of a recognized type,
    and the job is counted as failed, not as skipped, because the file does
    not exist. *)
Lemma outcome_counterexample :
  recognized_extension (input_path Sample.notes_job) = false
  /\ match Throwing.handle_job Sample.readable Sample.notes_job
             Sample.tight Sample.disk with
     | Throwing.Normal (t, bp, w') =>
         t = LoopHead
         /\ bp = set_counters (mk_counters 0 1 0) Sample.tight
         /\ rev (w_log w')
            = [CallProcessFile "notes.txt" "notes.jpg" 95 false 0 0 100;
               Console (MsgInputNotFound "notes.txt");
               Counted failed]
     | Throwing.Thrown _ => False
     end.
Proof. vm_compute. repeat split; congruence. Qed.

(** ** A budget of zero *)

(** C2, as the code has it.  A total budget of 0 is not treated as
    unbounded: the constructor floors the ceiling at 100 MB, as for every
    budget of at most 100 MB per worker.  A worker compares every estimate
    with that ceiling, prints the warning for an estimate above it, and
    passes 100 as the limit in either case; the conversion then refuses a
    file whose estimate exceeds 100 MB. *)
Theorem zero_budget_floor quality0 force0 max_width0 max_height0
    worker_count :
  1 <= worker_count ->
  exists bp0,
    BatchProcessor_new quality0 force0 max_width0 max_height0 0 worker_count
    = Some bp0
    /\ memory_per_thread_mb bp0 = 100
    /\ (forall total_budget_mb,
          0 <= total_budget_mb -> total_budget_mb / worker_count <= 100 ->
          BatchProcessor_new quality0 force0 max_width0 max_height0
            total_budget_mb worker_count = Some bp0)
    /\ (forall bp w j,
          same_config bp bp0 ->
          exists o mid w',
            handle_job j bp w
            = (LoopHead, set_counters (bump o (counters bp)) bp, w')
            /\ w_log w'
               = Counted o :: mid
                 ++ CallProcessFile (input_path j) (output_path j)
                      (quality bp) (force_overwrite bp) (max_width bp)
                      (max_height bp) 100
                 :: (if 100 <? estimated_memory_mb j
                     then [Console (MsgOverLimit (input_path j)
                                    (estimated_memory_mb j) 100)]
                     else [])
                 ++ w_log w)
    /\ (forall heif_path jpeg_path quality' max_width' max_height' w,
          100 < estimate_memory_requirement w heif_path ->
          (convert_heif_to_jpeg heif_path jpeg_path quality' max_width'
             max_height' 100 w).1 = false).
Proof.
  intros HT. unfold BatchProcessor_new.
  destruct (Z.eqb_spec worker_count 0) as [->|Hne]; [lia|].
  eexists. split; [reflexivity|]. cbn [memory_per_thread_mb].
  rewrite Z.div_0_l by done.
  split; [done|]. split; [|split].
  - intros b Hb Hdiv. do 2 f_equal. revert Hdiv.
    generalize (b / worker_count). intros q Hq. lia.
  - intros bp w j (_ & _ & _ & _ & Hmem & _). cbn in Hmem.
    destruct (handle_job_shape j bp w) as (o & mid & w' & H1 & H2 & _).
    exists o, mid, w'. split; [done|].
    rewrite H2. unfold call_of, over_limit_warning. by rewrite Hmem.
  - intros heif_path jpeg_path quality' max_width' max_height' w Hest.
    destruct (convert_refuses heif_path jpeg_path quality' max_width'
                max_height' 100 w) as (rest & w' & -> & _); [|done].
    unfold memory_exceeds. apply Z.ltb_lt in Hest. by rewrite Hest.
Qed.

(** one worker and no budget: the ceiling is 100, as for a budget of 100 *)
Lemma zero_budget_floor_sample :
  exists bp0,
    BatchProcessor_new 95 false 0 0 0 1 = Some bp0
    /\ memory_per_thread_mb bp0 = 100
    /\ BatchProcessor_new 95 false 0 0 100 1 = Some bp0.
Proof.
  destruct (zero_budget_floor 95 false 0 0 1) as (bp0 & H1 & H2 & H3 & _);
    [lia|].
  exists bp0. split; [exact H1|]. split; [exact H2|].
  apply H3; [lia | vm_compute; discriminate].
Defined.

(** C2 as stated fails: with the budget 0 the worker does compare the
    estimate of "big.heic" (496 MB) with the ceiling (100 MB), the
    conversion refuses the file and the job is counted as failed; with the
    largest budget there is, the same job succeeds. *)
Lemma zero_budget_counterexample :
  ((fun bp => counters (processor (process_all bp Sample.disk)))
     <$> Sample.batch 0 1 [("big.heic", "big.jpg")]%string)
  = Some (mk_counters 0 1 0)
  /\ ((fun bp => counters (processor (process_all bp Sample.disk)))
        <$> Sample.batch Sample.SIZE_MAX 1 [("big.heic", "big.jpg")]%string)
     = Some (mk_counters 1 0 0)
  /\ ((fun bp => rev (w_log (world (process_all bp Sample.disk))))
        <$> Sample.batch 0 1 [("big.heic", "big.jpg")]%string)
     = Some [Dequeue (mk_job "big.heic" "big.jpg" 496);
             Console (MsgOverLimit "big.heic" 496 100);
             CallProcessFile "big.heic" "big.jpg" 95 false 0 0 100;
             CallConvert "big.heic" "big.jpg" 95 0 0 100;
             Console (MsgConverting "big.heic" "big.jpg");
             Console (MsgMemoryExceeds 496 100);
             Counted failed].
Proof. vm_compute. repeat split; congruence. Qed.

(** ** The estimate *)

Lemma estimate_readable w image_path handle :
  heif_alloc_ok (w_sys w) = true ->
  heif_context_read_from_file w image_path = Some (Some handle) ->
  estimate_memory_requirement w image_path
  = estimate_from_dimensions (hh_width handle) (hh_height handle).
Proof.
  intros Ha Hr. unfold estimate_memory_requirement. by rewrite Ha, Hr.
Qed.

(** For a readable file whose products do not overflow [int], the estimate
    is the formula of the specification. *)
Lemma estimate_memory_requirement_formula w image_path handle :
  heif_alloc_ok (w_sys w) = true ->
  heif_context_read_from_file w image_path = Some (Some handle) ->
  0 <= hh_width handle -> 0 <= hh_height handle ->
  hh_width handle * hh_height handle * 4 <= INT_MAX ->
  estimate_memory_requirement w image_path
  = estimate_formula (hh_width handle) (hh_height handle).
Proof.
  intros Ha Hr Hw Hh Hb.
  rewrite (estimate_readable w image_path handle Ha Hr).
  by apply estimate_in_range.
Qed.

(** a job with the estimate 0 gets no warning, and a file with the estimate
    0 passes the memory check of the conversion, whatever the limit *)
Lemma zero_cost_admitted bp j w heif_path max_memory_mb :
  0 <= memory_per_thread_mb bp -> estimated_memory_mb j = 0 ->
  estimate_memory_requirement w heif_path = 0 -> 0 <= max_memory_mb ->
  over_limit_warning bp j = []
  /\ memory_exceeds w heif_path max_memory_mb = false.
Proof.
  intros Hc Hj Hw Hm. unfold over_limit_warning, memory_exceeds.
  rewrite Hj, Hw.
  destruct (Z.ltb_spec (memory_per_thread_mb bp) 0); [lia|].
  destruct (Z.ltb_spec max_memory_mb 0); [lia|]. by rewrite andb_false_r.
Qed.

(** C6 does not hold of the code for large images.  The products
    [width * height * 3] and [width * height * 4] are computed in [int];
    for a primary image of 24000 by 24000 pixels the second one exceeds
    [INT_MAX], so that the estimate is 26388279066263 MB where the formula
    of the specification gives 5783 MB. *)
Theorem estimate_wraps_for_large_image :
  get_heif_dimensions Sample.disk "huge.heic" = Some (24000, 24000)
  /\ int_mul (int_mul 24000 24000) 3 = 1728000000
  /\ int_mul (int_mul 24000 24000) 4 = -1990967296
  /\ estimate_memory_requirement Sample.disk "huge.heic" = 26388279066263
  /\ estimate_formula 24000 24000 = 5783.
Proof. vm_compute. repeat split; congruence. Qed.

(** ** Running a batch again *)

(** C7, as the code has it.  Take a job whose input is a regular file and
    whose output exists, and two batches without overwriting, the second
    started where the first one has got to.  In every state of either run
    the output is the node it was at the start; and whenever a worker
    handles the job, it is counted as skipped, the conversion is not
    called and no file changes. *)
Theorem idempotent_skip bp1 bp2 w j :
  force_overwrite bp1 = false -> force_overwrite bp2 = false ->
  fs_exists w (input_path j) = true ->
  is_regular_file w (input_path j) = true ->
  fs_exists w (output_path j) = true ->
  forall m1 m2,
    rtc step_rel (start bp1 w) m1 ->
    rtc step_rel (start bp2 (world m1)) m2 ->
    w_fs (world m1) !! output_path j = w_fs w !! output_path j
    /\ w_fs (world m2) !! output_path j = w_fs w !! output_path j
    /\ forall m,
         m = m1 \/ m = m2 ->
         exists mid w',
           handle_job j (processor m) (world m)
           = (LoopHead,
              set_counters (bump skipped (counters (processor m)))
                (processor m), w')
           /\ w_fs w' = w_fs (world m)
           /\ w_log w' = Counted skipped :: mid ++ call_of (processor m) j
                         :: over_limit_warning (processor m) j
                         ++ w_log (world m)
           /\ Forall printed mid
           /\ omap convert_event mid = [].
Proof.
  intros Hf1 Hf2 Hin Hreg Hout m1 m2 Hrun1 Hrun2.
  destruct (run_keeps bp1 w m1 Hf1 Hrun1) as [Hk1 Hfm1].
  destruct (run_keeps bp2 (world m1) m2 Hf2 Hrun2) as [Hk2 Hfm2].
  pose proof (keeps_trans _ _ _ _ Hk1 Hk2) as Hk12.
  split; [by apply (keeps_exists w (world m1))|].
  split; [by apply (keeps_exists w (world m2))|].
  assert (Hskip : forall m,
            keeps None w (world m) ->
            force_overwrite (processor m) = false ->
            exists mid w',
              handle_job j (processor m) (world m)
              = (LoopHead,
                 set_counters (bump skipped (counters (processor m)))
                   (processor m), w')
              /\ w_fs w' = w_fs (world m)
              /\ w_log w' = Counted skipped :: mid ++ call_of (processor m) j
                            :: over_limit_warning (processor m) j
                            ++ w_log (world m)
              /\ Forall printed mid
              /\ omap convert_event mid = []).
  { intros m Hk Hf.
    destruct (keeps_exists w (world m) (input_path j) Hk) as (Hi1 & Hi2 & _).
    destruct (keeps_exists w (world m) (output_path j) Hk) as (Ho1 & _).
    destruct (handle_job_spec j (processor m) (world m))
      as (o & mid & w' & Hstep & Hlog & _ & _ & _ & Hno & _).
    destruct Hno as (Hfs & Hconv & -> & Hprinted).
    { unfold reaches_conversion. rewrite Hf, Ho1 by done. cbn.
      by rewrite andb_false_r. }
    rewrite Hi1, Hi2 in Hstep, Hlog by done. cbn [andb] in Hstep, Hlog.
    by exists mid, w'. }
  intros m [-> | ->]; by apply Hskip.
Qed.

(** "done.heic" with the output "done.jpg" in place: skipped by a first
    batch and again by a second one, and "done.jpg" stays as it is *)
Lemma idempotent_skip_sample :
  let first := process_all Sample.rerun Sample.disk in
  let second := process_all Sample.rerun (world first) in
  w_fs (world second) !! "done.jpg"%string
  = w_fs Sample.disk !! "done.jpg"%string
  /\ exists mid w',
       handle_job Sample.done_job (processor second) (world second)
       = (LoopHead,
          set_counters (bump skipped (counters (processor second)))
            (processor second), w')
       /\ w_fs w' = w_fs (world second)
       /\ Forall printed mid
       /\ omap convert_event mid = [].
Proof.
  intros first second.
  destruct (idempotent_skip Sample.rerun Sample.rerun Sample.disk
              Sample.done_job eq_refl eq_refl eq_refl eq_refl eq_refl
              first second) as (_ & Hout & Hjob).
  - apply process_all_joined.
  - apply process_all_joined.
  - split; [exact Hout|].
    destruct (Hjob second (or_intror eq_refl))
      as (mid & w' & H1 & H2 & _ & H4 & H5).
    exists mid, w'. split; [exact H1|]. split; [exact H2|].
    split; [exact H4 | exact H5].
Defined.

(** C7 as stated fails: the output "gone.jpg" exists and overwriting is
    off, yet the job is counted as failed, not as skipped, because its
    input does not exist. *)
Lemma idempotent_skip_counterexample :
  fs_exists Sample.disk (output_path Sample.gone_job) = true
  /\ force_overwrite Sample.tight = false
  /\ (handle_job Sample.gone_job Sample.tight Sample.disk).1.2
     = set_counters (mk_counters 0 1 0) Sample.tight
  /\ rev (w_log (handle_job Sample.gone_job Sample.tight
                   Sample.disk).2)
     = [CallProcessFile "gone.heic" "gone.jpg" 95 false 0 0 100;
        Console (MsgInputNotFound "gone.heic");
        Counted failed].
Proof. vm_compute. repeat split; congruence. Qed.

(** * More properties of the program *)

(** ** The names of the outputs *)

(** X1.  [change_extension] puts the new extension, with a period in front
    whether or not it was given with one, in the place of the old one: for
    a path with a file name and an extension without period or separator,
    the result is in the same directory, has the same stem, and has the new
    extension. *)
Theorem change_extension_spec p e :
  e <> ""%string ->
  "/"%char ∉ list_ascii_of_string e -> "."%char ∉ list_ascii_of_string e ->
  Path.filename p <> ""%string ->
  change_extension p e = change_extension p (String "." e)
  /\ Path.parent_path (change_extension p e) = Path.parent_path p
  /\ Path.filename (change_extension p e) = Path.stem p +:+ String "." e
  /\ Path.stem (change_extension p e) = Path.stem p
  /\ Path.extension (change_extension p e) = String "." e.
Proof.
  intros He Hslash%after_last_None_iff Hdot Hf.
  assert (Hdot' := Hdot). apply after_last_None_iff in Hdot'.
  assert (E : change_extension p e = change_extension p (String "." e)).
  { unfold change_extension. destruct e as [|a e]; [done|].
    destruct (Ascii.eqb_spec a ".") as [->|_]; [|done].
    exfalso. apply Hdot. cbn. left. }
  split; [done|]. rewrite E.
  pose proof (change_extension_filename p e Hslash) as Hname.
  assert (Hstem : Path.stem p <> ""%string) by by rewrite stem_empty.
  split.
  { unfold change_extension. change (Ascii.eqb "." ".") with true. cbv iota.
    apply parent_path_append.
    - destruct (Path.stem p); [done | by rewrite append_cons].
    - rewrite after_last_app; [by rewrite stem_free|].
      cbn. by rewrite Hslash. }
  split; [done|].
  destruct (extension_of_name _ _ _ Hstem He Hdot' Hname) as [H1 H2].
  by split.
Qed.

(** "photos/a.heic" becomes "photos/a.jpg", with "jpg" as with ".jpg" *)
Lemma change_extension_sample :
  change_extension "photos/a.heic" "jpg" = "photos/a.jpg"%string
  /\ Path.parent_path (change_extension "photos/a.heic" "jpg")
     = Path.parent_path "photos/a.heic"
  /\ Path.extension (change_extension "photos/a.heic" "jpg") = ".jpg"%string.
Proof.
  destruct (change_extension_spec "photos/a.heic" "jpg")
    as (H1 & H2 & _ & _ & H5).
  - discriminate.
  - apply (bool_decide_unpack _). vm_compute. exact I.
  - apply (bool_decide_unpack _). vm_compute. exact I.
  - discriminate.
  - split; [rewrite H1; reflexivity|]. split; [exact H2 | exact H5].
Defined.

(** X2.  No output path that [main] makes for a job is itself taken as an
    input: whatever the input and the output directory, [process_file]
    does not recognize the extension of the output path. *)
Theorem outputs_are_not_inputs output_directory input_filename :
  recognized_extension (Main.job_paths output_directory input_filename).2
  = false.
Proof. apply job_paths_not_recognized. Qed.

(** ** Metadata *)

(** X3.  The markers written to the JPEG file are those of the metadata
    blocks of the image that have a type, are not empty and can be read,
    and whose type is "Exif", "XMP" or "IPTC": an Exif block goes into an
    APP1 marker after the six bytes "Exif\0\0", an XMP block into an APP1
    marker after the name space and a zero byte, an IPTC block into an
    APP13 marker as it is.  Blocks of any other type are dropped. *)
Theorem metadata_markers handle code payload :
  (code, payload) ∈ preserve_metadata (extract_metadata handle)
  <-> exists block type data,
        block ∈ hh_blocks handle
        /\ rb_type block = Some type
        /\ rb_size block <> 0
        /\ rb_data block = Some data
        /\ ((type = "Exif"%string /\ code = 225
             /\ payload = [69; 120; 105; 102; 0; 0] ++ data)
            \/ (type = "XMP"%string /\ code = 225
                /\ payload
                   = bytes_of_string "http://ns.adobe.com/xap/1.0/"
                     ++ 0 :: data)
            \/ (type = "IPTC"%string /\ code = 237 /\ payload = data)).
Proof.
  unfold preserve_metadata, extract_metadata.
  rewrite list_elem_of_omap. split.
  - intros (b & Hb & Hmarker).
    apply list_elem_of_omap in Hb as (block & Hblock & Hsome).
    destruct (rb_type block) as [type|] eqn:Ht; [|done].
    destruct (Z.eqb_spec (rb_size block) 0) as [|Hsize]; [done|].
    destruct (rb_data block) as [data|] eqn:Hd; [|done].
    injection Hsome as <-. cbn in Hmarker.
    exists block, type, data. do 4 (split; [done|]).
    destruct (String.eqb_spec type "Exif") as [->|_].
    { injection Hmarker as <- <-. by left. }
    destruct (String.eqb_spec type "XMP") as [->|_].
    { injection Hmarker as <- <-. right; by left. }
    destruct (String.eqb_spec type "IPTC") as [->|_]; [|done].
    injection Hmarker as <- <-. right; by right.
  - intros (block & type & data & Hblock & Ht & Hsize & Hd & Hcases).
    exists {| mb_type := type; mb_data := data |}. split.
    + apply list_elem_of_omap. exists block. split; [done|].
      rewrite Ht, Hd. by destruct (Z.eqb_spec (rb_size block) 0).
    + cbn. by destruct Hcases as [(-> & -> & ->) | [(-> & -> & ->)
                                                   | (-> & -> & ->)]].
Qed.

(** ** The estimate *)

Lemma estimate_bounds w image_path handle :
  heif_alloc_ok (w_sys w) = true ->
  heif_context_read_from_file w image_path = Some (Some handle) ->
  0 <= hh_width handle -> 0 <= hh_height handle ->
  hh_width handle * hh_height handle * 4 <= INT_MAX ->
  estimate_memory_requirement w image_path
  = estimate_formula (hh_width handle) (hh_height handle)
  /\ 15 <= estimate_memory_requirement w image_path <= 5391.
Proof.
  intros Ha Hr Hw Hh Hb.
  rewrite (estimate_readable w image_path handle Ha Hr).
  rewrite estimate_in_range by done. split; [done|].
  rewrite estimate_formula_div. unfold INT_MAX in Hb.
  set (S := 3 * (7 * (hh_width handle * hh_height handle) + 10485760)).
  assert (HS : 31457280 <= S <= 11305746429) by (unfold S; lia).
  pose proof (Z.div_le_upper_bound (- S) 2097152 (-15) ltac:(lia)
                ltac:(lia)).
  pose proof (Z.div_le_lower_bound (- S) 2097152 (-5391) ltac:(lia)
                ltac:(lia)).
  lia.
Qed.

(** X4.  For an image that can be probed and whose pixel count times four
    fits [int], the estimate is the formula
    [ceil (1.5 * (7 * width * height + 10 MiB) / 1 MiB)]; it is at least
    15 MB, the share of the fixed overhead, and at most 5391 MB. *)
Theorem estimate_in_int_range w image_path handle :
  heif_alloc_ok (w_sys w) = true ->
  heif_context_read_from_file w image_path = Some (Some handle) ->
  0 <= hh_width handle -> 0 <= hh_height handle ->
  hh_width handle * hh_height handle * 4 <= INT_MAX ->
  estimate_memory_requirement w image_path
  = estimate_formula (hh_width handle) (hh_height handle)
  /\ 15 <= estimate_memory_requirement w image_path <= 5391.
Proof. apply estimate_bounds. Qed.

(** "big.heic" is 8000 by 6000: the estimate is 496 MB *)
Lemma estimate_in_int_range_sample :
  estimate_memory_requirement Sample.disk "big.heic" = 496
  /\ 15 <= estimate_memory_requirement Sample.disk "big.heic" <= 5391.
Proof.
  destruct (estimate_in_int_range Sample.disk "big.heic"
              {| hh_width := 8000;
                 hh_height := 6000;
                 hh_blocks := [];
                 hh_decode :=
                   Some {| hi_width := 8000;
                           hi_height := 6000;
                           hi_stride := 3 * 8000;
                           hi_plane := Some [] |} |})
    as [Heq Hbounds].
  - reflexivity.
  - reflexivity.
  - simpl. lia.
  - simpl. lia.
  - unfold INT_MAX. simpl. lia.
  - split; [|exact Hbounds]. rewrite Heq. reflexivity.
Defined.

(** X5.  Where the dimensions, if they can be read, are in that range, the
    estimate is 0 exactly when the image cannot be probed: when
    [get_heif_dimensions] fails on it. *)
Theorem estimate_zero_iff_unprobed w image_path :
  (forall width height,
     get_heif_dimensions w image_path = Some (width, height) ->
     0 <= width /\ 0 <= height /\ width * height * 4 <= INT_MAX) ->
  estimate_memory_requirement w image_path = 0
  <-> get_heif_dimensions w image_path = None.
Proof.
  intros Hrange. unfold get_heif_dimensions in *.
  unfold estimate_memory_requirement.
  destruct (heif_alloc_ok (w_sys w)) eqn:Ha; cbn [negb] in *; [|done].
  destruct (heif_context_read_from_file w image_path) as [[handle|]|] eqn:Hr;
    [|done..].
  destruct (Hrange _ _ eq_refl) as (Hw & Hh & Hb).
  destruct (estimate_bounds w image_path handle Ha Hr Hw Hh Hb)
    as [_ Hlow].
  rewrite (estimate_readable w image_path handle Ha Hr) in Hlow.
  split; [lia | done].
Qed.

(** "small.heic" can be probed and has the estimate 16; "gone.heic" does
    not exist and has the estimate 0 *)
Lemma estimate_zero_iff_unprobed_sample :
  (estimate_memory_requirement Sample.disk "small.heic" = 0
   <-> get_heif_dimensions Sample.disk "small.heic" = None)
  /\ (estimate_memory_requirement Sample.disk "gone.heic" = 0
      <-> get_heif_dimensions Sample.disk "gone.heic" = None).
Proof.
  split.
  - apply (estimate_zero_iff_unprobed Sample.disk "small.heic").
    intros width height H. vm_compute in H. injection H as <- <-.
    unfold INT_MAX. lia.
  - apply (estimate_zero_iff_unprobed Sample.disk "gone.heic").
    intros width height H. vm_compute in H. discriminate.
Defined.

(** ** Conversions *)

(** X6.  A conversion, whether it returns [true] or [false] or throws,
    leaves every file but its output as it was. *)
Theorem conversion_keeps_other_files stat_fails heif_path jpeg_path quality
    max_width max_height max_memory_mb w path n :
  path <> jpeg_path -> w_fs w !! path = Some n ->
  match Throwing.convert_heif_to_jpeg stat_fails heif_path jpeg_path quality
          max_width max_height max_memory_mb w with
  | Throwing.Normal (_, w') => w_fs w' !! path = Some n
  | Throwing.Thrown w' => w_fs w' !! path = Some n
  end.
Proof.
  intros Hne Hn.
  pose proof (convert_completion stat_fails heif_path jpeg_path quality
                max_width max_height max_memory_mb w) as Hc.
  destruct (Throwing.convert_heif_to_jpeg _ _ _ _ _ _ _ _) as [[ok w']|w'].
  - pose proof (convert_keeps heif_path jpeg_path quality max_width
                  max_height max_memory_mb w) as Hk.
    rewrite <- Hc in Hk. apply Hk; [congruence | done].
  - destruct Hc as (_ & -> & _). done.
Qed.

(** converting "small.heic" leaves "done.jpg" as it is *)
Lemma conversion_keeps_other_files_sample :
  match Throwing.convert_heif_to_jpeg Sample.readable "small.heic"
          "small.jpg" 95 0 0 100 Sample.disk with
  | Throwing.Normal (_, w') =>
      w_fs w' !! "done.jpg"%string = Some Sample.plain
  | Throwing.Thrown w' => w_fs w' !! "done.jpg"%string = Some Sample.plain
  end.
Proof.
  apply (conversion_keeps_other_files Sample.readable "small.heic"
           "small.jpg" 95 0 0 100 Sample.disk "done.jpg" Sample.plain).
  - discriminate.
  - reflexivity.
Defined.

(** X7.  A conversion returns [true] exactly when no limit is exceeded, the
    image is read and decoded, the status of the directory of the output
    can be read, the directory exists or is made, the output is opened and
    libjpeg reports no error. *)
Theorem conversion_succeeds_iff stat_fails heif_path jpeg_path quality
    max_width max_height max_memory_mb w :
  (exists w', Throwing.convert_heif_to_jpeg stat_fails heif_path jpeg_path
                quality max_width max_height max_memory_mb w
              = Throwing.Normal (true, w'))
  <-> exists handle img plane fs1 fs2,
        decoded_as heif_path max_width max_height max_memory_mb w handle
          img plane
        /\ (Path.parent_path jpeg_path = ""%string
            \/ stat_fails (Path.parent_path jpeg_path) = false)
        /\ output_dir_made w jpeg_path = Some fs1
        /\ fopen_wb (w_sys w) fs1 jpeg_path = Some fs2
        /\ jpeg_ok (w_sys w) jpeg_path (hi_width img) (hi_height img)
             quality = true.
Proof.
  pose proof (convert_normal_or_thrown stat_fails heif_path jpeg_path
                quality max_width max_height max_memory_mb w) as Hnt.
  pose proof (convert_cases heif_path jpeg_path quality max_width max_height
                max_memory_mb w) as Hcases.
  cbv zeta in Hcases.
  destruct (convert_heif_to_jpeg heif_path jpeg_path quality max_width
              max_height max_memory_mb w) as [ok wr].
  cbn [fst snd] in Hcases. split.
  - intros [w' Hw'].
    destruct Hnt as [[Hn Hstat] | [[w'' [Hth _]] _]]; [|congruence].
    rewrite Hn in Hw'. injection Hw' as -> ->.
    destruct Hcases as [[? _] | (handle & img & plane & H1 & H2 & H3 & H4
                                 & H5 & H6 & Hres)]; [done|].
    exists handle, img, plane.
    destruct (output_dir_made w jpeg_path) as [fs1|] eqn:Hmk;
      [|by destruct Hres].
    destruct (fopen_wb (w_sys w) fs1 jpeg_path) as [fs2|] eqn:Hopen;
      [|by destruct Hres].
    destruct (jpeg_ok _ _ _ _ _) eqn:Hjpeg; [|by destruct Hres].
    assert (Hdec : decoded_as heif_path max_width max_height max_memory_mb
                     w handle img plane) by done.
    exists fs1, fs2. split; [done|]. split; [|done].
    destruct Hstat as [?|[?|Hno]]; [by left | by right|].
    by destruct (Hno handle img plane).
  - intros (handle & img & plane & fs1 & fs2 & Hdec & Hstat & Hmk & Hopen
            & Hjpeg).
    destruct Hnt as [[Hn _] | (_ & _ & Hne & Hsf)].
    2:{ destruct Hstat; congruence. }
    rewrite Hn.
    destruct Hdec as (D1 & D2 & D3 & D4 & D5 & D6).
    destruct Hcases as [(_ & _ & Hwhy) | (handle' & img' & plane' & _ & _
                                          & _ & H4 & H5 & H6 & Hres)].
    + exfalso.
      destruct Hwhy as [?|[?|[?|[?|[?|(h & Hh & Hwhy)]]]]]; try congruence.
      rewrite D4 in Hh. injection Hh as <-.
      destruct Hwhy as [?|(i & Hi & ?)]; [congruence|].
      rewrite D5 in Hi. injection Hi as <-. congruence.
    + rewrite D4 in H4. injection H4 as <-.
      rewrite D5 in H5. injection H5 as <-.
      rewrite Hmk, Hopen, Hjpeg in Hres. destruct Hres as (-> & _).
      by eexists.
Qed.

(** X8.  When a conversion has returned [true], the output is a finished
    JPEG file with the dimensions of the decoded image, the quality asked
    for, the markers of the metadata of the image and the rows of the
    decoded plane, and the last line printed says so. *)
Theorem conversion_output stat_fails heif_path jpeg_path quality max_width
    max_height max_memory_mb w :
  match Throwing.convert_heif_to_jpeg stat_fails heif_path jpeg_path quality
          max_width max_height max_memory_mb w with
  | Throwing.Normal (true, w') =>
      exists handle img plane t,
        heif_context_read_from_file w heif_path = Some (Some handle)
        /\ hh_decode handle = Some img
        /\ hi_plane img = Some plane
        /\ w_fs w' !! jpeg_path
           = Some {| ntype := t;
                     ncontent :=
                       Jpeg {| j_width := hi_width img;
                               j_height := hi_height img;
                               j_quality := quality;
                               j_markers :=
                                 preserve_metadata (extract_metadata handle);
                               j_rows :=
                                 scanlines (hi_width img) (hi_height img)
                                   (hi_stride img) plane |} |}
        /\ hd_error (w_log w') = Some (Console (MsgSaved jpeg_path))
  | _ => True
  end.
Proof.
  pose proof (convert_completion stat_fails heif_path jpeg_path quality
                max_width max_height max_memory_mb w) as Hc.
  destruct (Throwing.convert_heif_to_jpeg _ _ _ _ _ _ _ _)
    as [[[|] w']|w']; [|done..].
  pose proof (convert_cases heif_path jpeg_path quality max_width max_height
                max_memory_mb w) as Hcases.
  cbv zeta in Hcases. rewrite <- Hc in Hcases. cbn [fst snd] in Hcases.
  destruct Hcases as [[? _] | (handle & img & plane & _ & _ & _ & H4 & H5
                               & H6 & Hres)]; [done|].
  destruct (output_dir_made w jpeg_path) as [fs1|]; [|by destruct Hres].
  destruct (fopen_wb (w_sys w) fs1 jpeg_path) as [fs2|]; [|by destruct Hres].
  destruct (jpeg_ok _ _ _ _ _); [|by destruct Hres].
  destruct Hres as (_ & Hfs & Hlog).
  exists handle, img, plane. eexists. do 3 (split; [done|]).
  split; [|done]. rewrite Hfs. unfold put_content. apply lookup_insert_eq.
Qed.

(** X9.  When libjpeg reports an error after the output was opened, the
    conversion returns [false] and leaves an unfinished file at the output
    path, whatever was there before. *)
Theorem encoder_error_truncates_output stat_fails heif_path jpeg_path
    quality max_width max_height max_memory_mb w handle img plane fs1 fs2 :
  decoded_as heif_path max_width max_height max_memory_mb w handle img
    plane ->
  Path.parent_path jpeg_path = ""%string
  \/ stat_fails (Path.parent_path jpeg_path) = false ->
  output_dir_made w jpeg_path = Some fs1 ->
  fopen_wb (w_sys w) fs1 jpeg_path = Some fs2 ->
  jpeg_ok (w_sys w) jpeg_path (hi_width img) (hi_height img) quality
  = false ->
  exists w' t,
    Throwing.convert_heif_to_jpeg stat_fails heif_path jpeg_path quality
      max_width max_height max_memory_mb w
    = Throwing.Normal (false, w')
    /\ w_fs w' !! jpeg_path
       = Some {| ntype := t; ncontent := Incomplete |}.
Proof.
  intros (D1 & D2 & D3 & D4 & D5 & D6) Hstat Hmk Hopen Hjpeg.
  pose proof (convert_normal_or_thrown stat_fails heif_path jpeg_path
                quality max_width max_height max_memory_mb w) as Hnt.
  pose proof (convert_cases heif_path jpeg_path quality max_width max_height
                max_memory_mb w) as Hcases.
  cbv zeta in Hcases.
  destruct (convert_heif_to_jpeg heif_path jpeg_path quality max_width
              max_height max_memory_mb w) as [ok wr].
  cbn [fst snd] in Hcases.
  destruct Hnt as [[Hn _] | (_ & _ & Hne & Hsf)].
  2:{ destruct Hstat; congruence. }
  destruct Hcases as [(_ & _ & Hwhy) | (handle' & img' & plane' & _ & _
                                        & _ & H4 & H5 & H6 & Hres)].
  { exfalso.
    destruct Hwhy as [?|[?|[?|[?|[?|(h & Hh & Hwhy)]]]]]; try congruence.
    rewrite D4 in Hh. injection Hh as <-.
    destruct Hwhy as [?|(i & Hi & ?)]; [congruence|].
    rewrite D5 in Hi. injection Hi as <-. congruence. }
  rewrite D4 in H4. injection H4 as <-.
  rewrite D5 in H5. injection H5 as <-.
  rewrite Hmk, Hopen, Hjpeg in Hres. destruct Hres as (-> & Hfs).
  exists wr. eexists. split; [done|]. rewrite Hfs.
  revert Hopen. unfold fopen_wb. destruct (_ && _); [|done].
  intros [= <-]. unfold put_content. apply lookup_insert_eq.
Qed.

(** with an encoder that fails, converting "done.heic" again with
    overwriting leaves "done.jpg" unfinished *)
Lemma encoder_error_truncates_output_sample :
  exists w' t,
    Throwing.convert_heif_to_jpeg Sample.readable "done.heic" "done.jpg" 95
      0 0 1000 Sample.broken_encoder
    = Throwing.Normal (false, w')
    /\ w_fs w' !! "done.jpg"%string
       = Some {| ntype := t; ncontent := Incomplete |}.
Proof.
  eapply (encoder_error_truncates_output Sample.readable "done.heic"
            "done.jpg" 95 0 0 1000 Sample.broken_encoder
            {| hh_width := 8000;
               hh_height := 6000;
               hh_blocks := [];
               hh_decode :=
                 Some {| hi_width := 8000;
                         hi_height := 6000;
                         hi_stride := 3 * 8000;
                         hi_plane := Some [] |} |}
            {| hi_width := 8000;
               hi_height := 6000;
               hi_stride := 3 * 8000;
               hi_plane := Some [] |}
            []).
  - repeat split; reflexivity.
  - left. reflexivity.
  - reflexivity.
  - reflexivity.
  - reflexivity.
Defined.

(** X10.  A limit that is exceeded refuses the file before anything else
    is done: the conversion returns [false] after its first line and the
    line of the refusal, no image is decoded, no directory made and no
    file changed. *)
Theorem limits_refuse_before_decoding stat_fails heif_path jpeg_path quality
    max_width max_height max_memory_mb w :
  dimensions_exceed w heif_path max_width max_height = true
  \/ memory_exceeds w heif_path max_memory_mb = true ->
  exists m w',
    Throwing.convert_heif_to_jpeg stat_fails heif_path jpeg_path quality
      max_width max_height max_memory_mb w
    = Throwing.Normal (false, w')
    /\ w_fs w' = w_fs w
    /\ w_log w' = Console m :: Console (MsgConverting heif_path jpeg_path)
                  :: CallConvert heif_path jpeg_path quality max_width
                       max_height max_memory_mb :: w_log w
    /\ (m = MsgMemoryExceeds (estimate_memory_requirement w heif_path)
              max_memory_mb
        \/ exists width height,
             get_heif_dimensions w heif_path = Some (width, height)
             /\ m = MsgDimensionsExceed width height max_width max_height).
Proof.
  intros Hlimit. unfold Throwing.convert_heif_to_jpeg.
  set (w1 := thread_safe_print _ _).
  unfold mbind, early_bind. unfold Early.bind at 1.
  assert (Hcd : check_dimensions heif_path max_width max_height w1
                = if dimensions_exceed w heif_path max_width max_height
                  then match get_heif_dimensions w heif_path with
                       | Some (width, height) =>
                           (inl false,
                            thread_safe_print
                              (MsgDimensionsExceed width height max_width
                                 max_height) w1)
                       | None => (inr tt, w1)
                       end
                  else (inr tt, w1)).
  { unfold check_dimensions, dimensions_exceed, mbind, early_bind,
      Early.bind, Early.ask.
    change (get_heif_dimensions w1 heif_path)
      with (get_heif_dimensions w heif_path).
    destruct ((0 <? max_width) || (0 <? max_height)); cbn [andb]; [|done].
    destruct (get_heif_dimensions w heif_path) as [[width height]|];
      [|done].
    by destruct (_ || _). }
  rewrite Hcd.
  destruct (dimensions_exceed w heif_path max_width max_height) eqn:Ed.
  - unfold dimensions_exceed in Ed.
    destruct (get_heif_dimensions w heif_path) as [[width height]|] eqn:Eg.
    2:{ by rewrite andb_false_r in Ed. }
    eexists _, _. split; [done|]. split; [done|]. split; [done|].
    right. by exists width, height.
  - destruct Hlimit as [?|Hmem]; [done|].
    unfold Early.bind at 1. rewrite check_memory_spec.
    change (memory_exceeds w1 heif_path max_memory_mb)
      with (memory_exceeds w heif_path max_memory_mb).
    rewrite Hmem. eexists _, _. split; [done|]. split; [done|].
    split; [done|]. by left.
Qed.

(** "big.heic" has the estimate 496: with the limit 100 it is refused *)
Lemma limits_refuse_before_decoding_sample :
  exists m w',
    Throwing.convert_heif_to_jpeg Sample.readable "big.heic" "big.jpg" 95 0
      0 100 Sample.disk
    = Throwing.Normal (false, w')
    /\ w_fs w' = w_fs Sample.disk
    /\ m = MsgMemoryExceeds 496 100.
Proof.
  destruct (limits_refuse_before_decoding Sample.readable "big.heic"
              "big.jpg" 95 0 0 100 Sample.disk)
    as (m & w' & Hc & Hfs & Hlog & _).
  - right. reflexivity.
  - exists m, w'. split; [exact Hc|]. split; [exact Hfs|].
    vm_compute in Hc. injection Hc as <-.
    vm_compute in Hlog. injection Hlog as <-. reflexivity.
Defined.

(** ** Batches *)

(** X11.  In whatever way the threads interleave, and however many there
    are, the jobs leave the queue in the order of their estimates: in every
    state of a run, the jobs taken so far are in non-decreasing order of
    estimate, none of them has a larger estimate than a job still in the
    queue, and the jobs taken and the jobs in the queue are the jobs of the
    batch. *)
Theorem cheapest_first_in_every_interleaving stat_fails bp w sched :
  match Throwing.run_schedule stat_fails sched
          (Throwing.Alive (start bp w)) with
  | Throwing.Alive m =>
      exists taken,
        dequeued (world m) = dequeued w ++ taken
        /\ taken ++ job_queue (processor m) ≡ₚ job_queue bp
        /\ StronglySorted cost_le taken
        /\ forall d k, d ∈ taken -> k ∈ job_queue (processor m) ->
                       estimated_memory_mb d <= estimated_memory_mb k
  | Throwing.Terminated _ => True
  end.
Proof.
  destruct (Throwing.run_schedule _ _ _) as [m|w'] eqn:Hrun; [|done].
  apply run_schedule_alive_old in Hrun.
  pose proof (run_schedule_rtc sched (start bp w)) as Hrtc.
  rewrite Hrun in Hrtc.
  destruct (run_invariant bp _ _ Hrtc [] (start_invariant bp w))
    as (evs & Hlog & Inv & _ & _).
  rewrite app_nil_r in Inv. cbn in Hlog.
  exists (reverse (omap dequeue_of evs)).
  split; [by apply dequeued_app|].
  split; [rewrite reverse_Permutation; apply Inv|].
  split; [apply sorted_reverse, Inv|].
  intros d k Hd Hk. rewrite elem_of_reverse in Hd.
  exact (inv_ahead _ _ _ Inv d k Hd Hk).
Qed.

(** X12.  [process_all] does not block: under every schedule it ends with
    all threads returned and the queue empty, unless the process was
    terminated, which happens only where the status of a path cannot be
    read. *)
Theorem process_all_returns_or_terminates stat_fails bp w sched :
  1 <= thread_count bp ->
  match Throwing.process_all stat_fails bp w sched with
  | Throwing.Alive final =>
      joined final = true
      /\ Forall (fun t => t = Returned) (pool final)
      /\ job_queue (processor final) = []
  | Throwing.Terminated _ => exists path, stat_fails path = true
  end.
Proof.
  intros HT.
  pose proof (process_all_completion stat_fails bp w sched) as Hdone.
  pose proof (process_all_rtc stat_fails bp w sched) as Hrun.
  destruct (Throwing.process_all stat_fails bp w sched) as [final|w'].
  - destruct Hdone as [Hj Hold]. split; [done|].
    split; [by apply joined_all|].
    by destruct (run_final bp w final HT Hold Hj) as (evs & _ & Hq & _).
  - by eapply terminated_stat.
Qed.

(** the two jobs of [Sample.rerun] for four threads: all threads return *)
Lemma process_all_returns_or_terminates_sample :
  match Throwing.process_all Sample.readable Sample.rerun Sample.disk
          [3; 1; 3]%nat with
  | Throwing.Alive final =>
      joined final = true
      /\ Forall (fun t => t = Returned) (pool final)
      /\ job_queue (processor final) = []
  | Throwing.Terminated _ => exists path, Sample.readable path = true
  end.
Proof.
  apply (process_all_returns_or_terminates Sample.readable Sample.rerun
           Sample.disk [3; 1; 3]%nat).
  simpl. lia.
Defined.

(** X13.  Without overwriting, no file that exists when a batch starts is
    changed or removed, in any state of any run, also where the process is
    terminated. *)
Theorem no_overwrite_keeps_files stat_fails bp w sched path n :
  force_overwrite bp = false -> w_fs w !! path = Some n ->
  w_fs (process_world
          (Throwing.run_schedule stat_fails sched
             (Throwing.Alive (start bp w)))) !! path
  = Some n.
Proof.
  intros Hforce Hn.
  destruct (Throwing.run_schedule _ _ _) as [m|w'] eqn:Hrun; cbn.
  - apply run_schedule_alive_old in Hrun.
    pose proof (run_schedule_rtc sched (start bp w)) as Hrtc.
    rewrite Hrun in Hrtc.
    destruct (run_keeps bp w m Hforce Hrtc) as [Hk _]. by apply Hk.
  - apply run_schedule_terminated_from in Hrun as (m1 & Hrtc & ->).
    destruct (run_keeps bp w m1 Hforce Hrtc) as [Hk _]. by apply Hk.
Qed.

(** "done.jpg" stays as it is while [Sample.rerun] runs *)
Lemma no_overwrite_keeps_files_sample :
  w_fs (process_world
          (Throwing.run_schedule Sample.readable [0; 1; 0; 1; 2]%nat
             (Throwing.Alive (start Sample.rerun Sample.disk))))
    !! "done.jpg"%string
  = Some Sample.plain.
Proof.
  apply (no_overwrite_keeps_files Sample.readable Sample.rerun Sample.disk
           [0; 1; 0; 1; 2]%nat "done.jpg" Sample.plain).
  - reflexivity.
  - reflexivity.
Defined.

(** X14.  Where the status of the input of a job cannot be read,
    [fs::exists] throws inside [process_file]: the call was logged, no
    counter is incremented and no file changes; the exception leaves the
    thread, the process is terminated, and no thread takes another step. *)
Theorem status_error_terminates stat_fails j bp w :
  stat_fails (input_path j) = true ->
  exists w',
    Throwing.handle_job stat_fails j bp w = Throwing.Thrown w'
    /\ w_fs w' = w_fs w
    /\ w_log w' = call_of bp j :: over_limit_warning bp j ++ w_log w
    /\ (forall m i,
          pool m !! i = Some (Holding j) -> processor m = bp ->
          world m = w ->
          Throwing.step stat_fails i (Throwing.Alive m)
          = Some (Throwing.Terminated w'))
    /\ (forall i, Throwing.step stat_fails i (Throwing.Terminated w') = None)
    /\ (forall sched,
          Throwing.run_schedule stat_fails sched (Throwing.Terminated w')
          = Throwing.Terminated w').
Proof.
  intros Hi.
  assert (Hthrow : exists w',
            Throwing.handle_job stat_fails j bp w = Throwing.Thrown w'
            /\ w_fs w' = w_fs w
            /\ w_log w' = call_of bp j :: over_limit_warning bp j
                          ++ w_log w).
  { unfold Throwing.handle_job, Throwing.process_file, Throwing.fs_exists,
      over_limit_warning, call_of.
    rewrite Hi.
    destruct (memory_per_thread_mb bp <? estimated_memory_mb j);
      by eexists. }
  destruct Hthrow as (w' & Hthrow & Hfs & Hlog).
  exists w'. split; [done|]. split; [done|]. split; [done|].
  split; [|split; [done | intros sched; apply run_schedule_terminated]].
  intros m i Hpool <- <-. unfold Throwing.step, Throwing.worker_thread.
  by rewrite Hpool, Hthrow.
Qed.

(** nothing under "locked/" can be looked at: the job for "locked/a.heic"
    ends the process *)
Lemma status_error_terminates_sample :
  exists w',
    Throwing.handle_job Sample.locked Sample.locked_job Sample.tight
      Sample.disk
    = Throwing.Thrown w'
    /\ w_log w' = [CallProcessFile "locked/a.heic" "a.jpg" 95 false 0 0 100].
Proof.
  destruct (status_error_terminates Sample.locked Sample.locked_job
              Sample.tight Sample.disk)
    as (w' & Hthrow & _ & Hlog & _).
  - reflexivity.
  - exists w'. split; [exact Hthrow|]. rewrite Hlog. reflexivity.
Defined.

(** X15.  The definitions without the exception are the program where
    every status can be read.  A run of the process in which it stays alive
    is a run of the machine without the exception, whatever can be read;
    and where every status can be read, a thread steps as in that machine,
    so that the process is the machine under every schedule. *)
Theorem readable_runs_agree stat_fails :
  (forall m m',
     rtc (Throwing.step_rel stat_fails) (Throwing.Alive m)
       (Throwing.Alive m') ->
     rtc step_rel m m')
  /\ ((forall path, stat_fails path = false) ->
      (forall i m,
         Throwing.step stat_fails i (Throwing.Alive m)
         = Throwing.Alive <$> step i m)
      /\ (forall sched m,
            Throwing.run_schedule stat_fails sched (Throwing.Alive m)
            = Throwing.Alive (run_schedule sched m))
      /\ (forall bp w,
            Throwing.process_all stat_fails bp w []
            = Throwing.Alive (process_all bp w))).
Proof.
  split.
  { intros m m' Hrun. by eapply rtc_alive_old. }
  intros Hr. split; [intros; by apply step_readable|].
  split; [intros; by apply run_schedule_readable|].
  intros bp w. unfold Throwing.process_all, process_all.
  cbn [Throwing.run_schedule]. by apply round_robin_readable.
Qed.

(** with every status readable, the batch [Sample.rerun] runs as without
    the exception *)
Lemma readable_runs_agree_sample :
  Throwing.process_all Sample.readable Sample.rerun Sample.disk []
  = Throwing.Alive (process_all Sample.rerun Sample.disk).
Proof.
  destruct (readable_runs_agree Sample.readable) as [_ H].
  destruct H as (_ & _ & H); [reflexivity|]. apply H.
Defined.

(** ** [main] *)

(** X16.  [main] never starts a batch without a thread: the count that
    [get_performance_core_count] returns is at least 1, and it is
    [max(2, hardware_concurrency / 2)] where neither [sysctlbyname] call
    gave a count; the constructor of the processor never divides by
    zero. *)
Theorem worker_count_positive host :
  1 <= (get_performance_core_count host).1
  /\ (perflevel0_physicalcpu host = None -> physicalcpu host = None ->
      get_performance_core_count host
      = (Z.max 2 (hardware_concurrency host / 2),
         [LineDefaultThreads (Z.max 2 (hardware_concurrency host / 2))]))
  /\ forall quality0 force max_width0 max_height0 memory_budget_mb,
       BatchProcessor_new quality0 force max_width0 max_height0
         memory_budget_mb (get_performance_core_count host).1
       <> None.
Proof.
  pose proof (core_count_positive host) as Hc. split; [done|]. split.
  - intros H1 H2. unfold get_performance_core_count. by rewrite H1, H2.
  - intros. unfold BatchProcessor_new.
    by destruct (Z.eqb_spec (get_performance_core_count host).1 0); [lia|].
Qed.

(** X17.  Whatever the arguments, a batch that [main] starts has a quality
    from 1 to 100, limits of the dimensions that are not negative, a
    ceiling per thread of at least 100 MB, at least one thread, counters at
    zero and at least one job; the input of every job is one of the
    arguments, its output is not a path that [process_file] would take as
    an input, and its estimate is the one of its input when the batch
    starts. *)
Theorem main_batch_configuration stat_fails host argv w :
  match Throwing.main_setup stat_fails host argv w with
  | (_, w1, Throwing.Batch bp memory_budget_mb max_threads) =>
      1 <= quality bp <= 100
      /\ 0 <= max_width bp <= INT_MAX
      /\ 0 <= max_height bp <= INT_MAX
      /\ 1 <= thread_count bp
      /\ thread_count bp = max_threads
      /\ memory_per_thread_mb bp
         = Z.max 100 (memory_budget_mb / max_threads)
      /\ counters bp = mk_counters 0 0 0
      /\ job_queue bp <> []
      /\ forall j,
           j ∈ job_queue bp ->
           input_path j ∈ tail argv
           /\ recognized_extension (output_path j) = false
           /\ estimated_memory_mb j
              = estimate_memory_requirement w1 (input_path j)
  | _ => True
  end.
Proof.
  pose proof (main_setup_spec stat_fails host argv w) as Hsetup.
  destruct (Throwing.main_setup stat_fails host argv w)
    as [[lines0 w1] [status0|bp memory_budget_mb max_threads| |]];
    [done| |done..].
  destruct Hsetup as (v & bp0 & Hparse & _ & Hin & -> & _ & Hnew & ->
                      & _ & _ & _).
  destruct (parse_args_spec _ _ _ _ (le_n _) Hparse)
    as (Hvalid & (inputs & Hinputs & Hsub) & _).
  destruct Hvalid as (Hq & Hw & Hh & _).
  { unfold valid_locals, INT_MAX. cbn. lia. }
  cbn in Hinputs.
  pose proof (core_count_positive host) as Hcores.
  destruct (add_jobs_spec w1 (Main.job_paths (Main.output_directory v)
                                <$> Main.input_filenames v) bp0)
    as (Hqueue & Hcnt & Hcfg).
  destruct Hcfg as (C1 & _ & C3 & C4 & C5 & C6).
  revert Hnew. unfold BatchProcessor_new.
  destruct (Z.eqb_spec (get_performance_core_count host).1 0); [lia|].
  intros [= <-]. cbn in *.
  rewrite C1, C3, C4, C5, C6, Hcnt, Hqueue, app_nil_r.
  split; [exact Hq|]. split; [exact Hw|]. split; [exact Hh|].
  split; [exact Hcores|]. do 3 (split; [reflexivity|]). split.
  { destruct (Main.input_filenames v) as [|a l]; [by destruct Hin|].
    rewrite fmap_cons. unfold jobs_of. rewrite fmap_cons, reverse_cons.
    by intros [_ ?]%app_eq_nil. }
  intros j Hj. rewrite elem_of_reverse in Hj. unfold jobs_of in Hj.
  apply list_elem_of_fmap in Hj as (f & -> & Hf).
  apply list_elem_of_fmap in Hf as (a & -> & Ha). cbn.
  split; [|split; [apply job_paths_not_recognized | done]].
  eapply elem_of_sublist; [|exact Hsub]. by rewrite <- Hinputs.
Qed.


(** X19.  Arguments none of which is an option are the inputs of the
    batch, in their order, with the defaults: quality 95, no overwriting,
    no limit on the dimensions, three quarters of the available memory as
    budget; each output is beside its input, with the extension ".jpg";
    no file is touched before the batch. *)
Theorem plain_arguments_become_jobs stat_fails host argv0 inputs w :
  inputs <> [] ->
  Forall (fun arg => arg ∉ option_names) inputs ->
  let memory_budget_mb :=
    to_size_t (get_available_memory_mb host * 3) / 4 in
  let max_threads := (get_performance_core_count host).1 in
  exists lines bp0,
    BatchProcessor_new 95 false 0 0 memory_budget_mb max_threads = Some bp0
    /\ Throwing.main_setup stat_fails host (argv0 :: inputs) w
       = (lines, w,
          Throwing.Batch
            (add_jobs w
               ((fun input => (input, change_extension input ".jpg"))
                  <$> inputs) bp0)
            memory_budget_mb max_threads)
    /\ job_queue
         (add_jobs w
            ((fun input => (input, change_extension input ".jpg"))
               <$> inputs) bp0)
       = reverse
           ((fun input =>
               mk_job input (change_extension input ".jpg")
                 (estimate_memory_requirement w input)) <$> inputs).
Proof.
  intros Hne Hplain memory_budget_mb max_threads.
  pose proof (core_count_positive host) as Hcores. fold max_threads in Hcores.
  destruct (constructor_returns 95 false 0 0 memory_budget_mb max_threads
              Hcores) as (bp0 & Hnew & Hq0 & _).
  unfold Throwing.main_setup. subst max_threads memory_budget_mb.
  destruct (get_performance_core_count host) as [max_threads lines].
  cbn [fst] in *. cbn [tail].
  rewrite parse_args_plain by done. cbn.
  case_bool_decide; [done|]. rewrite Hnew.
  eexists _, bp0. split; [done|]. split; [done|].
  destruct (add_jobs_spec w ((fun input =>
                                (input, change_extension input ".jpg"))
                               <$> inputs) bp0) as (-> & _ & _).
  rewrite Hq0, app_nil_r. unfold jobs_of. by rewrite <- list_fmap_compose.
Qed.

(** "heif2jpeg small.heic mid.HEIF" on the sample machine: two jobs, four
    threads, a budget of 3072 MB *)
Lemma plain_arguments_become_jobs_sample :
  exists lines bp0,
    BatchProcessor_new 95 false 0 0 3072 4 = Some bp0
    /\ Throwing.main_setup Sample.readable Sample.host
         ["heif2jpeg"; "small.heic"; "mid.HEIF"]%string Sample.disk
       = (lines, Sample.disk,
          Throwing.Batch
            (add_jobs Sample.disk
               [("small.heic", "small.jpg"); ("mid.HEIF", "mid.jpg")]%string
               bp0)
            3072 4).
Proof.
  destruct (plain_arguments_become_jobs Sample.readable Sample.host
              "heif2jpeg" ["small.heic"; "mid.HEIF"]%string Sample.disk)
    as (lines & bp0 & Hnew & Hsetup & _).
  - discriminate.
  - repeat constructor; apply (bool_decide_unpack _); vm_compute; exact I.
  - exists lines, bp0. split; [exact Hnew | exact Hsetup].
Defined.
